(** * Resona: the playback engine and the radio-station resolver

    A shallow embedding of the Go sources of the terminal player:
    the radio library (manifest detection, PLS and M3U parsing), the
    sample tap that feeds the visualizer, and the [AudioPlayer] with its
    transport controls, wall-clock position bookkeeping and multi-URL
    fallback.

    Conventions of the embedding.
    - Go strings are byte strings: [string] of the Standard Library.
    - Go [int]/[int64] values are [Z]; where the source can overflow
      ([time.Duration] arithmetic) the wrap-around is written out.
    - Go [float64] is the kernel's binary64 type [float]; general facts
      go through its IEEE 754 specification [SpecFloat].
    - A nil pointer or nil slice is [None].
    - Calls to [log.Printf] are diagnostics and are left out. *)

From Stdlib Require Import ZArith List Bool Ascii String Lia Permutation Sorted.
From Stdlib Require Import Uint63 Floats.
From Stdlib Require Import DecimalString.
Import ListNotations.

Set Warnings "-register-all".

Local Open Scope string_scope.
Local Open Scope list_scope.
Local Open Scope Z_scope.

(* ================================================================= *)
(** ** Package [strings] *)

Module strings.

(** [strings.HasPrefix(s, prefix)]. *)
Fixpoint HasPrefix (s prefix : string) {struct prefix} : bool :=
  match prefix with
  | EmptyString => true
  | String p prefix' =>
      match s with
      | EmptyString => false
      | String c s' => Ascii.eqb c p && HasPrefix s' prefix'
      end
  end.

(** [strings.Index(s, substr)]: byte offset of the first occurrence. *)
Fixpoint Index (s substr : string) : option nat :=
  if HasPrefix s substr then Some 0%nat
  else match s with
       | EmptyString => None
       | String _ s' => option_map S (Index s' substr)
       end.

(** [strings.Contains(s, substr)] is [Index(s, substr) >= 0]. *)
Definition Contains (s substr : string) : bool :=
  match Index s substr with Some _ => true | None => false end.

(** [strings.HasSuffix(s, suffix)]. *)
Definition HasSuffix (s suffix : string) : bool :=
  let n := String.length s in
  let k := String.length suffix in
  (k <=? n)%nat && String.eqb (substring (n - k) k s) suffix.

(** [strings.SplitN(s, sep, 2)] for a non-empty separator: the text
    before and after the first occurrence of [sep], or [s] alone when
    [sep] does not occur. *)
Definition SplitN_2 (s sep : string) : list string :=
  match Index s sep with
  | None => [s]
  | Some i =>
      [substring 0 i s;
       substring (i + String.length sep) (String.length s - (i + String.length sep)) s]
  end.

(** The table [asciiSpace]: tab, line feed, vertical tab, form feed,
    carriage return and space. *)
Definition asciiSpace (c : ascii) : bool :=
  let n := nat_of_ascii c in
  ((9 <=? n) && (n <=? 13))%nat || (n =? 32)%nat.

Definition byte (n : nat) : ascii := ascii_of_nat n.

(** [unicode.IsSpace] beyond ASCII, on the UTF-8 encoding: U+0085 and
    U+00A0 take two bytes; U+1680, U+2000..U+200A, U+2028, U+2029,
    U+202F, U+205F and U+3000 take three. *)
Definition isSpace2 (b1 b2 : ascii) : bool :=
  let n1 := nat_of_ascii b1 in
  let n2 := nat_of_ascii b2 in
  (n1 =? 194)%nat && ((n2 =? 133)%nat || (n2 =? 160)%nat).

Definition isSpace3 (b1 b2 b3 : ascii) : bool :=
  let n1 := nat_of_ascii b1 in
  let n2 := nat_of_ascii b2 in
  let n3 := nat_of_ascii b3 in
  ((n1 =? 225) && (n2 =? 154) && (n3 =? 128))%nat
  || ((n1 =? 226) && (n2 =? 128)
      && (((128 <=? n3) && (n3 <=? 138)) || (n3 =? 168) || (n3 =? 169) || (n3 =? 175)))%nat
  || ((n1 =? 226) && (n2 =? 129) && (n3 =? 159))%nat
  || ((n1 =? 227) && (n2 =? 128) && (n3 =? 128))%nat.

(** Leading white space, rune by rune ([TrimLeftFunc] with
    [unicode.IsSpace]; the ASCII fast path of [TrimSpace] agrees). *)
Fixpoint trimLeft (s : list ascii) : list ascii :=
  match s with
  | [] => []
  | b1 :: r1 =>
      if asciiSpace b1 then trimLeft r1
      else match r1 with
           | [] => s
           | b2 :: r2 =>
               if isSpace2 b1 b2 then trimLeft r2
               else match r2 with
                    | [] => s
                    | b3 :: r3 => if isSpace3 b1 b2 b3 then trimLeft r3 else s
                    end
           end
  end.

(** Trailing white space, on the reversed bytes: the last rune is
    found by stepping back to its start byte ([DecodeLastRuneInString]). *)
Fixpoint trimRightRev (s : list ascii) : list ascii :=
  match s with
  | [] => []
  | b1 :: r1 =>
      if asciiSpace b1 then trimRightRev r1
      else match r1 with
           | [] => s
           | b2 :: r2 =>
               if isSpace2 b2 b1 then trimRightRev r2
               else match r2 with
                    | [] => s
                    | b3 :: r3 => if isSpace3 b3 b2 b1 then trimRightRev r3 else s
                    end
           end
  end.

(** [strings.TrimSpace(s)]. *)
Definition TrimSpace (s : string) : string :=
  string_of_list_ascii
    (rev (trimRightRev (rev (trimLeft (list_ascii_of_string s))))).

(** [strings.ToLower] on the ASCII letters.  Bytes above 127 are kept:
    the player only compares the result with ASCII extensions, none of
    which holds a letter that a non-ASCII rune lower-cases to. *)
Definition lowerByte (c : ascii) : ascii :=
  let n := nat_of_ascii c in
  if ((65 <=? n) && (n <=? 90))%nat then ascii_of_nat (n + 32) else c.

Fixpoint ToLower (s : string) : string :=
  match s with
  | EmptyString => EmptyString
  | String c s' => String (lowerByte c) (ToLower s')
  end.

End strings.

(* ================================================================= *)
(** ** Package [path/filepath] *)

Module filepath.

(** The backward scan of [filepath.Ext] over the reversed path: stop at
    the first separator, return the suffix that starts at the first dot
    met.  [acc] is the suffix already scanned. *)
Fixpoint extScan (rpath : list ascii) (acc : list ascii) : list ascii :=
  match rpath with
  | [] => []
  | c :: r =>
      if Ascii.eqb c "/"%char then []
      else if Ascii.eqb c "."%char then c :: acc
      else extScan r (c :: acc)
  end.

(** [filepath.Ext(path)]: the suffix beginning at the final dot of the
    final path element; empty if there is no dot. *)
Definition Ext (path : string) : string :=
  string_of_list_ascii (extScan (rev (list_ascii_of_string path)) []).

End filepath.

(* ================================================================= *)
(** ** Errors *)

(** The two error shapes the sources build: [errors.errorString] (also a
    [fmt.Errorf] without the wrap verb) and [fmt.wrapError], whose wrapped
    error may be nil. *)
Inductive error : Type :=
| errorString (msg : string)
| wrapError (msg : string) (err : option error).

Definition Error (e : error) : string :=
  match e with
  | errorString msg => msg
  | wrapError msg _ => msg
  end.

Definition Unwrap (e : error) : option error :=
  match e with
  | errorString _ => None
  | wrapError _ err => err
  end.

(** [fmt.Errorf(prefix + "%w", err)]: a nil operand prints as a bad verb
    and is kept as the wrapped error. *)
Definition Errorf_w (prefix : string) (err : option error) : error :=
  wrapError
    (prefix ++ match err with Some e => Error e | None => "%!w(<nil>)" end)
    err.

(** [%d] of an integer. *)
Definition itoa (n : Z) : string := NilZero.string_of_int (Z.to_int n).

(* ================================================================= *)
(** ** Package [time] *)

Module time.

(** [time.Duration]: a signed 64-bit count of nanoseconds. *)
Definition Duration : Type := Z.

Definition Second : Duration := 1000000000.
Definition minDuration : Duration := - 2 ^ 63.
Definition maxDuration : Duration := 2 ^ 63 - 1.

(** Two's-complement wrap-around of a 64-bit signed result. *)
Definition wrap64 (z : Z) : Z := (z + 2 ^ 63) mod 2 ^ 64 - 2 ^ 63.

Definition int64_range (z : Z) : Prop := - 2 ^ 63 <= z <= 2 ^ 63 - 1.

(** [time.Time] as the player uses it: the zero value of a struct field
    never assigned, or a reading of the monotonic clock taken by
    [time.Now()], in nanoseconds. *)
Inductive Time : Type :=
| Zero
| Mono (ns : Z).

(** [subMono(t, u)]: the difference of two monotonic readings, saturated
    at the ends of the [Duration] range. *)
Definition subMono (t u : Z) : Duration :=
  let d := wrap64 (t - u) in
  if (d <? 0) && (u <? t) then maxDuration
  else if (0 <? d) && (t <? u) then minDuration
  else d.

(** [time.Since(t)] when the monotonic clock reads [now].  For the zero
    [Time], which has no monotonic reading, the wall-clock difference
    from year 1 overflows and [Sub] saturates. *)
Definition Since (now : Z) (t : Time) : Duration :=
  match t with
  | Zero => maxDuration
  | Mono u => subMono now u
  end.

(** [float64(n)] for a 64-bit signed integer, rounding to nearest even. *)
Definition float64_of_int (n : Z) : float :=
  if n =? - 2 ^ 63 then (-9223372036854775808)%float
  else if n <? 0 then (- of_uint63 (Uint63.of_Z (- n)))%float
  else of_uint63 (Uint63.of_Z n).

(** [Duration.Seconds()]: integer seconds plus the fractional part. *)
Definition Seconds (d : Duration) : float :=
  let sec := Z.quot d Second in
  let nsec := Z.rem d Second in
  (float64_of_int sec + float64_of_int nsec / 1e9)%float.

End time.

(* ================================================================= *)
(** ** The radio library *)

Record RadioStation : Type := {
  Name : string;
  URL : string;
  StreamURL : string;          (* primary stream URL *)
  StreamURLs : list string;    (* all stream URLs, with fallbacks *)
  Genre : string;
  Language : string;
  Country : string;
  Bitrate : string;
  Description : string;
  Tags : list string;
  Metadata : list (string * string);
  AddedAt : time.Time;
  LastPlayed : time.Time
}.

Record RadioLibrary : Type := {
  stations : list RadioStation;
  filePath : string
}.

(** An HTTP response as far as the sources read it.  [Lines] is the body
    as a [bufio.Scanner] with the default line splitter yields it, one
    [scanner.Text()] per entry. *)
Record Response : Type := {
  StatusCode : Z;
  Status : string;
  ContentType : string;
  Lines : list string
}.

(** The outside world of the radio library: [http.Get] and the write of
    the station file done by [Save]. *)
Record Net : Type := {
  http_Get : string -> error + Response;
  os_WriteFile : string -> list RadioStation -> option error
}.

(** [bufio.ScanLines] over a whole body whose lines fit the scanner's
    token buffer: split at line feeds, drop one trailing carriage return
    of each line, and yield no empty token at the end of the input. *)
Definition dropCR (rline : list ascii) : list ascii :=
  match rline with
  | c :: r => if Ascii.eqb c (ascii_of_nat 13) then r else rline
  | [] => []
  end.

Fixpoint scanLinesFrom (body : list ascii) (rcur : list ascii) : list string :=
  match body with
  | [] =>
      match rcur with
      | [] => []
      | _ => [string_of_list_ascii (rev (dropCR rcur))]
      end
  | c :: rest =>
      if Ascii.eqb c (ascii_of_nat 10)
      then string_of_list_ascii (rev (dropCR rcur)) :: scanLinesFrom rest []
      else scanLinesFrom rest (c :: rcur)
  end.

Definition ScanLines (body : string) : list string :=
  scanLinesFrom (list_ascii_of_string body) [].

(** The loop of [parsePLS]: [urls] grows by [append] as the scanner
    advances. *)
Fixpoint parsePLS_loop (scanner : list string) (urls : list string) : list string :=
  match scanner with
  | [] => urls
  | text :: scanner' =>
      let line := strings.TrimSpace text in
      if strings.HasPrefix line "File" && strings.Contains line "=" then
        match strings.SplitN_2 line "=" with
        | [_; value] =>
            if strings.HasPrefix value "http"
            then parsePLS_loop scanner' (urls ++ [value])
            else parsePLS_loop scanner' urls
        | _ => parsePLS_loop scanner' urls
        end
      else parsePLS_loop scanner' urls
  end.

(** [parsePLS]: all stream URLs of a PLS playlist. *)
Definition parsePLS (scanner : list string) : error + list string :=
  let urls := parsePLS_loop scanner [] in
  if (List.length urls =? 0)%nat
  then inl (errorString "no stream URLs found in PLS file")
  else inr urls.

Fixpoint parseM3U_loop (scanner : list string) (urls : list string) : list string :=
  match scanner with
  | [] => urls
  | text :: scanner' =>
      let line := strings.TrimSpace text in
      if negb (String.eqb line "") && negb (strings.HasPrefix line "#")
         && strings.HasPrefix line "http"
      then parseM3U_loop scanner' (urls ++ [line])
      else parseM3U_loop scanner' urls
  end.

(** [parseM3U]: all stream URLs of an M3U playlist. *)
Definition parseM3U (scanner : list string) : error + list string :=
  let urls := parseM3U_loop scanner [] in
  if (List.length urls =? 0)%nat
  then inl (errorString "no stream URLs found in M3U file")
  else inr urls.

(** [resolvePlaylistURL]: fetch a playlist and parse it by format. *)
Definition resolvePlaylistURL (net : Net) (playlistURL : string) : error + list string :=
  match http_Get net playlistURL with
  | inl err => inl (Errorf_w "failed to fetch playlist: " (Some err))
  | inr resp =>
      if negb (StatusCode resp =? 200)
      then inl (errorString ("failed to fetch playlist: HTTP " ++ itoa (StatusCode resp)))
      else if strings.Contains playlistURL ".pls" then parsePLS (Lines resp)
      else if strings.Contains playlistURL ".m3u" then parseM3U (Lines resp)
      else inl (errorString "unsupported playlist format")
  end.

(** The test [AddStation] and [PlayQuickStation] make on a station URL
    before they resolve it as a playlist. *)
Definition isPlaylistURL (url : string) : bool :=
  strings.Contains url ".pls" || strings.Contains url ".m3u".

Definition withStreams (st : RadioStation) (addedAt : time.Time)
    (streamURL : string) (streamURLs : list string) : RadioStation :=
  {| Name := Name st; URL := URL st;
     StreamURL := streamURL; StreamURLs := streamURLs;
     Genre := Genre st; Language := Language st; Country := Country st;
     Bitrate := Bitrate st; Description := Description st;
     Tags := Tags st; Metadata := Metadata st;
     AddedAt := addedAt; LastPlayed := LastPlayed st |}.

(** The station [AddStation] is about to store, with its candidate list
    resolved; [now] is the reading of [time.Now()]. *)
Definition resolveStation (net : Net) (now : Z) (station : RadioStation)
  : error + RadioStation :=
  if isPlaylistURL (URL station) then
    match resolvePlaylistURL net (URL station) with
    | inl err => inl (Errorf_w "failed to resolve playlist URL: " (Some err))
    | inr streamURLs =>
        (* streamURLs[0]: the parsers never return an empty list *)
        inr (withStreams station (time.Mono now) (hd "" streamURLs) streamURLs)
    end
  else
    inr (withStreams station (time.Mono now) (URL station) [URL station]).

(** [RadioLibrary.AddStation]: the library afterwards and the error
    returned. *)
Definition AddStation (net : Net) (now : Z) (rl : RadioLibrary) (station : RadioStation)
  : RadioLibrary * option error :=
  match resolveStation net now station with
  | inl err => (rl, Some err)
  | inr station' =>
      let rl' := {| stations := stations rl ++ [station']; filePath := filePath rl |} in
      (rl', os_WriteFile net (filePath rl') (stations rl'))
  end.

(* ================================================================= *)
(** ** Slices of [float64] *)

(** A [[]float64] value is the address of its backing array; the heap
    maps addresses to contents.  Allocation never reuses an address. *)
Definition Slice : Type := nat.
Definition Heap : Type := list (list float).

Definition alloc (h : Heap) (v : list float) : Slice * Heap :=
  (List.length h, h ++ [v]).

Definition deref (h : Heap) (a : Slice) : list float := nth a h [].

Fixpoint setNth {A : Type} (l : list A) (i : nat) (x : A) : list A :=
  match l, i with
  | [], _ => []
  | _ :: l', O => x :: l'
  | y :: l', S i' => y :: setNth l' i' x
  end.

(** [a[i] = x] for an index in range. *)
Definition store (h : Heap) (a : Slice) (i : nat) (x : float) : Heap :=
  setNth h a (setNth (deref h a) i x).

(* ================================================================= *)
(** ** The audio player *)

(** [beep.Ctrl]: the stream it forwards to, named by the source it
    decodes (nil once [Stop] has cut it), and the pause flag of the sink. *)
Record Ctrl : Type := {
  Streamer : option string;
  Paused : bool
}.

Record AudioPlayer : Type := {
  ctrl : option Ctrl;
  mixer : list string;         (* the sequences attached to the mixer, by source *)
  isPlaying : bool;
  isPaused : bool;
  currentSong : string;
  speakerInit : bool;
  startTime : time.Time;
  pausedTime : time.Duration;
  duration : float;            (* total duration in seconds *)
  audioSamples : option Slice
}.

Definition set_ctrl (v : option Ctrl) (ap : AudioPlayer) : AudioPlayer :=
  {| ctrl := v; mixer := mixer ap; isPlaying := isPlaying ap; isPaused := isPaused ap;
     currentSong := currentSong ap; speakerInit := speakerInit ap;
     startTime := startTime ap; pausedTime := pausedTime ap;
     duration := duration ap; audioSamples := audioSamples ap |}.

Definition set_mixer (v : list string) (ap : AudioPlayer) : AudioPlayer :=
  {| ctrl := ctrl ap; mixer := v; isPlaying := isPlaying ap; isPaused := isPaused ap;
     currentSong := currentSong ap; speakerInit := speakerInit ap;
     startTime := startTime ap; pausedTime := pausedTime ap;
     duration := duration ap; audioSamples := audioSamples ap |}.

Definition set_isPlaying (v : bool) (ap : AudioPlayer) : AudioPlayer :=
  {| ctrl := ctrl ap; mixer := mixer ap; isPlaying := v; isPaused := isPaused ap;
     currentSong := currentSong ap; speakerInit := speakerInit ap;
     startTime := startTime ap; pausedTime := pausedTime ap;
     duration := duration ap; audioSamples := audioSamples ap |}.

Definition set_isPaused (v : bool) (ap : AudioPlayer) : AudioPlayer :=
  {| ctrl := ctrl ap; mixer := mixer ap; isPlaying := isPlaying ap; isPaused := v;
     currentSong := currentSong ap; speakerInit := speakerInit ap;
     startTime := startTime ap; pausedTime := pausedTime ap;
     duration := duration ap; audioSamples := audioSamples ap |}.

Definition set_currentSong (v : string) (ap : AudioPlayer) : AudioPlayer :=
  {| ctrl := ctrl ap; mixer := mixer ap; isPlaying := isPlaying ap; isPaused := isPaused ap;
     currentSong := v; speakerInit := speakerInit ap;
     startTime := startTime ap; pausedTime := pausedTime ap;
     duration := duration ap; audioSamples := audioSamples ap |}.

Definition set_startTime (v : time.Time) (ap : AudioPlayer) : AudioPlayer :=
  {| ctrl := ctrl ap; mixer := mixer ap; isPlaying := isPlaying ap; isPaused := isPaused ap;
     currentSong := currentSong ap; speakerInit := speakerInit ap;
     startTime := v; pausedTime := pausedTime ap;
     duration := duration ap; audioSamples := audioSamples ap |}.

Definition set_pausedTime (v : time.Duration) (ap : AudioPlayer) : AudioPlayer :=
  {| ctrl := ctrl ap; mixer := mixer ap; isPlaying := isPlaying ap; isPaused := isPaused ap;
     currentSong := currentSong ap; speakerInit := speakerInit ap;
     startTime := startTime ap; pausedTime := v;
     duration := duration ap; audioSamples := audioSamples ap |}.

Definition set_duration (v : float) (ap : AudioPlayer) : AudioPlayer :=
  {| ctrl := ctrl ap; mixer := mixer ap; isPlaying := isPlaying ap; isPaused := isPaused ap;
     currentSong := currentSong ap; speakerInit := speakerInit ap;
     startTime := startTime ap; pausedTime := pausedTime ap;
     duration := v; audioSamples := audioSamples ap |}.

Definition set_audioSamples (v : option Slice) (ap : AudioPlayer) : AudioPlayer :=
  {| ctrl := ctrl ap; mixer := mixer ap; isPlaying := isPlaying ap; isPaused := isPaused ap;
     currentSong := currentSong ap; speakerInit := speakerInit ap;
     startTime := startTime ap; pausedTime := pausedTime ap;
     duration := duration ap; audioSamples := v |}.

(** [NewAudioPlayer]: an empty mixer playing on the speaker, every other
    field at its zero value. *)
Definition NewAudioPlayer : AudioPlayer :=
  {| ctrl := None; mixer := []; isPlaying := false; isPaused := false;
     currentSong := ""; speakerInit := true;
     startTime := time.Zero; pausedTime := 0;
     duration := 0%float; audioSamples := None |}.

(* ----------------------------------------------------------------- *)
(** *** The sample tap *)

(** One stereo frame, [[2]float64]. *)
Definition Sample : Type := (float * float)%type.

(** [beep.Streamer].  [Stream] fills the buffer it is given and returns
    the buffer, the count of frames streamed, the [ok] flag and the next
    state of the source.  The two laws are the contract of the interface:
    the buffer is filled in place, and at most [len(samples)] frames are
    streamed. *)
Class beep_Streamer (S : Type) : Type := {
  Stream : S -> list Sample -> list Sample * Z * bool * S;
  Err : S -> option error;
  Stream_in_place : forall s samples,
    List.length (fst (fst (fst (Stream s samples)))) = List.length samples;
  Stream_at_most : forall s samples,
    snd (fst (fst (Stream s samples))) <= Z.of_nat (List.length samples)
}.

(** [SampleCaptureStreamer].  Its [audioPlayer] pointer is not a field
    here: the functions below take the player it points to, [None] for a
    nil pointer. *)
Record SampleCaptureStreamer (S : Type) : Type := {
  streamer : S;
  sampleBuffer : list float;
  bufferSize : Z
}.
Arguments streamer {S} _.
Arguments sampleBuffer {S} _.
Arguments bufferSize {S} _.

Definition NewSampleCaptureStreamer {S : Type} (src : S) : SampleCaptureStreamer S :=
  {| streamer := src; sampleBuffer := []; bufferSize := 1024 |}.

Definition numBands : nat := 24.

(** The RMS of one band: the sum of squares over [startIdx, endIdx),
    divided by the count, under the square root. *)
Definition bandRMS (buf : list float) (bandSize band : nat) : float :=
  let startIdx := (band * bandSize)%nat in
  let endIdx := Nat.min (startIdx + bandSize) (List.length buf) in
  let sum :=
    fold_left (fun sum x => (sum + x * x)%float)
              (firstn (endIdx - startIdx) (skipn startIdx buf)) 0%float in
  sqrt (sum / time.float64_of_int (Z.of_nat (endIdx - startIdx))).

(** [analyzeAndStore]: the amplitudes of the 24 bands of the sample
    buffer become the player's snapshot, in a newly made slice. *)
Definition analyzeAndStore (buf : list float) (ap : option AudioPlayer) (h : Heap)
  : option AudioPlayer * Heap :=
  match ap with
  | None => (None, h)
  | Some p =>
      let bandSize := (List.length buf / numBands)%nat in
      if (bandSize =? 0)%nat then (Some p, h)
      else
        let amplitudes := map (bandRMS buf bandSize) (seq 0 numBands) in
        let '(a, h') := alloc h amplitudes in
        (Some (set_audioSamples (Some a) p), h')
  end.

(** The capture loop: frames [0 .. n-1] mixed to mono; [None] is the
    run-time panic of an index out of range. *)
Fixpoint mixFrames (samples : list Sample) (n : nat) {struct n} : option (list float) :=
  match n with
  | O => Some []
  | S n' =>
      match samples with
      | [] => None
      | (l, r) :: rest =>
          option_map (cons ((l + r) / 2)%float) (mixFrames rest n')
      end
  end.

(** What a pull through the tap leaves behind. *)
Record Pulled (S : Type) : Type := {
  out_samples : list Sample;
  out_n : Z;
  out_ok : bool;
  out_tap : SampleCaptureStreamer S;
  out_player : option AudioPlayer;
  out_heap : Heap
}.
Arguments out_samples {S} _.
Arguments out_n {S} _.
Arguments out_ok {S} _.
Arguments out_tap {S} _.
Arguments out_player {S} _.
Arguments out_heap {S} _.

(** [SampleCaptureStreamer.Stream]. *)
Definition SampleCaptureStreamer_Stream {S : Type} `{beep_Streamer S}
    (s : SampleCaptureStreamer S) (ap : option AudioPlayer) (h : Heap)
    (samples : list Sample) : option (Pulled S) :=
  let '(samples', n, ok, src') := Stream (streamer s) samples in
  if ok && (0 <? n) then
    match mixFrames samples' (Z.to_nat n) with
    | None => None
    | Some mixed =>
        let buf := sampleBuffer s ++ mixed in
        if bufferSize s <=? Z.of_nat (List.length buf) then
          let '(ap', h') := analyzeAndStore buf ap h in
          Some {| out_samples := samples'; out_n := n; out_ok := ok;
                  out_tap := {| streamer := src'; sampleBuffer := [];
                                bufferSize := bufferSize s |};
                  out_player := ap'; out_heap := h' |}
        else
          Some {| out_samples := samples'; out_n := n; out_ok := ok;
                  out_tap := {| streamer := src'; sampleBuffer := buf;
                                bufferSize := bufferSize s |};
                  out_player := ap; out_heap := h |}
    end
  else
    Some {| out_samples := samples'; out_n := n; out_ok := ok;
            out_tap := {| streamer := src'; sampleBuffer := sampleBuffer s;
                          bufferSize := bufferSize s |};
            out_player := ap; out_heap := h |}.

(** [SampleCaptureStreamer.Err]. *)
Definition SampleCaptureStreamer_Err {S : Type} `{beep_Streamer S}
    (s : SampleCaptureStreamer S) : option error :=
  Err (streamer s).

(** [GetAudioSamples]: 24 zeros when there is no snapshot, else a copy
    of the snapshot in a newly made slice. *)
Definition GetAudioSamples (ap : AudioPlayer) (h : Heap) : Slice * Heap :=
  match audioSamples ap with
  | None => alloc h (repeat 0%float 24)
  | Some a => alloc h (deref h a)
  end.

(* ----------------------------------------------------------------- *)
(** *** Opening and decoding a source *)

Inductive Decoder : Type := MP3 | WAV | FLAC | Vorbis.

(** What the player does with its sources, in order. *)
Inductive Event : Type :=
| EvNewRequest (url : string)              (* http.NewRequest *)
| EvConnect (url : string)                 (* client.Do(req) *)
| EvOpen (path : string)                   (* os.Open *)
| EvDecode (d : Decoder) (source : string) (* the decoder reads the header *)
| EvClose (source : string).               (* the reader is closed on an error path *)

(** The outside world of the player.  Each answer may depend on what
    was done before. *)
Record Env : Type := {
  http_NewRequest : string -> option error;
  client_Do : list Event -> string -> error + Response;
  os_Open : list Event -> string -> option error;
  Decode : list Event -> Decoder -> string -> option error
}.

Definition isURL (filePath : string) : bool :=
  strings.HasPrefix filePath "http://" || strings.HasPrefix filePath "https://".

(** [isFileSupported]. *)
Definition isFileSupported (filePath : string) : bool :=
  let ext := strings.ToLower (filepath.Ext filePath) in
  String.eqb ext ".mp3" || String.eqb ext ".wav"
  || String.eqb ext ".flac" || String.eqb ext ".ogg".

(** The result of a call that returns an error: the error, the player
    and the trace of the outside world afterwards. *)
Definition Outcome : Type := (option error * AudioPlayer * list Event)%type.

(** The tail of [playDirectly] once the stream is decoded: the new
    control wrapper, the flags and the timing fields, and the sequence
    added to the mixer. *)
Definition startSession (now : Z) (filePath : string) (ap : AudioPlayer) : AudioPlayer :=
  {| ctrl := Some {| Streamer := Some filePath; Paused := false |};
     mixer := mixer ap ++ [filePath];
     isPlaying := true;
     isPaused := false;
     currentSong := filePath;
     speakerInit := speakerInit ap;
     startTime := time.Mono now;
     pausedTime := 0;
     duration := duration ap;
     audioSamples := audioSamples ap |}.

(** The decoding step shared by both kinds of source. *)
Definition decodeAndStart (env : Env) (now : Z) (filePath : string) (d : Decoder)
    (ap : AudioPlayer) (tr : list Event) : Outcome :=
  match Decode env tr d filePath with
  | Some err => (Some err, ap, tr ++ [EvDecode d filePath; EvClose filePath])
  | None => (None, startSession now filePath ap, tr ++ [EvDecode d filePath])
  end.

(** [playDirectly]: one URL or file, without fallback; [now] is the
    reading of [time.Now()] taken on success. *)
Definition playDirectly (env : Env) (now : Z) (filePath : string)
    (ap : AudioPlayer) (tr : list Event) : Outcome :=
  if isURL filePath then
    let tr1 := tr ++ [EvNewRequest filePath] in
    match http_NewRequest env filePath with
    | Some err => (Some (Errorf_w "failed to create request: " (Some err)), ap, tr1)
    | None =>
        let tr2 := tr1 ++ [EvConnect filePath] in
        match client_Do env tr1 filePath with
        | inl err => (Some (Errorf_w "failed to connect to stream: " (Some err)), ap, tr2)
        | inr resp =>
            if negb (StatusCode resp =? 200) then
              (Some (errorString ("stream returned status " ++ itoa (StatusCode resp)
                                  ++ ": " ++ Status resp)),
               ap, tr2 ++ [EvClose filePath])
            else
              let contentType := ContentType resp in
              let d := if strings.Contains contentType "ogg"
                          || strings.Contains contentType "vorbis"
                       then Vorbis else MP3 in
              decodeAndStart env now filePath d ap tr2
        end
    end
  else
    let tr1 := tr ++ [EvOpen filePath] in
    match os_Open env tr filePath with
    | Some err => (Some err, ap, tr1)
    | None =>
        let ext := strings.ToLower (filepath.Ext filePath) in
        if String.eqb ext ".mp3" then decodeAndStart env now filePath MP3 ap tr1
        else if String.eqb ext ".wav" then decodeAndStart env now filePath WAV ap tr1
        else if String.eqb ext ".flac" then decodeAndStart env now filePath FLAC ap tr1
        else if String.eqb ext ".ogg" then decodeAndStart env now filePath Vorbis ap tr1
        else (Some (errorString ("unsupported format: " ++ ext)), ap,
              tr1 ++ [EvClose filePath])
    end.

(** The completion callback the mixer runs when the stream is drained. *)
Definition playbackFinished (ap : AudioPlayer) : AudioPlayer :=
  set_isPaused false (set_isPlaying false ap).

(* ----------------------------------------------------------------- *)
(** *** Transport controls *)

Definition set_Paused (v : bool) (ap : AudioPlayer) : AudioPlayer :=
  match ctrl ap with
  | Some c => set_ctrl (Some {| Streamer := Streamer c; Paused := v |}) ap
  | None => ap
  end.

Definition hasCtrl (ap : AudioPlayer) : bool :=
  match ctrl ap with Some _ => true | None => false end.

(** [time.Duration] addition, on 64 bits. *)
Definition addDuration (a b : time.Duration) : time.Duration := time.wrap64 (a + b).

(** [Pause]; [now] is the clock read by [time.Since], [now'] the one
    read by [time.Now()] right after. *)
Definition Pause (now now' : Z) (ap : AudioPlayer) : AudioPlayer :=
  if hasCtrl ap && isPlaying ap && negb (isPaused ap) then
    let ap1 := set_isPaused true (set_Paused true ap) in
    let elapsed := time.Since now (startTime ap1) in
    let ap2 := set_pausedTime (addDuration (pausedTime ap1) elapsed) ap1 in
    set_startTime (time.Mono now') ap2
  else ap.

(** [Resume]. *)
Definition Resume (now : Z) (ap : AudioPlayer) : AudioPlayer :=
  if hasCtrl ap && isPlaying ap && isPaused ap then
    set_startTime (time.Mono now) (set_isPaused false (set_Paused false ap))
  else ap.

(** [TogglePause]. *)
Definition TogglePause (now now' : Z) (ap : AudioPlayer) : AudioPlayer :=
  if hasCtrl ap && isPlaying ap then
    if isPaused ap then
      set_startTime (time.Mono now) (set_isPaused false (set_Paused false ap))
    else
      let ap1 := set_isPaused true (set_Paused true ap) in
      let elapsed := time.Since now (startTime ap1) in
      let ap2 := set_pausedTime (addDuration (pausedTime ap1) elapsed) ap1 in
      set_startTime (time.Mono now') ap2
  else ap.

(** [Stop]: cut the control wrapper from its stream, drop it, clear the
    mixer and the flags. *)
Definition Stop (ap : AudioPlayer) : AudioPlayer :=
  let ap1 := match ctrl ap with
             | Some _ => set_ctrl None ap
             | None => ap
             end in
  let ap2 := set_mixer [] ap1 in
  set_currentSong "" (set_isPaused false (set_isPlaying false ap2)).

(** [IsPlaying]: the sink's pause flag decides while a session exists. *)
Definition IsPlaying (ap : AudioPlayer) : bool :=
  match ctrl ap with
  | Some c => isPlaying ap && negb (Paused c)
  | None => isPlaying ap
  end.

(** [IsPaused]. *)
Definition IsPaused (ap : AudioPlayer) : bool :=
  match ctrl ap with
  | Some c => Paused c
  | None => false
  end.

Definition CurrentSong (ap : AudioPlayer) : string := currentSong ap.

Definition SetDuration (d : float) (ap : AudioPlayer) : AudioPlayer := set_duration d ap.

(** [GetPosition] when the clock reads [now]. *)
Definition GetPosition (now : Z) (ap : AudioPlayer) : float :=
  if negb (isPlaying ap) && negb (isPaused ap) then 0%float
  else
    let elapsed :=
      if isPaused ap then pausedTime ap
      else addDuration (pausedTime ap) (time.Since now (startTime ap)) in
    time.Seconds elapsed.

Definition GetDuration (ap : AudioPlayer) : float := duration ap.

(** [GetProgress]. *)
Definition GetProgress (now : Z) (ap : AudioPlayer) : float :=
  let position := GetPosition now ap in
  let duration := GetDuration ap in
  if (duration <=? 0)%float then 0%float
  else
    let progress := (position / duration)%float in
    let progress := if (1 <? progress)%float then 1%float else progress in
    let progress := if (progress <? 0)%float then 0%float else progress in
    progress.

(* ----------------------------------------------------------------- *)
(** *** Play and the fallback over candidate URLs *)

(** The loop of [playWithFallback]; [lastError] is nil before the first
    failure. *)
Fixpoint fallbackLoop (env : Env) (now : Z) (urls : list string)
    (lastError : option error) (ap : AudioPlayer) (tr : list Event) : Outcome :=
  match urls with
  | [] => (Some (Errorf_w "all stream URLs failed, last error: " lastError), ap, tr)
  | url :: rest =>
      match playDirectly env now url ap tr with
      | (None, ap', tr') => (None, ap', tr')
      | (Some err, ap', tr') => fallbackLoop env now rest (Some err) ap' tr'
      end
  end.

(** [playWithFallback]: try the URLs until one works. *)
Definition playWithFallback (env : Env) (now : Z) (urls : list string)
    (ap : AudioPlayer) (tr : list Event) : Outcome :=
  fallbackLoop env now urls None ap tr.

(** [PlayRadioStation]; a nil station is [None]. *)
Definition PlayRadioStation (env : Env) (now : Z) (station : option RadioStation)
    (ap : AudioPlayer) (tr : list Event) : Outcome :=
  match station with
  | None => (Some (errorString "station is nil"), ap, tr)
  | Some st =>
      let urls :=
        if (0 <? List.length (StreamURLs st))%nat then StreamURLs st
        else if negb (String.eqb (StreamURL st) "") then [StreamURL st]
        else [URL st] in
      playWithFallback env now urls ap tr
  end.

(** [Play]. *)
Definition Play (env : Env) (now : Z) (filePath : string)
    (ap : AudioPlayer) (tr : list Event) : Outcome :=
  if negb (isURL filePath) && negb (isFileSupported filePath) then
    (Some (errorString ("unsupported file format: " ++ filepath.Ext filePath)), ap, tr)
  else
    let ap1 := Stop ap in
    if isURL filePath then playWithFallback env now [filePath] ap1 tr
    else playDirectly env now filePath ap1 tr.


(* ================================================================= *)
(** ** The station list of the radio library *)

(** [RadioLibrary.Save]: the stations are marshalled and written to the
    library's file; the world answers with the error of either step. *)
Definition Save (net : Net) (rl : RadioLibrary) : option error :=
  os_WriteFile net (filePath rl) (stations rl).

(** The loop [for i, station := range rl.stations] that returns at the
    first station whose name is [name]: its index, counted from [i]. *)
Fixpoint findByName (name : string) (l : list RadioStation) (i : nat) : option nat :=
  match l with
  | [] => None
  | station :: l' =>
      if String.eqb (Name station) name then Some i
      else findByName name l' (S i)
  end.

(** [GetStationByName]: the pointer [&rl.stations[i]] is the index [i]. *)
Definition GetStationByName (rl : RadioLibrary) (name : string) : option nat * bool :=
  match findByName name (stations rl) 0 with
  | Some i => (Some i, true)
  | None => (None, false)
  end.

(** [RemoveStation]: [append(rl.stations[:i], rl.stations[i+1:]...)] at
    the first station of that name, then [Save]. *)
Definition RemoveStation (net : Net) (rl : RadioLibrary) (name : string)
  : RadioLibrary * option error :=
  match findByName name (stations rl) 0 with
  | Some i =>
      let rl' := {| stations := firstn i (stations rl) ++ skipn (S i) (stations rl);
                    filePath := filePath rl |} in
      (rl', Save net rl')
  | None => (rl, Some (errorString ("station not found: " ++ name)))
  end.

Definition withLastPlayed (st : RadioStation) (t : time.Time) : RadioStation :=
  {| Name := Name st; URL := URL st;
     StreamURL := StreamURL st; StreamURLs := StreamURLs st;
     Genre := Genre st; Language := Language st; Country := Country st;
     Bitrate := Bitrate st; Description := Description st;
     Tags := Tags st; Metadata := Metadata st;
     AddedAt := AddedAt st; LastPlayed := t |}.

(** [rl.stations[i].LastPlayed = t], in place. *)
Fixpoint setLastPlayed (l : list RadioStation) (i : nat) (t : time.Time)
  : list RadioStation :=
  match l, i with
  | [], _ => []
  | station :: l', O => withLastPlayed station t :: l'
  | station :: l', S i' => station :: setLastPlayed l' i' t
  end.

(** [UpdateLastPlayed]; [now] is the reading of [time.Now()]. *)
Definition UpdateLastPlayed (net : Net) (now : Z) (rl : RadioLibrary) (name : string)
  : RadioLibrary * option error :=
  match findByName name (stations rl) 0 with
  | Some i =>
      let rl' := {| stations := setLastPlayed (stations rl) i (time.Mono now);
                    filePath := filePath rl |} in
      (rl', Save net rl')
  | None => (rl, Some (errorString ("station not found: " ++ name)))
  end.

(** The keys of [genreMap] after the first loop of [GetGenres]: the
    genres that are not empty, each once; [keys] are those already in
    the map. *)
Fixpoint genreKeys (l : list RadioStation) (keys : list string) : list string :=
  match l with
  | [] => keys
  | station :: l' =>
      if negb (String.eqb (Genre station) "") then
        if existsb (String.eqb (Genre station)) keys
        then genreKeys l' keys
        else genreKeys l' (keys ++ [Genre station])
      else genreKeys l' keys
  end.

(** [sort.Strings]: ascending order, strings compared byte by byte. *)
Fixpoint insertString (s : string) (l : list string) : list string :=
  match l with
  | [] => [s]
  | x :: l' => if String.leb s x then s :: l else x :: insertString s l'
  end.

Definition sort_Strings (l : list string) : list string :=
  fold_right insertString [] l.

(** [GetGenres]: all unique genres, sorted.  [rangeOrder] is the order
    in which the runtime ranges over the keys of the map. *)
Definition GetGenres (rangeOrder : list string -> list string) (rl : RadioLibrary)
  : list string :=
  sort_Strings (rangeOrder (genreKeys (stations rl) [])).

(** [RadioBrowser.PlayQuickStation], as a function of the two fields of
    the browser it reads: a station made for immediate play, resolved
    like a stored one but neither dated nor saved. *)
Definition PlayQuickStation (net : Net) (quickURL quickName : string)
  : error + RadioStation :=
  if String.eqb quickURL "" then inl (errorString "URL is required")
  else
    let name := if String.eqb quickName "" then "Quick Station" else quickName in
    let station :=
      {| Name := name; URL := quickURL; StreamURL := ""; StreamURLs := [];
         Genre := ""; Language := ""; Country := ""; Bitrate := "";
         Description := ""; Tags := []; Metadata := [];
         AddedAt := time.Zero; LastPlayed := time.Zero |} in
    if strings.Contains (URL station) ".pls" || strings.Contains (URL station) ".m3u" then
      match resolvePlaylistURL net (URL station) with
      | inl err => inl (Errorf_w "failed to resolve playlist URL: " (Some err))
      | inr streamURLs =>
          inr (withStreams station (AddedAt station) (hd "" streamURLs) streamURLs)
      end
    else
      inr (withStreams station (AddedAt station) (URL station) [URL station]).

(* ================================================================= *)
(** ** The playlist of the interface *)

Module Song.

Record t : Type := {
  Title : string;
  Artist : string;
  Album : string;
  Genre : string;
  TrackNumber : Z;
  FilePath : string;
  Duration : string;       (* human readable, e.g. 3:45 *)
  DurationSecs : float     (* in seconds, for calculations *)
}.

End Song.

(** The fields of the interface's [model] that the playlist functions
    read and write. *)
Record model : Type := {
  audioPlayer : AudioPlayer;
  playing : string;
  playingSong : option Song.t;
  currentPlaylist : list Song.t;
  currentTrackIndex : Z
}.


Definition set_audioPlayer (v : AudioPlayer) (m : model) : model :=
  {| audioPlayer := v; playing := playing m; playingSong := playingSong m;
     currentPlaylist := currentPlaylist m; currentTrackIndex := currentTrackIndex m |}.

(** [setPlaylist]. *)
Definition setPlaylist (songs : list Song.t) (startIndex : Z) (m : model) : model :=
  {| audioPlayer := audioPlayer m; playing := playing m; playingSong := playingSong m;
     currentPlaylist := songs; currentTrackIndex := startIndex |}.



(** [playCurrentTrack]: the flag returned, the model and the trace of
    the outside world afterwards. *)
Definition playCurrentTrack (env : Env) (now : Z) (m : model) (tr : list Event)
  : bool * model * list Event :=
  if (0 <=? currentTrackIndex m)
     && (currentTrackIndex m <? Z.of_nat (List.length (currentPlaylist m))) then
    match nth_error (currentPlaylist m) (Z.to_nat (currentTrackIndex m)) with
    | Some song =>
        match Play env now (Song.FilePath song) (audioPlayer m) tr with
        | (None, ap', tr') =>
            (true,
             {| audioPlayer := SetDuration (Song.DurationSecs song) ap';
                playing := Song.Title song;
                playingSong := Some song;
                currentPlaylist := currentPlaylist m;
                currentTrackIndex := currentTrackIndex m |},
             tr')
        | (Some _, ap', tr') => (false, set_audioPlayer ap' m, tr')
        end
    | None => (false, m, tr)
    end
  else (false, m, tr).



(** [isTrackFinished] when the clock reads [now]. *)
Definition isTrackFinished (now : Z) (m : model) : bool :=
  match playingSong m with
  | None => false
  | Some _ =>
      if negb (IsPlaying (audioPlayer m)) && negb (IsPaused (audioPlayer m)) then true
      else
        let position := GetPosition now (audioPlayer m) in
        let duration := GetDuration (audioPlayer m) in
        (0 <? duration)%float && (duration - 1 <=? position)%float
  end.

(* ================================================================= *)
(** ** Definitions used to state the properties *)

(** The sources on which an attempt was started, in order: every call of
    [playDirectly] begins with exactly one of these two actions. *)
Fixpoint attemptsOf (tr : list Event) : list string :=
  match tr with
  | [] => []
  | EvNewRequest u :: tr' => u :: attemptsOf tr'
  | EvOpen p :: tr' => p :: attemptsOf tr'
  | _ :: tr' => attemptsOf tr'
  end.

(** Every candidate of a list fails, one after the other, each tried in
    the state its predecessor left; the last error is threaded along. *)
Inductive allFail (env : Env) (now : Z)
  : list string -> option error -> AudioPlayer * list Event
    -> option error -> AudioPlayer * list Event -> Prop :=
| allFail_nil : forall e s, allFail env now [] e s e s
| allFail_cons : forall u rest e0 ap tr err ap1 tr1 e s,
    playDirectly env now u ap tr = (Some err, ap1, tr1) ->
    allFail env now rest (Some err) (ap1, tr1) e s ->
    allFail env now (u :: rest) e0 (ap, tr) e s.

(** The extensions [Play] accepts for a local file. *)
Definition supportedExts : list string := [".mp3"; ".wav"; ".flac"; ".ogg"].

(** A world for examples: the URLs of [good] answer 200 with MPEG audio,
    every other connection is refused, every file opens and every stream
    decodes. *)
Definition worldWith (good : list string) : Env :=
  {| http_NewRequest := fun _ => None;
     client_Do := fun _ url =>
       if existsb (String.eqb url) good
       then inr {| StatusCode := 200; Status := "200 OK";
                   ContentType := "audio/mpeg"; Lines := [] |}
       else inl (errorString "connection refused");
     os_Open := fun _ _ => None;
     Decode := fun _ _ _ => None |}.

(** A session in progress on a local file, and a candidate list whose
    third URL is the first that answers. *)
Definition exampleSession : AudioPlayer :=
  startSession 3 "/music/a.mp3" NewAudioPlayer.

Definition exampleCandidates : list string :=
  ["http://bad1/s"; "http://bad2/s"; "http://good/s"; "http://spare/s"].

(** A manifest by suffix, as the specification words it. *)
Definition hasManifestSuffix (url : string) : bool :=
  strings.HasSuffix url ".pls" || strings.HasSuffix url ".m3u"
  || strings.HasSuffix url ".m3u8".


(** Keep the answers of a partial function, in order. *)
Fixpoint collect {A B : Type} (f : A -> option B) (l : list A) : list B :=
  match l with
  | [] => []
  | x :: l' =>
      match f x with
      | Some y => y :: collect f l'
      | None => collect f l'
      end
  end.

Definition isDigit (c : ascii) : bool :=
  let n := nat_of_ascii c in ((48 <=? n) && (n <=? 57))%nat.

Fixpoint dropDigits (s : string) : string :=
  match s with
  | EmptyString => EmptyString
  | String c s' => if isDigit c then dropDigits s' else s
  end.

(** A PLS entry as the specification words it: a line of the form
    [FileN=<value>], [N] a decimal number; the answer is the value. *)
Definition spec_fileEntry (line : string) : option string :=
  if strings.HasPrefix line "File" then
    match substring 4 (String.length line - 4) line with
    | String c rest =>
        if isDigit c then
          match dropDigits rest with
          | String e value => if Ascii.eqb e "="%char then Some value else None
          | EmptyString => None
          end
        else None
    | EmptyString => None
    end
  else None.

(** PLS parsing as the specification words it: the values of the
    [FileN=<value>] lines whose value starts with [http], in file order;
    an error when there is none. *)
Definition spec_parsePLS (lines : list string) : error + list string :=
  let urls :=
    collect (fun line =>
               match spec_fileEntry line with
               | Some value => if strings.HasPrefix value "http" then Some value else None
               | None => None
               end) lines in
  match urls with
  | [] => inl (errorString "no stream URLs found in PLS file")
  | _ => inr urls
  end.

(** M3U parsing as the specification words it: the non-empty lines that
    do not start with [#] and start with [http]. *)
Definition spec_parseM3U (lines : list string) : error + list string :=
  let urls :=
    filter (fun line =>
              negb (String.eqb line "") && negb (strings.HasPrefix line "#")
              && strings.HasPrefix line "http") lines in
  match urls with
  | [] => inl (errorString "no stream URLs found in M3U file")
  | _ => inr urls
  end.

(** What the loop of [parsePLS] takes from one trimmed line. *)
Definition plsURL (line : string) : option string :=
  if strings.HasPrefix line "File" && strings.Contains line "=" then
    match strings.SplitN_2 line "=" with
    | [_; value] => if strings.HasPrefix value "http" then Some value else None
    | _ => None
    end
  else None.

(** The lines [plsURL] answers on: [File], a key without [=], the first
    [=], and a value that starts with [http]. *)
Definition fileEntry (line value : string) : Prop :=
  exists key,
    line = ("File" ++ key ++ "=" ++ value)%string
    /\ strings.Contains key "=" = false
    /\ strings.HasPrefix value "http" = true.

(** The transport commands issued during a session, each with the
    clock readings it takes. *)
Inductive Command : Type :=
| CmdPause (now now' : Z)
| CmdResume (now : Z)
| CmdToggle (now now' : Z).

Definition exec (c : Command) (ap : AudioPlayer) : AudioPlayer :=
  match c with
  | CmdPause now now' => Pause now now' ap
  | CmdResume now => Resume now ap
  | CmdToggle now now' => TogglePause now now' ap
  end.

Definition run (cmds : list Command) (ap : AudioPlayer) : AudioPlayer :=
  fold_left (fun ap c => exec c ap) cmds ap.

(** The accumulating timer of the design notes: the time accrued before
    the current run, and the instant the current run began, if running. *)
Record Timer : Type := {
  accumulated : Z;
  runningSince : option Z
}.

Definition timer_start (t0 : Z) : Timer :=
  {| accumulated := 0; runningSince := Some t0 |}.

Definition timer_pause (now : Z) (tm : Timer) : Timer :=
  match runningSince tm with
  | Some t => {| accumulated := accumulated tm + (now - t); runningSince := None |}
  | None => tm
  end.

Definition timer_resume (now : Z) (tm : Timer) : Timer :=
  match runningSince tm with
  | Some _ => tm
  | None => {| accumulated := accumulated tm; runningSince := Some now |}
  end.

Definition timer_elapsed (now : Z) (tm : Timer) : Z :=
  accumulated tm + match runningSince tm with Some t => now - t | None => 0 end.

Definition timer_exec (c : Command) (tm : Timer) : Timer :=
  match c with
  | CmdPause now _ => timer_pause now tm
  | CmdResume now => timer_resume now tm
  | CmdToggle now _ =>
      match runningSince tm with
      | Some _ => timer_pause now tm
      | None => timer_resume now tm
      end
  end.

Definition timer_run (cmds : list Command) (tm : Timer) : Timer :=
  fold_left (fun tm c => timer_exec c tm) cmds tm.

(** The clock never goes back: the readings of the commands are taken in
    order, from [t] on, and the last one is no later than [tend]. *)
Fixpoint inOrder (t : Z) (cmds : list Command) (tend : Z) : Prop :=
  match cmds with
  | [] => t <= tend
  | CmdPause a b :: rest => t <= a /\ a <= b /\ inOrder b rest tend
  | CmdResume a :: rest => t <= a /\ inOrder a rest tend
  | CmdToggle a b :: rest => t <= a /\ a <= b /\ inOrder b rest tend
  end.

(** How the timing fields of a session stand for a timer started at
    [t0], when the clock last read [t]. *)
Definition tracks (t0 t : Z) (ap : AudioPlayer) (tm : Timer) : Prop :=
  hasCtrl ap = true /\ isPlaying ap = true
  /\ pausedTime ap = accumulated tm /\ 0 <= accumulated tm
  /\ match runningSince tm with
     | Some ts =>
         isPaused ap = false /\ startTime ap = time.Mono ts
         /\ t0 <= ts <= t /\ accumulated tm <= ts - t0
     | None => isPaused ap = true /\ accumulated tm <= t - t0
     end.

(* ----------------------------------------------------------------- *)
(** *** Classes of binary64 values, on their IEEE 754 reading *)

(** A value with the given sign bit that is not NaN. *)
Definition signed (s : bool) (x : spec_float) : Prop :=
  match x with
  | S754_zero s' | S754_infinity s' | S754_finite s' _ _ => s' = s
  | S754_nan => False
  end.

(** A mantissa of full precision: 53 bits. *)
Definition normal_mantissa (m : positive) : Prop := 2 ^ 52 <= Zpos m < 2 ^ 53.

(** Zero, or finite with the exponent in a range. *)
Definition finite_in (lo hi : Z) (x : spec_float) : Prop :=
  match x with
  | S754_zero _ => True
  | S754_finite _ m e => Zpos m < 2 ^ 53 /\ lo <= e <= hi
  | _ => False
  end.

(** Zero or finite: neither NaN nor an infinity. *)
Definition finiteSF (x : spec_float) : Prop :=
  match x with
  | S754_zero _ | S754_finite _ _ _ => True
  | _ => False
  end.

(** Zero, or normal with the exponent in a range. *)
Definition normal_in (lo hi : Z) (x : spec_float) : Prop :=
  match x with
  | S754_zero _ => True
  | S754_finite _ m e => normal_mantissa m /\ lo <= e <= hi
  | _ => False
  end.

(** Strictly positive: finite or infinite, sign bit clear, not zero. *)
Definition posSF (x : spec_float) : Prop :=
  match x with
  | S754_finite false _ _ | S754_infinity false => True
  | _ => False
  end.

(** The value 1.0. *)
Definition one64 : spec_float := S754_finite false 4503599627370496 (-52).

(** Clamping into [0, 1], as the specification words it. *)
Definition clamp01 (q : float) : float :=
  if (q <? 0)%float then 0%float
  else if (1 <? q)%float then 1%float
  else q.

(** At least zero: a zero of either sign, a positive finite value or
    plus infinity. *)
Definition nonnegSF (x : spec_float) : Prop :=
  match x with
  | S754_zero _ | S754_infinity false | S754_finite false _ _ => True
  | _ => False
  end.

(** Neither NaN nor an infinity. *)
Definition finite64 (x : float) : Prop := finiteSF (Prim2SF x).

(** A frame whose two channels are finite; any frame at all. *)
Definition finiteFrame (f : Sample) : Prop := finite64 (fst f) /\ finite64 (snd f).

Definition anyFrame (f : Sample) : Prop := True.

(** What a call of [GetAudioSamples] hands to its caller. *)
Definition contents (r : Slice * Heap) : list float := deref (snd r) (fst r).

(* ----------------------------------------------------------------- *)
(** *** The player, its taps and the readers of the snapshot *)

(** A source of constant amplitude that never ends; its state is the
    amplitude. *)
#[export] Instance constantSource : beep_Streamer float.
Proof.
  refine {| Stream := fun amp samples =>
                        (map (fun _ : Sample => (amp, amp)) samples,
                         Z.of_nat (List.length samples), true, amp);
            Err := fun _ => None |}.
  - intros s samples. simpl. apply length_map.
  - intros s samples. simpl. apply Z.le_refl.
Defined.

(** The calls the foreground makes on the player, and the completion
    callback. *)
Inductive Op : Type :=
| OpPlay (env : Env) (now : Z) (filePath : string) (tr : list Event)
| OpPlayRadioStation (env : Env) (now : Z) (station : option RadioStation) (tr : list Event)
| OpPause (now now' : Z)
| OpResume (now : Z)
| OpTogglePause (now now' : Z)
| OpStop
| OpSetDuration (d : float)
| OpFinished.

Definition applyOp (op : Op) (ap : AudioPlayer) : AudioPlayer :=
  match op with
  | OpPlay env now filePath tr => snd (fst (Play env now filePath ap tr))
  | OpPlayRadioStation env now station tr =>
      snd (fst (PlayRadioStation env now station ap tr))
  | OpPause now now' => Pause now now' ap
  | OpResume now => Resume now ap
  | OpTogglePause now now' => TogglePause now now' ap
  | OpStop => Stop ap
  | OpSetDuration d => SetDuration d ap
  | OpFinished => playbackFinished ap
  end.

(** The player with the heap of slices, the taps made for its sessions,
    and the slices [GetAudioSamples] has handed out to callers. *)
Record System (S : Type) : Type := {
  player : AudioPlayer;
  heap : Heap;
  taps : list (SampleCaptureStreamer S);
  lent : list Slice
}.
Arguments player {S} _.
Arguments heap {S} _.
Arguments taps {S} _.
Arguments lent {S} _.

Definition initial (S : Type) : System S :=
  {| player := NewAudioPlayer; heap := []; taps := []; lent := [] |}.

(** One step of the system: a call on the player; a new tap around a
    decoded stream; a pull of the audio thread through one of the taps,
    the source delivering frames that satisfy [frameOK]; a read of the
    snapshot; a write by a caller into a slice it was handed. *)
Inductive step {S : Type} `{beep_Streamer S} (frameOK : Sample -> Prop)
  : System S -> System S -> Prop :=
| step_op : forall sys op,
    step frameOK sys
         {| player := applyOp op (player sys); heap := heap sys;
            taps := taps sys; lent := lent sys |}
| step_tap : forall sys src,
    step frameOK sys
         {| player := player sys; heap := heap sys;
            taps := NewSampleCaptureStreamer src :: taps sys; lent := lent sys |}
| step_pull : forall sys before t after samples p ap',
    taps sys = before ++ t :: after ->
    Z.of_nat (List.length samples) < 2 ^ 62 ->
    SampleCaptureStreamer_Stream t (Some (player sys)) (heap sys) samples = Some p ->
    Forall frameOK (firstn (Z.to_nat (out_n p)) (out_samples p)) ->
    out_player p = Some ap' ->
    step frameOK sys
         {| player := ap'; heap := out_heap p;
            taps := before ++ out_tap p :: after; lent := lent sys |}
| step_read : forall sys,
    step frameOK sys
         {| player := player sys;
            heap := snd (GetAudioSamples (player sys) (heap sys));
            taps := taps sys;
            lent := fst (GetAudioSamples (player sys) (heap sys)) :: lent sys |}
| step_write : forall sys a i x,
    In a (lent sys) ->
    step frameOK sys
         {| player := player sys; heap := store (heap sys) a i x;
            taps := taps sys; lent := lent sys |}.

Inductive reachable {S : Type} `{beep_Streamer S} (frameOK : Sample -> Prop)
  : System S -> Prop :=
| reachable_initial : reachable frameOK (initial S)
| reachable_step : forall sys sys',
    reachable frameOK sys -> step frameOK sys sys' -> reachable frameOK sys'.

(** The snapshot, when there is one, is a slice of 24 values that
    satisfy [good], allocated and not in the hands of any caller. *)
Definition snapshotOK {S : Type} (good : float -> Prop) (sys : System S) : Prop :=
  match audioSamples (player sys) with
  | None => True
  | Some a =>
      (a < List.length (heap sys))%nat /\ ~ In a (lent sys)
      /\ List.length (deref (heap sys) a) = 24%nat
      /\ Forall good (deref (heap sys) a)
  end.

(** Every tap has the window of [NewSampleCaptureStreamer], not yet
    full, holding values that satisfy [bufOK]. *)
Definition tapsOK {S : Type} (bufOK : float -> Prop) (sys : System S) : Prop :=
  Forall (fun t => Forall bufOK (sampleBuffer t) /\ bufferSize t = 1024
                   /\ (List.length (sampleBuffer t) < 1024)%nat)
         (taps sys).

Definition lentOK {S : Type} (sys : System S) : Prop :=
  Forall (fun a => (a < List.length (heap sys))%nat) (lent sys).

Definition invariant {S : Type} (good bufOK : float -> Prop) (sys : System S) : Prop :=
  snapshotOK good sys /\ tapsOK bufOK sys /\ lentOK sys.

(** A run of pulls, straight from a source and through a tap: what each
    pull returns to the caller. *)
Fixpoint pullSource {S : Type} `{beep_Streamer S} (src : S) (bufs : list (list Sample))
  : list (list Sample * Z * bool) :=
  match bufs with
  | [] => []
  | b :: rest =>
      let '(out, n, ok, src') := Stream src b in
      (out, n, ok) :: pullSource src' rest
  end.

Fixpoint pullTap {S : Type} `{beep_Streamer S} (s : SampleCaptureStreamer S)
    (ap : option AudioPlayer) (h : Heap) (bufs : list (list Sample))
  : option (list (list Sample * Z * bool)) :=
  match bufs with
  | [] => Some []
  | b :: rest =>
      match SampleCaptureStreamer_Stream s ap h b with
      | None => None
      | Some p =>
          option_map (cons (out_samples p, out_n p, out_ok p))
                     (pullTap (out_tap p) (out_player p) (out_heap p) rest)
      end
  end.

(** The calls made so far on a new player. *)
Definition called (ops : list Op) : AudioPlayer :=
  fold_left (fun ap op => applyOp op ap) ops NewAudioPlayer.

(** A session on a local file, played through a tap around a source of
    constant amplitude: the system after the audio thread pulled 1024
    frames once. *)
Definition afterPull (amp : float) : option (System float) :=
  match SampleCaptureStreamer_Stream (NewSampleCaptureStreamer amp)
          (Some exampleSession) [] (repeat (0%float, 0%float) 1024) with
  | Some p =>
      match out_player p with
      | Some ap' =>
          Some {| player := ap'; heap := out_heap p; taps := [out_tap p]; lent := [] |}
      | None => None
      end
  | None => None
  end.

(** A network that serves one PLS playlist and refuses every other
    request, with a disk that takes every write; a station as the quick
    form makes it. *)
Definition exampleNet : Net :=
  {| http_Get := fun url =>
       if String.eqb url "http://radio.example/live.pls"
       then inr {| StatusCode := 200; Status := "200 OK";
                   ContentType := "audio/x-scpls";
                   Lines := ["[playlist]"; "File1=http://a/stream";
                             "File2=http://b/stream"; "Title1=Live"] |}
       else inl (errorString "no such host");
     os_WriteFile := fun _ _ => None |}.

Definition blankStation (name url : string) : RadioStation :=
  {| Name := name; URL := url; StreamURL := ""; StreamURLs := [];
     Genre := ""; Language := ""; Country := ""; Bitrate := "";
     Description := ""; Tags := []; Metadata := [];
     AddedAt := time.Zero; LastPlayed := time.Zero |}.

Definition stationOfGenre (name genre : string) : RadioStation :=
  {| Name := name; URL := ""; StreamURL := ""; StreamURLs := [];
     Genre := genre; Language := ""; Country := ""; Bitrate := "";
     Description := ""; Tags := []; Metadata := [];
     AddedAt := time.Zero; LastPlayed := time.Zero |}.

Definition genreLibrary : RadioLibrary :=
  {| stations := [stationOfGenre "a" "Jazz"; stationOfGenre "b" "";
                  stationOfGenre "c" "Ambient"; stationOfGenre "d" "Jazz"];
     filePath := "/home/u/.resona/radio_stations.json" |}.

Definition exampleLibrary : RadioLibrary :=
  {| stations := [blankStation "Jazz" "http://jazz.example/stream"];
     filePath := "/home/u/.resona/radio_stations.json" |}.

(** The player's own flags agree with the sink: while a session plays
    there is a control wrapper whose pause flag is the player's; a player
    that is not playing is not paused; and without a control wrapper
    nothing plays and no song is current. *)
Definition flagsAgree (ap : AudioPlayer) : Prop :=
  (isPlaying ap = true -> exists c, ctrl ap = Some c /\ Paused c = isPaused ap)
  /\ (isPlaying ap = false -> isPaused ap = false)
  /\ (ctrl ap = None -> isPlaying ap = false /\ currentSong ap = ""%string).

(** The source an action of the player is about, and the kinds of
    action: on the network, on the file system, closing a reader. *)
Definition sourceOf (e : Event) : string :=
  match e with
  | EvNewRequest url => url
  | EvConnect url => url
  | EvOpen path => path
  | EvDecode _ source => source
  | EvClose source => source
  end.

Definition isNetworkEvent (e : Event) : bool :=
  match e with
  | EvNewRequest _ | EvConnect _ => true
  | _ => false
  end.

Definition isFileEvent (e : Event) : bool :=
  match e with
  | EvOpen _ => true
  | _ => false
  end.

Definition isClose (e : Event) : bool :=
  match e with
  | EvClose _ => true
  | _ => false
  end.

(** Whether [playDirectly] gets a reader on its source: the request is
    made and answered, or the file opens. *)
Definition opens (env : Env) (tr : list Event) (filePath : string) : bool :=
  if isURL filePath then
    match http_NewRequest env filePath with
    | Some _ => false
    | None =>
        match client_Do env (tr ++ [EvNewRequest filePath]) filePath with
        | inl _ => false
        | inr _ => true
        end
    end
  else
    match os_Open env tr filePath with
    | Some _ => false
    | None => true
    end.

(** Silence: a sample that compares equal to 0, of either sign; a
    frame silent on both channels. *)
Definition silent (x : float) : Prop := (x =? 0)%float = true.

Definition silentFrame (f : Sample) : Prop := silent (fst f) /\ silent (snd f).

(** One frame mixed to mono, as the capture loop does it. *)
Definition mixFrame (f : Sample) : float := ((fst f + snd f) / 2)%float.



(* ================================================================= *)
(** * Properties *)

(** C8. After any [Stop], the position is 0 and the player is neither
    playing nor paused; a second [Stop] leaves every field of the player
    as the first one left it ([Stop] returns nothing, so it cannot fail). *)
Theorem Stop_idempotent :
  forall (ap : AudioPlayer) (now : Z),
    GetPosition now (Stop ap) = 0%float
    /\ IsPlaying (Stop ap) = false
    /\ IsPaused (Stop ap) = false
    /\ Stop (Stop ap) = Stop ap.
Proof.
  intros [c m pl pa song sp st pt d smp] now.
  unfold Stop, GetPosition, IsPlaying, IsPaused; simpl.
  destruct c; simpl; repeat split; reflexivity.
Qed.

Lemma Stop_position : forall now ap, GetPosition now (Stop ap) = 0%float.
Proof.
  intros now [c m pl pa song sp st pt d smp].
  unfold Stop, GetPosition. destruct c; reflexivity.
Qed.

Lemma isFileSupported_In :
  forall filePath,
    isFileSupported filePath = true
    <-> In (strings.ToLower (filepath.Ext filePath)) supportedExts.
Proof.
  intros filePath. unfold isFileSupported, supportedExts.
  set (ext := strings.ToLower (filepath.Ext filePath)).
  rewrite !orb_true_iff, !String.eqb_eq. simpl.
  intuition congruence.
Qed.

(** C10. [Play] on a local path whose extension (lower-cased, as
    [isFileSupported] compares it) is none of .mp3, .wav, .flac, .ogg
    returns the unsupported-format error with the player untouched and
    nothing done on any source: a session in progress keeps its control
    wrapper, flags, song and timing fields. *)
Theorem Play_unsupported_keeps_state :
  forall (env : Env) (now : Z) (filePath : string) (ap : AudioPlayer) (tr : list Event),
    isURL filePath = false ->
    ~ In (strings.ToLower (filepath.Ext filePath)) supportedExts ->
    Play env now filePath ap tr
    = (Some (errorString ("unsupported file format: " ++ filepath.Ext filePath)), ap, tr).
Proof.
  intros env now filePath ap tr Hurl Hext.
  unfold Play. rewrite Hurl.
  destruct (isFileSupported filePath) eqn:Hs.
  - apply isFileSupported_In in Hs. contradiction.
  - reflexivity.
Qed.

(* ----------------------------------------------------------------- *)
(** ** Fallback over the candidate URLs *)

Lemma attemptsOf_app :
  forall tr1 tr2, attemptsOf (tr1 ++ tr2) = attemptsOf tr1 ++ attemptsOf tr2.
Proof.
  induction tr1 as [|ev tr1 IH]; intros tr2; simpl.
  - reflexivity.
  - destruct ev; simpl; rewrite IH; reflexivity.
Qed.

Lemma decodeAndStart_trace :
  forall env now p d ap tr r ap' tr',
    decodeAndStart env now p d ap tr = (r, ap', tr') ->
    exists new, tr' = tr ++ new /\ attemptsOf new = [].
Proof.
  intros env now p d ap tr r ap' tr' H. unfold decodeAndStart in H.
  destruct (Decode env tr d p); inversion H; subst; eexists; split; reflexivity.
Qed.

(** Each call of [playDirectly] extends the trace, and starts exactly
    one attempt, on its own argument. *)
Lemma playDirectly_trace :
  forall env now u ap tr r ap' tr',
    playDirectly env now u ap tr = (r, ap', tr') ->
    exists new, tr' = tr ++ new /\ attemptsOf new = [u].
Proof.
  intros env now u ap tr r ap' tr' H. unfold playDirectly in H.
  assert (Hdec : forall d first,
             attemptsOf first = [u] ->
             decodeAndStart env now u d ap (tr ++ first) = (r, ap', tr') ->
             exists new, tr' = tr ++ new /\ attemptsOf new = [u]).
  { intros d first Hf Hd. apply decodeAndStart_trace in Hd.
    destruct Hd as (new & -> & Hn). exists (first ++ new). split.
    - now rewrite app_assoc.
    - now rewrite attemptsOf_app, Hf, Hn. }
  destruct (isURL u).
  - destruct (http_NewRequest env u).
    + inversion H; subst. exists [EvNewRequest u]. now split.
    + destruct (client_Do env (tr ++ [EvNewRequest u]) u) as [err|resp].
      * inversion H; subst. exists [EvNewRequest u; EvConnect u].
        split; [now rewrite <- app_assoc|reflexivity].
      * destruct (negb (StatusCode resp =? 200)).
        -- inversion H; subst. exists [EvNewRequest u; EvConnect u; EvClose u].
           split; [now rewrite <- !app_assoc|reflexivity].
        -- rewrite <- app_assoc in H. simpl in H.
           eapply Hdec; [|exact H]. reflexivity.
  - destruct (os_Open env tr u).
    + inversion H; subst. exists [EvOpen u]. now split.
    + repeat match type of H with
             | (if ?b then _ else _) = _ => destruct b
             end;
        try (eapply Hdec; [|exact H]; reflexivity).
      inversion H; subst. exists [EvOpen u; EvClose u].
      split; [now rewrite <- app_assoc|reflexivity].
Qed.

(** A successful [playDirectly] leaves exactly the session it started. *)
Lemma playDirectly_started :
  forall env now u ap tr ap' tr',
    playDirectly env now u ap tr = (None, ap', tr') ->
    ap' = startSession now u ap.
Proof.
  intros env now u ap tr ap' tr' H. unfold playDirectly, decodeAndStart in H.
  repeat match type of H with
         | (if ?b then _ else _) = _ => destruct b
         | match ?x with _ => _ end = _ => destruct x
         end; inversion H; reflexivity.
Qed.

(** A failed [playDirectly] leaves the player as it was. *)
Lemma playDirectly_failed :
  forall env now u ap tr err ap' tr',
    playDirectly env now u ap tr = (Some err, ap', tr') ->
    ap' = ap.
Proof.
  intros env now u ap tr err ap' tr' H. unfold playDirectly, decodeAndStart in H.
  repeat match type of H with
         | (if ?b then _ else _) = _ => destruct b
         | match ?x with _ => _ end = _ => destruct x
         end; inversion H; reflexivity.
Qed.

Lemma allFail_trace :
  forall env now urls e0 s e s',
    allFail env now urls e0 s e s' ->
    exists new, snd s' = snd s ++ new /\ attemptsOf new = urls.
Proof.
  intros env now urls e0 s e s' H.
  induction H as [e s|u rest e0 ap tr err ap1 tr1 e s Hp Hrest IH].
  - exists []. split; [now rewrite app_nil_r|reflexivity].
  - apply playDirectly_trace in Hp. destruct Hp as (n1 & -> & Hn1).
    destruct IH as (n2 & Hs & Hn2). simpl in *.
    exists (n1 ++ n2). split.
    + now rewrite Hs, app_assoc.
    + now rewrite attemptsOf_app, Hn1, Hn2.
Qed.

Lemma allFail_player :
  forall env now urls e0 s e s',
    allFail env now urls e0 s e s' -> fst s' = fst s.
Proof.
  intros env now urls e0 s e s' H.
  induction H as [e s|u rest e0 ap tr err ap1 tr1 e s Hp Hrest IH].
  - reflexivity.
  - apply playDirectly_failed in Hp. subst ap1. exact IH.
Qed.

(** The error threaded out of a non-empty run of failures is the one of
    its last candidate. *)
Lemma allFail_last :
  forall env now urls e0 s e s',
    allFail env now urls e0 s e s' ->
    urls <> [] ->
    exists e_last apk trk,
      e = Some e_last
      /\ playDirectly env now (last urls "") apk trk = (Some e_last, fst s', snd s').
Proof.
  intros env now urls e0 s e s' H.
  induction H as [e s|u rest e0 ap tr err ap1 tr1 e s Hp Hrest IH]; intros Hne.
  - contradiction.
  - destruct rest as [|u' rest'].
    + inversion Hrest; subst. exists err, ap, tr. split; [reflexivity|exact Hp].
    + destruct IH as (el & apk & trk & He & Hk); [discriminate|].
      exists el, apk, trk. split; [exact He|exact Hk].
Qed.

Lemma fallbackLoop_allFail :
  forall env now urls e0 s e s',
    allFail env now urls e0 s e s' ->
    fallbackLoop env now urls e0 (fst s) (snd s)
    = (Some (Errorf_w "all stream URLs failed, last error: " e), fst s', snd s').
Proof.
  intros env now urls e0 s e s' H.
  induction H as [e s|u rest e0 ap tr err ap1 tr1 e s Hp Hrest IH]; simpl.
  - reflexivity.
  - rewrite Hp. exact IH.
Qed.

Lemma fallbackLoop_first_success :
  forall env now pre e0 s e s1,
    allFail env now pre e0 s e s1 ->
    forall u post ap2 tr2,
      playDirectly env now u (fst s1) (snd s1) = (None, ap2, tr2) ->
      fallbackLoop env now (pre ++ u :: post) e0 (fst s) (snd s) = (None, ap2, tr2).
Proof.
  intros env now pre e0 s e s1 H.
  induction H as [e s|u0 rest e0 ap tr err ap1 tr1 e s Hp Hrest IH];
    intros u post ap2 tr2 Hu; simpl.
  - rewrite Hu. reflexivity.
  - rewrite Hp. apply IH. exact Hu.
Qed.

(** Every run is of one of the two kinds. *)
Lemma fallback_cases :
  forall env now urls e0 ap tr,
    (exists e s, allFail env now urls e0 (ap, tr) e s)
    \/ (exists pre u post e s1 ap2 tr2,
           urls = pre ++ u :: post
           /\ allFail env now pre e0 (ap, tr) e s1
           /\ playDirectly env now u (fst s1) (snd s1) = (None, ap2, tr2)).
Proof.
  intros env now urls. induction urls as [|u rest IH]; intros e0 ap tr.
  - left. exists e0, (ap, tr). constructor.
  - destruct (playDirectly env now u ap tr) as [[[err|] ap1] tr1] eqn:Hp.
    + destruct (IH (Some err) ap1 tr1)
        as [(e & s & Hall)|(pre & u' & post & e & s1 & ap2 & tr2 & Hu & Hall & Hok)].
      * left. exists e, s. econstructor; eassumption.
      * right. exists (u :: pre), u', post, e, s1, ap2, tr2.
        split; [now rewrite Hu|]. split; [|exact Hok].
        econstructor; eassumption.
    + right. exists [], u, rest, e0, (ap, tr), ap1, tr1.
      split; [reflexivity|]. split; [constructor|exact Hp].
Qed.

(** C2. [playWithFallback] on a non-empty candidate list.  Attempts are
    started in list order.  If every candidate fails, all of them were
    attempted and the error returned wraps the failure of the last one.
    If a candidate plays after all its predecessors failed, the call
    succeeds with the session of that candidate and the attempts made are
    the predecessors and that candidate: none of the later ones.  One of
    the two always applies.  [Play] on a URL and [PlayRadioStation] both
    go through it. *)
Theorem playWithFallback_in_order :
  forall (env : Env) (now : Z) (urls : list string) (ap : AudioPlayer) (tr : list Event),
    urls <> [] ->
    (forall e s,
        allFail env now urls None (ap, tr) e s ->
        exists e_last apk trk new,
          playDirectly env now (last urls "") apk trk = (Some e_last, fst s, snd s)
          /\ playWithFallback env now urls ap tr
             = (Some (Errorf_w "all stream URLs failed, last error: " (Some e_last)),
                fst s, snd s)
          /\ Unwrap (Errorf_w "all stream URLs failed, last error: " (Some e_last))
             = Some e_last
          /\ snd s = tr ++ new /\ attemptsOf new = urls)
    /\ (forall pre u post e s1 ap2 tr2,
           urls = pre ++ u :: post ->
           allFail env now pre None (ap, tr) e s1 ->
           playDirectly env now u (fst s1) (snd s1) = (None, ap2, tr2) ->
           playWithFallback env now urls ap tr = (None, ap2, tr2)
           /\ ap2 = startSession now u ap
           /\ exists new, tr2 = tr ++ new /\ attemptsOf new = pre ++ [u])
    /\ ((exists e s, allFail env now urls None (ap, tr) e s)
        \/ (exists pre u post e s1 ap2 tr2,
               urls = pre ++ u :: post
               /\ allFail env now pre None (ap, tr) e s1
               /\ playDirectly env now u (fst s1) (snd s1) = (None, ap2, tr2)))
    /\ (forall filePath,
           isURL filePath = true ->
           Play env now filePath ap tr = playWithFallback env now [filePath] (Stop ap) tr)
    /\ (forall st,
           StreamURLs st = urls ->
           PlayRadioStation env now (Some st) ap tr = playWithFallback env now urls ap tr).
Proof.
  intros env now urls ap tr Hne. repeat split.
  - intros e s Hall.
    destruct (allFail_last _ _ _ _ _ _ _ Hall Hne) as (el & apk & trk & He & Hk).
    destruct (allFail_trace _ _ _ _ _ _ _ Hall) as (new & Hs & Hn).
    exists el, apk, trk, new. subst e. repeat split; try assumption.
    apply (fallbackLoop_allFail _ _ _ _ _ _ _ Hall).
  - subst urls. apply (fallbackLoop_first_success _ _ _ _ _ _ _ H0 _ _ _ _ H1).
  - pose proof (allFail_player _ _ _ _ _ _ _ H0) as Hpl. simpl in Hpl.
    rewrite Hpl in H1. now apply playDirectly_started in H1.
  - destruct (allFail_trace _ _ _ _ _ _ _ H0) as (n1 & Hs & Hn1).
    apply playDirectly_trace in H1. destruct H1 as (n2 & -> & Hn2).
    simpl in Hs. exists (n1 ++ n2). split.
    + now rewrite Hs, app_assoc.
    + now rewrite attemptsOf_app, Hn1, Hn2.
  - apply fallback_cases.
  - intros filePath Hurl. unfold Play. rewrite Hurl. reflexivity.
  - intros st Hst. unfold PlayRadioStation. rewrite Hst.
    destruct urls as [|u rest]; [contradiction|]. reflexivity.
Qed.

Lemma Play_unsupported_keeps_state_witness :
  isURL "/music/notes.txt" = false
  /\ ~ In (strings.ToLower (filepath.Ext "/music/notes.txt")) supportedExts
  /\ Play (worldWith []) 5 "/music/notes.txt" exampleSession [EvOpen "/music/a.mp3"]
     = (Some (errorString "unsupported file format: .txt"), exampleSession,
        [EvOpen "/music/a.mp3"]).
Proof.
  assert (Hurl : isURL "/music/notes.txt" = false) by reflexivity.
  assert (Hext : ~ In (strings.ToLower (filepath.Ext "/music/notes.txt")) supportedExts).
  { vm_compute. intuition discriminate. }
  split; [exact Hurl|]. split; [exact Hext|].
  exact (Play_unsupported_keeps_state (worldWith []) 5 "/music/notes.txt" exampleSession
           [EvOpen "/music/a.mp3"] Hurl Hext).
Defined.

Lemma playWithFallback_in_order_witness :
  exampleCandidates <> []
  /\ playWithFallback (worldWith ["http://good/s"]) 7 exampleCandidates NewAudioPlayer []
     = (None, startSession 7 "http://good/s" NewAudioPlayer,
        [EvNewRequest "http://bad1/s"; EvConnect "http://bad1/s";
         EvNewRequest "http://bad2/s"; EvConnect "http://bad2/s";
         EvNewRequest "http://good/s"; EvConnect "http://good/s";
         EvDecode MP3 "http://good/s"]).
Proof.
  assert (Hne : exampleCandidates <> []) by discriminate.
  split; [exact Hne|].
  destruct (playWithFallback_in_order (worldWith ["http://good/s"]) 7
              exampleCandidates NewAudioPlayer [] Hne)
    as (_ & Hfirst & _).
  refine (proj1 (Hfirst ["http://bad1/s"; "http://bad2/s"] "http://good/s"
                   ["http://spare/s"] _ (_, _) _ _ eq_refl _ _)).
  - eapply allFail_cons; [reflexivity|].
    eapply allFail_cons; [reflexivity|].
    apply allFail_nil.
  - reflexivity.
Defined.

(* ----------------------------------------------------------------- *)
(** ** Facts about byte strings *)

Section StringFacts.

Local Open Scope string_scope.

Lemma sapp_assoc : forall a b c : string, (a ++ b) ++ c = a ++ (b ++ c).
Proof.
  induction a as [|x a IH]; intros b c; simpl; [reflexivity|now rewrite IH].
Qed.

Lemma sapp_nil_r : forall a : string, a ++ "" = a.
Proof.
  induction a as [|x a IH]; simpl; [reflexivity|now rewrite IH].
Qed.

Lemma slength_app :
  forall a b : string, String.length (a ++ b) = (String.length a + String.length b)%nat.
Proof.
  induction a as [|x a IH]; intros b; simpl; [reflexivity|now rewrite IH].
Qed.

Lemma substring_app_l :
  forall a b : string, substring 0 (String.length a) (a ++ b) = a.
Proof.
  induction a as [|x a IH]; intros b; simpl.
  - destruct b; reflexivity.
  - now rewrite IH.
Qed.

Lemma substring_whole : forall b : string, substring 0 (String.length b) b = b.
Proof.
  intros b. rewrite <- (sapp_nil_r b) at 2. apply substring_app_l.
Qed.

Lemma substring_app_r :
  forall a b : string,
    substring (String.length a) (String.length b) (a ++ b) = b.
Proof.
  induction a as [|x a IH]; intros b; simpl.
  - apply substring_whole.
  - apply IH.
Qed.

Lemma HasPrefix_iff :
  forall s p, strings.HasPrefix s p = true <-> exists t, s = p ++ t.
Proof.
  intros s p. revert s. induction p as [|c p IH]; intros s; simpl.
  - split; [intros _; now exists s|reflexivity].
  - destruct s as [|d s].
    + split; [discriminate|intros (t & Ht); discriminate].
    + rewrite andb_true_iff, Ascii.eqb_eq, IH. split.
      * intros (-> & t & ->). now exists t.
      * intros (t & Ht). inversion Ht; subst. split; [reflexivity|now exists t].
Qed.

Lemma HasPrefix_app : forall p t, strings.HasPrefix (p ++ t) p = true.
Proof. intros p t. apply HasPrefix_iff. now exists t. Qed.

(** [Index] finds an occurrence, and the first one. *)
Lemma Index_Some :
  forall s sub i,
    strings.Index s sub = Some i ->
    exists a b, s = a ++ sub ++ b /\ String.length a = i.
Proof.
  induction s as [|c s IH]; intros sub i H; simpl in H.
  - destruct (strings.HasPrefix "" sub) eqn:Hp; [|discriminate].
    inversion H; subst. apply HasPrefix_iff in Hp. destruct Hp as (t & Ht).
    exists "", t. now split.
  - destruct (strings.HasPrefix (String c s) sub) eqn:Hp.
    + inversion H; subst. apply HasPrefix_iff in Hp. destruct Hp as (t & Ht).
      exists "", t. now split.
    + destruct (strings.Index s sub) as [j|] eqn:Hj; [|discriminate].
      inversion H; subst. destruct (IH sub j Hj) as (a & b & -> & Hl).
      exists (String c a), b. simpl. now rewrite Hl.
Qed.

Lemma Index_first :
  forall s sub i a b,
    strings.Index s sub = Some i ->
    s = a ++ sub ++ b ->
    (i <= String.length a)%nat.
Proof.
  induction s as [|c s IH]; intros sub i a b H Hs; simpl in H.
  - destruct (strings.HasPrefix "" sub); [|discriminate].
    inversion H; subst. apply Nat.le_0_l.
  - destruct (strings.HasPrefix (String c s) sub) eqn:Hp.
    + inversion H; subst. apply Nat.le_0_l.
    + destruct (strings.Index s sub) as [j|] eqn:Hj; [|discriminate].
      inversion H; subst. destruct a as [|x a]; simpl in Hs.
      * rewrite Hs, HasPrefix_app in Hp. discriminate.
      * inversion Hs; subst. simpl. apply le_n_S.
        eapply IH; [exact Hj|reflexivity].
Qed.

Lemma Index_None :
  forall s sub a b, strings.Index s sub = None -> s <> a ++ sub ++ b.
Proof.
  induction s as [|c s IH]; intros sub a b H Hs; simpl in H.
  - destruct (strings.HasPrefix "" sub) eqn:Hp; [discriminate|].
    destruct a; [|discriminate]. simpl in Hs.
    rewrite Hs, HasPrefix_app in Hp. discriminate.
  - destruct (strings.HasPrefix (String c s) sub) eqn:Hp; [discriminate|].
    destruct (strings.Index s sub) as [j|] eqn:Hj; [discriminate|].
    destruct a as [|x a]; simpl in Hs.
    + rewrite Hs, HasPrefix_app in Hp. discriminate.
    + inversion Hs; subst. eapply IH; [exact Hj|reflexivity].
Qed.

(** [Contains] is the occurrence of the substring anywhere. *)
Lemma Contains_iff :
  forall s sub, strings.Contains s sub = true <-> exists a b, s = a ++ sub ++ b.
Proof.
  intros s sub. unfold strings.Contains.
  destruct (strings.Index s sub) as [i|] eqn:Hi.
  - split; [intros _|reflexivity].
    destruct (Index_Some _ _ _ Hi) as (a & b & Hs & _). now exists a, b.
  - split; [discriminate|]. intros (a & b & Hs).
    exfalso. exact (Index_None _ _ a b Hi Hs).
Qed.

Lemma substring_split :
  forall (s : string) (n : nat),
    (n <= String.length s)%nat ->
    s = substring 0 n s ++ substring n (String.length s - n) s.
Proof.
  induction s as [|c s IH]; intros n Hn; simpl in *.
  - destruct n; [reflexivity|inversion Hn].
  - destruct n as [|n]; simpl.
    + now rewrite substring_whole.
    + rewrite <- IH by now apply le_S_n. reflexivity.
Qed.

Lemma HasSuffix_app :
  forall s suf, strings.HasSuffix s suf = true -> exists a, s = a ++ suf.
Proof.
  intros s suf H. unfold strings.HasSuffix in H.
  apply andb_true_iff in H. destruct H as (Hle & Heq).
  apply Nat.leb_le in Hle. apply String.eqb_eq in Heq.
  exists (substring 0 (String.length s - String.length suf) s).
  pose proof (substring_split s (String.length s - String.length suf)) as Hs.
  replace (String.length s - (String.length s - String.length suf))%nat
    with (String.length suf) in Hs by lia.
  rewrite Heq in Hs. apply Hs. lia.
Qed.

Lemma Contains_cons_false :
  forall c s sub,
    strings.Contains (String c s) sub = false ->
    strings.HasPrefix (String c s) sub = false /\ strings.Contains s sub = false.
Proof.
  intros c s sub H. unfold strings.Contains in *. simpl in H.
  destruct (strings.HasPrefix (String c s) sub); [discriminate|].
  split; [reflexivity|].
  destruct (strings.Index s sub); [discriminate|reflexivity].
Qed.

Lemma Index_cons :
  forall c s sub,
    strings.Index (String c s) sub
    = if strings.HasPrefix (String c s) sub then Some 0%nat
      else option_map S (strings.Index s sub).
Proof. reflexivity. Qed.

(** The first [=] of a line whose key holds none. *)
Lemma Index_equals_sign :
  forall a b,
    strings.Contains a "=" = false ->
    strings.Index (a ++ "=" ++ b) "=" = Some (String.length a).
Proof.
  induction a as [|c a IH]; intros b H.
  - reflexivity.
  - apply Contains_cons_false in H. destruct H as (Hp & Hc).
    assert (Hp' : strings.HasPrefix (String c (a ++ "=" ++ b)) "=" = false).
    { simpl in *. exact Hp. }
    change (String c a ++ "=" ++ b) with (String c (a ++ "=" ++ b)).
    rewrite Index_cons, Hp', (IH b Hc). reflexivity.
Qed.

(** Cutting a line at its first [=]. *)
Lemma SplitN_2_equals_sign :
  forall a b,
    strings.Contains a "=" = false ->
    strings.SplitN_2 (a ++ "=" ++ b) "=" = [a; b].
Proof.
  intros a b H. unfold strings.SplitN_2. rewrite (Index_equals_sign a b H).
  f_equal; [apply substring_app_l|]. f_equal.
  rewrite <- sapp_assoc.
  replace (String.length a + String.length "=")%nat
    with (String.length (a ++ "=")) by apply slength_app.
  replace (String.length ((a ++ "=") ++ b) - String.length (a ++ "="))%nat
    with (String.length b) by (rewrite slength_app; lia).
  apply substring_app_r.
Qed.

End StringFacts.

(* ----------------------------------------------------------------- *)
(** ** Manifest detection *)

Lemma isPlaylistURL_iff :
  forall url,
    isPlaylistURL url = true
    <-> exists a b, (url = a ++ ".pls" ++ b \/ url = a ++ ".m3u" ++ b)%string.
Proof.
  intros url. unfold isPlaylistURL. rewrite orb_true_iff, !Contains_iff. split.
  - intros [(a & b & H)|(a & b & H)]; exists a, b; [left|right]; exact H.
  - intros (a & b & [H|H]); [left|right]; exists a, b; exact H.
Qed.

(** C4, as stated, fails: a URL with [.pls] inside a host name is taken
    for a manifest although nothing in it ends with a manifest suffix. *)
Lemma manifest_by_suffix_counterexample :
  ~ (forall url, isPlaylistURL url = true <-> hasManifestSuffix url = true).
Proof.
  intros H.
  assert (Hc : isPlaylistURL "http://live.plstream.com/radio" = true) by reflexivity.
  apply H in Hc. vm_compute in Hc. discriminate.
Qed.

(** C4, amended. A station URL is taken for a playlist manifest exactly
    when [.pls] or [.m3u] occurs anywhere in it; every URL that ends with
    [.pls], [.m3u] or [.m3u8] is among them.  The test reads the URL
    alone.  For a URL that is not a manifest, nothing is fetched and the
    station stored by [AddStation] has the input URL, unchanged, as its
    stream URL and as its one-element candidate list. *)
Theorem manifest_detection_by_substring :
  forall (net : Net) (now : Z) (rl : RadioLibrary) (st : RadioStation),
    (isPlaylistURL (URL st) = true
     <-> exists a b, (URL st = a ++ ".pls" ++ b \/ URL st = a ++ ".m3u" ++ b)%string)
    /\ (hasManifestSuffix (URL st) = true -> isPlaylistURL (URL st) = true)
    /\ (isPlaylistURL (URL st) = false ->
        resolveStation net now st
        = inr (withStreams st (time.Mono now) (URL st) [URL st])
        /\ stations (fst (AddStation net now rl st))
           = stations rl ++ [withStreams st (time.Mono now) (URL st) [URL st]]
        /\ forall net', resolveStation net' now st = resolveStation net now st).
Proof.
  intros net now rl st. split; [apply isPlaylistURL_iff|]. split.
  - unfold hasManifestSuffix. rewrite !orb_true_iff.
    intros [[H|H]|H]; apply HasSuffix_app in H; destruct H as (a & Ha);
      apply isPlaylistURL_iff.
    + exists a, ""%string. left. exact Ha.
    + exists a, ""%string. right. exact Ha.
    + exists a, "8"%string. right. exact Ha.
  - intros Hn. unfold AddStation, resolveStation. rewrite Hn. simpl.
    repeat split; reflexivity.
Qed.

(* ----------------------------------------------------------------- *)
(** ** Manifest parsing *)

Arguments strings.HasPrefix : simpl never.
Arguments strings.Contains : simpl never.
Arguments strings.TrimSpace : simpl never.
Arguments strings.SplitN_2 : simpl never.

Lemma Contains_cons :
  forall c s sub,
    strings.Contains (String c s) sub
    = strings.HasPrefix (String c s) sub || strings.Contains s sub.
Proof.
  intros c s sub. unfold strings.Contains. rewrite Index_cons.
  destruct (strings.HasPrefix (String c s) sub); [reflexivity|].
  destruct (strings.Index s sub); reflexivity.
Qed.

Lemma Index_prefix_free :
  forall a b i,
    strings.Index (a ++ "=" ++ b)%string "=" = Some i ->
    String.length a = i ->
    strings.Contains a "=" = false.
Proof.
  intros a b i Hi Hl.
  destruct (strings.Contains a "=") eqn:Hc; [|reflexivity].
  apply Contains_iff in Hc. destruct Hc as (a1 & a2 & Ha).
  assert (Hle : (i <= String.length a1)%nat).
  { eapply Index_first; [exact Hi|].
    rewrite Ha, !sapp_assoc. reflexivity. }
  rewrite Ha, !slength_app in Hl. simpl in Hl. lia.
Qed.

Lemma plsURL_fileEntry :
  forall line value, plsURL line = Some value <-> fileEntry line value.
Proof.
  intros line value. unfold plsURL, fileEntry. split.
  - destruct (strings.HasPrefix line "File") eqn:Hf; [|discriminate].
    destruct (strings.Contains line "=") eqn:Hc; [|discriminate]. cbn [andb].
    unfold strings.Contains in Hc.
    destruct (strings.Index line "=") as [i|] eqn:Hi; [|discriminate].
    destruct (Index_Some _ _ _ Hi) as (a & b & Hline & Hl).
    assert (Hfree : strings.Contains a "=" = false).
    { subst line. eapply Index_prefix_free; eassumption. }
    assert (Hsp : strings.SplitN_2 line "=" = [a; b]).
    { subst line. now apply SplitN_2_equals_sign. }
    rewrite Hsp.
    destruct (strings.HasPrefix b "http") eqn:Hh; [|discriminate].
    intros Hv. inversion Hv; subst value.
    apply HasPrefix_iff in Hf. destruct Hf as (t & Ht).
    rewrite Hline in Ht.
    destruct a as [|c1 [|c2 [|c3 [|c4 key]]]]; simpl in Ht; try discriminate;
      inversion Ht; subst.
    exists key. split; [reflexivity|]. split; [|exact Hh].
    repeat (apply Contains_cons_false in Hfree; destruct Hfree as (_ & Hfree)).
    exact Hfree.
  - intros (key & -> & Hk & Hh).
    assert (Hfree : strings.Contains ("File" ++ key) "=" = false).
    { change ("File" ++ key)%string
        with (String "F" (String "i" (String "l" (String "e" key)))).
      rewrite !Contains_cons, Hk. reflexivity. }
    rewrite HasPrefix_app.
    replace ("File" ++ key ++ "=" ++ value)%string
      with (("File" ++ key) ++ "=" ++ value)%string by apply sapp_assoc.
    assert (Hc : strings.Contains (("File" ++ key) ++ "=" ++ value) "=" = true).
    { apply Contains_iff. now exists ("File" ++ key)%string, value. }
    rewrite Hc, (SplitN_2_equals_sign _ value Hfree), Hh. reflexivity.
Qed.

Lemma parsePLS_loop_collect :
  forall scanner urls,
    parsePLS_loop scanner urls
    = urls ++ collect plsURL (map strings.TrimSpace scanner).
Proof.
  induction scanner as [|text scanner IH]; intros urls; simpl.
  - now rewrite app_nil_r.
  - unfold plsURL.
    destruct (strings.HasPrefix (strings.TrimSpace text) "File"
              && strings.Contains (strings.TrimSpace text) "="); [|apply IH].
    destruct (strings.SplitN_2 (strings.TrimSpace text) "=") as [|p1 [|value [|p3 ps]]];
      try apply IH.
    destruct (strings.HasPrefix value "http"); [|apply IH].
    rewrite IH, <- app_assoc. reflexivity.
Qed.

Lemma http_line_kept :
  forall line,
    negb (String.eqb line "") && negb (strings.HasPrefix line "#")
    && strings.HasPrefix line "http"
    = strings.HasPrefix line "http".
Proof.
  intros line. destruct (strings.HasPrefix line "http") eqn:Hh.
  - apply HasPrefix_iff in Hh. destruct Hh as (t & ->). reflexivity.
  - now rewrite andb_false_r.
Qed.

Lemma parseM3U_loop_filter :
  forall scanner urls,
    parseM3U_loop scanner urls
    = urls ++ filter (fun line => strings.HasPrefix line "http")
                     (map strings.TrimSpace scanner).
Proof.
  induction scanner as [|text scanner IH]; intros urls; simpl.
  - now rewrite app_nil_r.
  - rewrite http_line_kept.
    destruct (strings.HasPrefix (strings.TrimSpace text) "http"); [|apply IH].
    rewrite IH, <- app_assoc. reflexivity.
Qed.

(** C5, as stated, fails: a line whose key is not a number is taken as
    an entry, and a line is matched after its surrounding white space is
    trimmed, not as it stands. *)
Lemma manifest_parsing_counterexample :
  ~ (forall lines,
        parsePLS lines = spec_parsePLS lines
        /\ parseM3U lines = spec_parseM3U lines).
Proof.
  intros H.
  destruct (H ["Filename=http://a/stream"]) as (Hpls & _).
  vm_compute in Hpls. discriminate.
Qed.

(** C5, amended. From the lines of a PLS body, [parsePLS] returns, in
    file order, the text after the first [=] of every line that, once its
    surrounding white space is trimmed, starts with [File], holds an [=],
    and has [http] right after its first [=]; every [FileN=<value>] line
    with such a value is one of them.  From the lines of an M3U body,
    [parseM3U] returns, in order, the trimmed lines that start with [http]
    (none of them is empty or starts with [#]).  Each returns an error
    when there is no such line. *)
Theorem manifest_parsing :
  forall scanner : list string,
    (parsePLS scanner
     = match collect plsURL (map strings.TrimSpace scanner) with
       | [] => inl (errorString "no stream URLs found in PLS file")
       | urls => inr urls
       end)
    /\ (forall line value, plsURL line = Some value <-> fileEntry line value)
    /\ (parseM3U scanner
        = match filter (fun line => strings.HasPrefix line "http")
                       (map strings.TrimSpace scanner) with
          | [] => inl (errorString "no stream URLs found in M3U file")
          | urls => inr urls
          end)
    /\ (forall line,
           strings.HasPrefix line "http" = true ->
           line <> ""%string /\ strings.HasPrefix line "#" = false)
    /\ parsePLS (ScanLines "File1=http://a/stream
File2=http://b/stream")
       = inr ["http://a/stream"; "http://b/stream"]
    /\ parseM3U (ScanLines "#EXTINF:-1,Some station
http://x/stream")
       = inr ["http://x/stream"].
Proof.
  intros scanner. split; [|split; [|split; [|split; [|split]]]].
  - unfold parsePLS. rewrite parsePLS_loop_collect. simpl.
    destruct (collect plsURL (map strings.TrimSpace scanner)); reflexivity.
  - apply plsURL_fileEntry.
  - unfold parseM3U. rewrite parseM3U_loop_filter. simpl.
    destruct (filter _ (map strings.TrimSpace scanner)); reflexivity.
  - intros line Hh. apply HasPrefix_iff in Hh. destruct Hh as (t & ->).
    split; [discriminate|reflexivity].
  - reflexivity.
  - reflexivity.
Qed.

(* ----------------------------------------------------------------- *)
(** ** Position across pause and resume *)

Lemma wrap64_small : forall z, time.int64_range z -> time.wrap64 z = z.
Proof.
  intros z Hz. unfold time.wrap64, time.int64_range in *.
  rewrite Z.mod_small by lia. lia.
Qed.

(** Between two readings of a clock that does not go back, and less than
    the [Duration] range apart, [Since] is the plain difference. *)
Lemma Since_Mono :
  forall now ts,
    0 <= now - ts <= time.maxDuration ->
    time.Since now (time.Mono ts) = now - ts.
Proof.
  intros now ts H. unfold time.Since, time.subMono, time.maxDuration in *.
  rewrite wrap64_small by (unfold time.int64_range; lia).
  destruct (now - ts <? 0) eqn:H1; [apply Z.ltb_lt in H1; lia|].
  destruct (0 <? now - ts) eqn:H2; simpl; [|reflexivity].
  destruct (now <? ts) eqn:H3; [apply Z.ltb_lt in H3; lia|reflexivity].
Qed.

Lemma inOrder_le : forall cmds t tend, inOrder t cmds tend -> t <= tend.
Proof.
  induction cmds as [|c cmds IH]; intros t tend H; simpl in H.
  - exact H.
  - destruct c; [destruct H as (H1 & H2 & H3)|destruct H as (H1 & H3)
                 |destruct H as (H1 & H2 & H3)];
      apply IH in H3; lia.
Qed.

Lemma Pause_effect :
  forall a b ap,
    hasCtrl ap = true -> isPlaying ap = true -> isPaused ap = false ->
    hasCtrl (Pause a b ap) = true
    /\ isPlaying (Pause a b ap) = true
    /\ isPaused (Pause a b ap) = true
    /\ startTime (Pause a b ap) = time.Mono b
    /\ pausedTime (Pause a b ap)
       = addDuration (pausedTime ap) (time.Since a (startTime ap)).
Proof.
  intros a b ap Hc Hp Hpa. unfold Pause. rewrite Hc, Hp, Hpa.
  unfold set_Paused, hasCtrl in *.
  destruct (ctrl ap); [|discriminate].
  simpl. rewrite Hp. repeat split; reflexivity.
Qed.

Lemma Resume_effect :
  forall a ap,
    hasCtrl ap = true -> isPlaying ap = true -> isPaused ap = true ->
    hasCtrl (Resume a ap) = true
    /\ isPlaying (Resume a ap) = true
    /\ isPaused (Resume a ap) = false
    /\ startTime (Resume a ap) = time.Mono a
    /\ pausedTime (Resume a ap) = pausedTime ap.
Proof.
  intros a ap Hc Hp Hpa. unfold Resume. rewrite Hc, Hp, Hpa.
  unfold set_Paused, hasCtrl in *.
  destruct (ctrl ap); [|discriminate].
  simpl. rewrite Hp. repeat split; reflexivity.
Qed.

Lemma tracks_pause :
  forall t0 t a b ap tm tend,
    tracks t0 t ap tm -> t <= a -> a <= b -> b <= tend ->
    tend - t0 <= time.maxDuration ->
    tracks t0 b (Pause a b ap) (timer_pause a tm).
Proof.
  intros t0 t a b ap tm tend (Hc & Hp & Hacc & H0 & Hrun) Hta Hab Hb Hend.
  unfold timer_pause, tracks.
  destruct (runningSince tm) as [ts|] eqn:Hr.
  - destruct Hrun as (Hpa & Hst & Hts & Hle).
    destruct (Pause_effect a b ap Hc Hp Hpa) as (F1 & F2 & F3 & F4 & F5).
    rewrite F1, F2, F3, F5, Hst, Hacc. cbn [runningSince accumulated].
    rewrite Since_Mono by lia.
    unfold addDuration. rewrite wrap64_small
      by (unfold time.int64_range, time.maxDuration in *; lia).
    repeat split; try reflexivity; lia.
  - destruct Hrun as (Hpa & Hle).
    unfold Pause. rewrite Hc, Hp, Hpa. simpl. rewrite Hr.
    repeat split; try assumption; lia.
Qed.

Lemma tracks_resume :
  forall t0 t a ap tm,
    tracks t0 t ap tm -> t <= a ->
    tracks t0 a (Resume a ap) (timer_resume a tm).
Proof.
  intros t0 t a ap tm (Hc & Hp & Hacc & H0 & Hrun) Hta.
  unfold timer_resume, tracks.
  destruct (runningSince tm) as [ts|] eqn:Hr.
  - destruct Hrun as (Hpa & Hst & Hts & Hle).
    unfold Resume. rewrite Hc, Hp, Hpa. simpl. rewrite Hr.
    repeat split; try assumption; lia.
  - destruct Hrun as (Hpa & Hle).
    destruct (Resume_effect a ap Hc Hp Hpa) as (F1 & F2 & F3 & F4 & F5).
    rewrite F1, F2, F3, F4, F5, Hacc. cbn [runningSince accumulated].
    repeat split; try reflexivity; lia.
Qed.

Lemma TogglePause_dispatch :
  forall a b ap,
    TogglePause a b ap = if isPaused ap then Resume a ap else Pause a b ap.
Proof.
  intros a b ap. unfold TogglePause, Resume, Pause.
  destruct (hasCtrl ap), (isPlaying ap), (isPaused ap); reflexivity.
Qed.

Lemma tracks_run :
  forall t0 tend cmds t ap tm,
    tend - t0 <= time.maxDuration ->
    tracks t0 t ap tm ->
    inOrder t cmds tend ->
    exists t', t' <= tend /\ tracks t0 t' (run cmds ap) (timer_run cmds tm).
Proof.
  intros t0 tend cmds. induction cmds as [|c cmds IH]; intros t ap tm Hend Htr Hord.
  - exists t. split; [exact Hord|exact Htr].
  - simpl in Hord. unfold run, timer_run. simpl.
    destruct c as [a b|a|a b].
    + destruct Hord as (H1 & H2 & H3). pose proof (inOrder_le _ _ _ H3) as Hb.
      apply (IH b); [exact Hend| |exact H3].
      eapply tracks_pause; eassumption.
    + destruct Hord as (H1 & H3).
      apply (IH a); [exact Hend| |exact H3].
      eapply tracks_resume; eassumption.
    + destruct Hord as (H1 & H2 & H3). pose proof (inOrder_le _ _ _ H3) as Hb.
      simpl. rewrite TogglePause_dispatch.
      pose proof Htr as (_ & _ & _ & _ & Hrun).
      destruct (runningSince tm) as [ts|] eqn:Hr.
      * destruct Hrun as (Hpa & _). rewrite Hpa.
        apply (IH b); [exact Hend| |exact H3].
        eapply tracks_pause; eassumption.
      * destruct Hrun as (Hpa & _). rewrite Hpa.
        apply (IH a); [exact Hend| |].
        -- eapply tracks_resume; eassumption.
        -- clear - H2 H3. revert H3. generalize dependent b.
           destruct cmds as [|c cmds]; simpl; intros b Hab H.
           ++ lia.
           ++ destruct c; intuition lia.
Qed.

Lemma Play_started :
  forall env t0 path ap tr ap1 tr1,
    Play env t0 path ap tr = (None, ap1, tr1) ->
    ap1 = startSession t0 path (Stop ap).
Proof.
  intros env t0 path ap tr ap1 tr1 H. unfold Play in H.
  destruct (negb (isURL path) && negb (isFileSupported path)); [discriminate|].
  destruct (isURL path).
  - unfold playWithFallback in H. simpl in H.
    destruct (playDirectly env t0 path (Stop ap) tr) as [[[err|] ap'] tr'] eqn:Hp.
    + discriminate.
    + inversion H; subst. eapply playDirectly_started. exact Hp.
  - eapply playDirectly_started. exact H.
Qed.

Lemma tracks_startSession :
  forall t0 path ap, tracks t0 t0 (startSession t0 path ap) (timer_start t0).
Proof.
  intros t0 path ap. unfold tracks, startSession, timer_start, hasCtrl. simpl.
  repeat split; try reflexivity; lia.
Qed.

Lemma GetPosition_tracks :
  forall t0 t now ap tm,
    tracks t0 t ap tm -> t <= now -> now - t0 <= time.maxDuration ->
    GetPosition now ap = time.Seconds (timer_elapsed now tm)
    /\ (isPaused ap = true -> GetPosition now ap = time.Seconds (pausedTime ap))
    /\ (isPaused ap = false ->
        exists ts, startTime ap = time.Mono ts
                   /\ GetPosition now ap = time.Seconds (pausedTime ap + (now - ts))).
Proof.
  intros t0 t now ap tm (Hc & Hp & Hacc & H0 & Hrun) Ht Hend.
  unfold GetPosition, timer_elapsed. rewrite Hp.
  destruct (runningSince tm) as [ts|].
  - destruct Hrun as (Hpa & Hst & Hts & Hle). rewrite Hpa, Hst, Hacc. simpl negb.
    cbn [andb]. rewrite Since_Mono by lia.
    unfold addDuration. rewrite wrap64_small
      by (unfold time.int64_range, time.maxDuration in *; lia).
    split; [reflexivity|]. split; [discriminate|].
    intros _. exists ts. split; reflexivity.
  - destruct Hrun as (Hpa & Hle). rewrite Hpa, Hacc, Z.add_0_r. simpl.
    split; [reflexivity|]. split; [reflexivity|discriminate].
Qed.

(** C1. In a session started by [Play] at clock reading [t0], after any
    pause, resume and toggle commands issued with a clock that does not
    go back, [GetPosition] is the seconds of the time spent not paused:
    the accumulated field alone while paused, the accumulated field plus
    [now - startTime] while playing.  It is 0 once the player is neither
    playing nor paused.  Play, 2.0 s, Pause, 1.0 s, Resume, 1.5 s gives
    exactly 3.5. *)
Theorem GetPosition_tracks_playing_time :
  forall (env : Env) (t0 : Z) (path : string) (ap : AudioPlayer) (tr : list Event)
         (ap1 : AudioPlayer) (tr1 : list Event),
    Play env t0 path ap tr = (None, ap1, tr1) ->
    (forall cmds now,
        inOrder t0 cmds now -> now - t0 <= time.maxDuration ->
        GetPosition now (run cmds ap1)
        = time.Seconds (timer_elapsed now (timer_run cmds (timer_start t0)))
        /\ (isPaused (run cmds ap1) = true ->
            GetPosition now (run cmds ap1) = time.Seconds (pausedTime (run cmds ap1)))
        /\ (isPaused (run cmds ap1) = false ->
            exists ts,
              startTime (run cmds ap1) = time.Mono ts
              /\ GetPosition now (run cmds ap1)
                 = time.Seconds (pausedTime (run cmds ap1) + (now - ts))))
    /\ (forall now ap',
           isPlaying ap' = false -> isPaused ap' = false ->
           GetPosition now ap' = 0%float)
    /\ (forall cmds now,
           GetPosition now (Stop (run cmds ap1)) = 0%float
           /\ GetPosition now (playbackFinished (run cmds ap1)) = 0%float)
    /\ (forall tp,
           t0 + 2000000000 <= tp <= t0 + 3000000000 ->
           GetPosition (t0 + 4500000000)
             (Resume (t0 + 3000000000) (Pause (t0 + 2000000000) tp ap1))
           = 3.5%float).
Proof.
  intros env t0 path ap tr ap1 tr1 HPlay.
  apply Play_started in HPlay. subst ap1.
  pose proof (tracks_startSession t0 path (Stop ap)) as Hstart.
  split; [|split; [|split]].
  - intros cmds now Hord Hend.
    destruct (tracks_run t0 now cmds t0 _ _ Hend Hstart Hord) as (t' & Ht' & Htr).
    apply (GetPosition_tracks _ _ _ _ _ Htr Ht' Hend).
  - intros now ap' Hpl Hpa. unfold GetPosition. rewrite Hpl, Hpa. reflexivity.
  - intros cmds now. split; [apply Stop_position|].
    unfold GetPosition, playbackFinished. reflexivity.
  - intros tp Htp.
    set (cmds := [CmdPause (t0 + 2000000000) tp; CmdResume (t0 + 3000000000)]).
    assert (Hord : inOrder t0 cmds (t0 + 4500000000)) by (simpl; lia).
    assert (Hend : t0 + 4500000000 - t0 <= time.maxDuration)
      by (unfold time.maxDuration; lia).
    destruct (tracks_run t0 _ cmds t0 _ _ Hend Hstart Hord) as (t' & Ht' & Htr).
    destruct (GetPosition_tracks _ _ _ _ _ Htr Ht' Hend) as (Hpos & _).
    change (run cmds (startSession t0 path (Stop ap)))
      with (Resume (t0 + 3000000000)
              (Pause (t0 + 2000000000) tp (startSession t0 path (Stop ap)))) in Hpos.
    rewrite Hpos. unfold timer_elapsed, cmds. simpl.
    replace (t0 + 2000000000 - t0 + (t0 + 4500000000 - (t0 + 3000000000)))
      with 3500000000 by lia.
    reflexivity.
Qed.

Lemma GetPosition_tracks_playing_time_witness :
  Play (worldWith []) 100 "/music/a.mp3" NewAudioPlayer []
  = (None, startSession 100 "/music/a.mp3" NewAudioPlayer,
     [EvOpen "/music/a.mp3"; EvDecode MP3 "/music/a.mp3"])
  /\ GetPosition 4500000100
       (Resume 3000000100
          (Pause 2000000100 2000000150
             (startSession 100 "/music/a.mp3" NewAudioPlayer)))
     = 3.5%float.
Proof.
  assert (HPlay : Play (worldWith []) 100 "/music/a.mp3" NewAudioPlayer []
                  = (None, startSession 100 "/music/a.mp3" NewAudioPlayer,
                     [EvOpen "/music/a.mp3"; EvDecode MP3 "/music/a.mp3"]))
    by reflexivity.
  split; [exact HPlay|].
  destruct (GetPosition_tracks_playing_time _ _ _ _ _ _ _ HPlay) as (_ & _ & _ & H).
  apply (H 2000000150). lia.
Defined.

(* ----------------------------------------------------------------- *)
(** ** Binary64 arithmetic *)

(** Digits of a mantissa. *)
Lemma digits2_pos_size : forall p, digits2_pos p = Pos.size p.
Proof. induction p; simpl; congruence. Qed.

Lemma Zdigits2_log2 : forall p, Zdigits2 (Zpos p) = Z.log2 (Zpos p) + 1.
Proof.
  intros p. unfold Zdigits2. rewrite digits2_pos_size.
  destruct p; simpl; lia.
Qed.

Lemma Zdigits2_bounds :
  forall p, 2 ^ (Zdigits2 (Zpos p) - 1) <= Zpos p < 2 ^ Zdigits2 (Zpos p).
Proof.
  intros p. rewrite Zdigits2_log2.
  replace (Z.log2 (Z.pos p) + 1 - 1) with (Z.log2 (Zpos p)) by lia.
  apply Z.log2_spec. lia.
Qed.

Lemma Zdigits2_unique :
  forall m d, 0 < d -> 2 ^ (d - 1) <= m < 2 ^ d -> Zdigits2 m = d.
Proof.
  intros m d Hd H.
  assert (0 < m) by (pose proof (Z.pow_pos_nonneg 2 (d - 1)); lia).
  destruct m as [|p|p]; try lia.
  rewrite Zdigits2_log2.
  rewrite (Z.log2_unique (Zpos p) (d - 1)); try lia.
  replace (Z.succ (d - 1)) with d by lia. exact H.
Qed.

(** Shifting a mantissa right. *)
Lemma shr_1_m : forall r, 0 <= shr_m r -> shr_m (shr_1 r) = shr_m r / 2.
Proof.
  intros [m r s] H. simpl in *.
  destruct m as [|p|p]; try lia.
  - reflexivity.
  - destruct p; simpl.
    + rewrite Pos2Z.inj_xI. apply Z.div_unique with 1; lia.
    + rewrite Pos2Z.inj_xO. apply Z.div_unique with 0; lia.
    + reflexivity.
Qed.

Lemma pow2_xI : forall p, 2 ^ Zpos p~1 = 2 * 2 ^ Zpos p * 2 ^ Zpos p.
Proof.
  intros p. rewrite (Pos2Z.inj_xI p).
  replace (2 * Z.pos p + 1) with (Zpos p + Zpos p + 1) by lia.
  rewrite (Z.pow_add_r 2 (Z.pos p + Z.pos p) 1) by lia.
  rewrite (Z.pow_add_r 2 (Z.pos p) (Z.pos p)) by lia.
  rewrite Z.pow_1_r. ring.
Qed.

Lemma pow2_xO : forall p, 2 ^ Zpos p~0 = 2 ^ Zpos p * 2 ^ Zpos p.
Proof.
  intros p. rewrite (Pos2Z.inj_xO p).
  replace (2 * Z.pos p) with (Zpos p + Zpos p) by lia.
  rewrite (Z.pow_add_r 2 (Z.pos p) (Z.pos p)) by lia. ring.
Qed.

Lemma iter_shr_1_m :
  forall p r, 0 <= shr_m r ->
    shr_m (iter_pos shr_1 p r) = shr_m r / 2 ^ Zpos p.
Proof.
  induction p as [p IH|p IH|]; intros r H; simpl iter_pos.
  - assert (Hp : 0 < 2 ^ Zpos p) by (apply Z.pow_pos_nonneg; lia).
    assert (H1 : 0 <= shr_m (shr_1 r)) by (rewrite shr_1_m by exact H; apply Z.div_pos; lia).
    assert (H2 : 0 <= shr_m (iter_pos shr_1 p (shr_1 r)))
      by (rewrite IH by exact H1; apply Z.div_pos; [exact H1|exact Hp]).
    rewrite IH by exact H2. rewrite IH by exact H1. rewrite shr_1_m by exact H.
    rewrite !Z.div_div by lia. rewrite pow2_xI. f_equal. ring.
  - assert (Hp : 0 < 2 ^ Zpos p) by (apply Z.pow_pos_nonneg; lia).
    assert (H2 : 0 <= shr_m (iter_pos shr_1 p r))
      by (rewrite IH by exact H; apply Z.div_pos; [exact H|exact Hp]).
    rewrite IH by exact H2. rewrite IH by exact H.
    rewrite !Z.div_div by lia. rewrite pow2_xO. reflexivity.
  - rewrite shr_1_m by exact H. reflexivity.
Qed.

Lemma shr_m_record : forall m l, shr_m (shr_record_of_loc m l) = m.
Proof. intros m [|[ | | ]]; reflexivity. Qed.

(** [shr] in one formula: shift by [n] when positive *)
Lemma shr_m_shr :
  forall r e n, 0 <= shr_m r ->
    shr_m (fst (shr r e n)) = shr_m r / 2 ^ Z.max 0 n
    /\ snd (shr r e n) = e + Z.max 0 n.
Proof.
  intros r e n H. unfold shr. destruct n as [|p|p]; simpl fst; simpl snd.
  - rewrite Z.max_id. simpl. rewrite Z.div_1_r. lia.
  - rewrite Z.max_r by lia. split; [apply iter_shr_1_m; exact H|reflexivity].
  - rewrite Z.max_l by lia. simpl. rewrite Z.div_1_r. lia.
Qed.

Lemma round_nearest_even_bounds :
  forall m l, m <= round_nearest_even m l <= m + 1.
Proof.
  intros m [|[ | | ]]; simpl; try lia.
  destruct (Z.even m); lia.
Qed.

Lemma shr_fexp_m :
  forall m e l, 0 <= m ->
    shr_m (fst (shr_fexp prec emax m e l))
    = m / 2 ^ Z.max 0 (fexp prec emax (Zdigits2 m + e) - e)
    /\ snd (shr_fexp prec emax m e l)
       = e + Z.max 0 (fexp prec emax (Zdigits2 m + e) - e).
Proof.
  intros m e l H. unfold shr_fexp.
  pose proof (shr_m_shr (shr_record_of_loc m l) e
                (fexp prec emax (Zdigits2 m + e) - e)) as Hs.
  rewrite shr_m_record in Hs. apply Hs. exact H.
Qed.

Lemma binary_round_aux_signed :
  forall s m e l, 0 <= m -> signed s (binary_round_aux prec emax s m e l).
Proof.
  intros s m e l H. unfold binary_round_aux.
  destruct (shr_fexp_m m e l H) as (H1 & _).
  destruct (shr_fexp prec emax m e l) as [mrs' e'].
  simpl fst in H1.
  assert (H2 : 0 <= round_nearest_even (shr_m mrs') (loc_of_shr_record mrs')).
  { pose proof (round_nearest_even_bounds (shr_m mrs') (loc_of_shr_record mrs')).
    assert (0 <= shr_m mrs') by (rewrite H1; apply Z.div_pos; [exact H|apply Z.pow_pos_nonneg; lia]).
    lia. }
  destruct (shr_fexp_m _ e' loc_Exact H2) as (H3 & _).
  destruct (shr_fexp prec emax _ e' loc_Exact) as [mrs'' e''].
  simpl fst in H3.
  assert (H4 : 0 <= shr_m mrs'')
    by (rewrite H3; apply Z.div_pos; [exact H2|apply Z.pow_pos_nonneg; lia]).
  destruct (shr_m mrs''); [exact eq_refl| |lia].
  destruct (e'' <=? emax - prec); exact eq_refl.
Qed.

Lemma binary_round_aux_normal :
  forall s m e l,
    0 < m -> prec <= Zdigits2 m -> -1074 <= Zdigits2 m + e - prec ->
    exists m3 e3,
      binary_round_aux prec emax s m e l
      = (if e3 <=? emax - prec then S754_finite s m3 e3 else S754_infinity s)
      /\ 2 ^ 52 <= Zpos m3 < 2 ^ 53
      /\ Zdigits2 m + e - prec <= e3 <= Zdigits2 m + e - prec + 1.
Proof.
  intros s m e l Hm Hd He.
  destruct m as [|p|p]; try lia.
  pose proof (Zdigits2_bounds p) as Hb.
  set (d := Zdigits2 (Zpos p)) in *.
  unfold binary_round_aux.
  destruct (shr_fexp_m (Zpos p) e l ltac:(lia)) as (H1 & H1e).
  destruct (shr_fexp prec emax (Zpos p) e l) as [mrs' e'].
  simpl fst in H1. simpl snd in H1e. fold d in H1, H1e.
  assert (Hn1 : Z.max 0 (fexp prec emax (d + e) - e) = d - 53).
  { unfold fexp, SpecFloat.emin, prec, emax in *. lia. }
  rewrite Hn1 in H1, H1e.
  assert (Hpow : 2 ^ d = 2 ^ (d - 53) * 2 ^ 53).
  { rewrite <- Z.pow_add_r by (unfold prec in *; lia). f_equal. lia. }
  assert (Hpow' : 2 ^ (d - 1) = 2 ^ (d - 53) * 2 ^ 52).
  { rewrite <- Z.pow_add_r by (unfold prec in *; lia). f_equal. lia. }
  assert (Hp0 : 0 < 2 ^ (d - 53)) by (apply Z.pow_pos_nonneg; unfold prec in *; lia).
  assert (Hm1 : 2 ^ 52 <= shr_m mrs' < 2 ^ 53).
  { rewrite H1. split.
    - apply Z.div_le_lower_bound; [exact Hp0|]. lia.
    - apply Z.div_lt_upper_bound; [exact Hp0|]. lia. }
  pose proof (round_nearest_even_bounds (shr_m mrs') (loc_of_shr_record mrs')) as Hr.
  set (m2 := round_nearest_even (shr_m mrs') (loc_of_shr_record mrs')) in *.
  assert (Hm2 : 0 <= m2) by lia.
  destruct (shr_fexp_m m2 e' loc_Exact Hm2) as (H3 & H3e).
  destruct (shr_fexp prec emax m2 e' loc_Exact) as [mrs'' e''].
  simpl fst in H3. simpl snd in H3e.
  destruct (Z.eq_dec m2 (2 ^ 53)) as [Heq|Hne].
  - assert (Hd2 : Zdigits2 m2 = 54).
    { apply Zdigits2_unique; [lia|]. rewrite Heq. simpl Z.sub.
      change (2 ^ 54) with (2 * 2 ^ 53). lia. }
    assert (Hn2 : Z.max 0 (fexp prec emax (Zdigits2 m2 + e') - e') = 1).
    { rewrite Hd2. unfold fexp, SpecFloat.emin, prec, emax in *. lia. }
    rewrite Hn2 in H3, H3e. rewrite Heq in H3.
    change (2 ^ 53 / 2 ^ 1) with (2 ^ 52) in H3.
    rewrite H3. change (2 ^ 52) with (Zpos (2 ^ 52)%positive).
    exists (2 ^ 52)%positive, e''. split; [reflexivity|].
    split; [change (Z.pos (2 ^ 52)) with (2 ^ 52); change (2 ^ 53) with (2 * 2 ^ 52); lia|].
    unfold prec in *. lia.
  - assert (Hd2 : Zdigits2 m2 = 53).
    { apply Zdigits2_unique; [lia|]. simpl Z.sub. lia. }
    assert (Hn2 : Z.max 0 (fexp prec emax (Zdigits2 m2 + e') - e') = 0).
    { rewrite Hd2. unfold fexp, SpecFloat.emin, prec, emax in *. lia. }
    rewrite Hn2 in H3, H3e. rewrite Z.pow_0_r, Z.div_1_r in H3.
    rewrite H3.
    destruct m2 as [|q|q]; try lia.
    exists q, e''. split; [reflexivity|]. split; [lia|].
    unfold prec in *. lia.
Qed.

Lemma iter_xO_pow :
  forall k p, Zpos (Pos.iter xO p k) = Zpos p * 2 ^ Zpos k.
Proof.
  intros k p. induction k as [|k IH] using Pos.peano_ind.
  - simpl. lia.
  - rewrite Pos.iter_succ. rewrite (Pos2Z.inj_xO (Pos.iter xO p k)), IH.
    rewrite Pos2Z.inj_succ. rewrite Z.pow_succ_r by lia. ring.
Qed.

Lemma binary_round_normal :
  forall s p e,
    -1074 <= Zdigits2 (Zpos p) + e - prec ->
    exists m3 e3,
      binary_round prec emax s p e
      = (if e3 <=? emax - prec then S754_finite s m3 e3 else S754_infinity s)
      /\ 2 ^ 52 <= Zpos m3 < 2 ^ 53
      /\ Zdigits2 (Zpos p) + e - prec <= e3 <= Zdigits2 (Zpos p) + e - prec + 1.
Proof.
  intros s p e He. unfold binary_round.
  pose proof (Zdigits2_bounds p) as Hb.
  change (Zpos (digits2_pos p)) with (Zdigits2 (Zpos p)).
  set (d := Zdigits2 (Zpos p)) in *.
  assert (Hd0 : 0 < d) by (unfold d; simpl; lia).
  assert (Hf : fexp prec emax (d + e) = d + e - 53)
    by (unfold fexp, SpecFloat.emin, prec, emax in *; lia).
  rewrite Hf. unfold shl_align.
  destruct (d + e - 53 - e) as [|k|k] eqn:Hk.
  - destruct (binary_round_aux_normal s (Zpos p) e loc_Exact) as (m3 & e3 & H1 & H2 & H3);
      fold d; unfold prec in *; try lia.
    exists m3, e3. fold d in H3. repeat split; try assumption; lia.
  - destruct (binary_round_aux_normal s (Zpos p) e loc_Exact) as (m3 & e3 & H1 & H2 & H3);
      fold d; unfold prec in *; try lia.
    exists m3, e3. fold d in H3. repeat split; try assumption; lia.
  - assert (Hz : Zpos (Pos.iter xO p k) = Zpos p * 2 ^ Zpos k) by apply iter_xO_pow.
    assert (Hdk : d + Zpos k = 53) by lia.
    assert (Hdz : Zdigits2 (Zpos (Pos.iter xO p k)) = 53).
    { apply Zdigits2_unique; [lia|]. rewrite Hz.
      assert (E1 : 2 ^ (53 - 1) = 2 ^ (d - 1) * 2 ^ Zpos k).
      { rewrite <- Z.pow_add_r by lia. f_equal. lia. }
      assert (E2 : 2 ^ 53 = 2 ^ d * 2 ^ Zpos k).
      { rewrite <- Z.pow_add_r by lia. f_equal. lia. }
      assert (0 < 2 ^ Zpos k) by (apply Z.pow_pos_nonneg; lia).
      rewrite E1, E2. nia. }
    destruct (binary_round_aux_normal s (Zpos (Pos.iter xO p k)) (d + e - 53) loc_Exact)
      as (m3 & e3 & H1 & H2 & H3); rewrite ?Hdz; unfold prec in *; try lia.
    exists m3, e3. repeat split; try assumption; lia.
Qed.

(** Comparison. *)
Lemma SFcompare_antisym :
  forall x y, SFcompare y x = option_map CompOpp (SFcompare x y).
Proof.
  intros [sx|sx| |sx mx ex] [sy|sy| |sy my ey]; simpl; try reflexivity;
    try (destruct sx; reflexivity); try (destruct sy; reflexivity);
    try (destruct sx, sy; reflexivity).
  destruct sx, sy; simpl; try reflexivity;
    rewrite (Z.compare_antisym ex ey); destruct (ex ?= ey); simpl; try reflexivity;
    rewrite (Pos.compare_cont_antisym mx my Eq); simpl;
    destruct (Pos.compare_cont Eq mx my); reflexivity.
Qed.

Lemma SFcompare_refl :
  forall x, x <> S754_nan -> SFcompare x x = Some Eq.
Proof.
  intros [s|s| |s m e] H; simpl; try reflexivity; try congruence.
  - destruct s; reflexivity.
  - rewrite Z.compare_refl, Pos.compare_cont_refl. destruct s; reflexivity.
Qed.

Lemma is_nan_spec : forall x, is_nan x = true <-> Prim2SF x = S754_nan.
Proof.
  intros x. unfold is_nan. rewrite eqb_spec. unfold SFeqb.
  destruct (Prim2SF x) as [s|s| |s m e] eqn:E.
  - simpl. split; discriminate.
  - rewrite SFcompare_refl by discriminate. simpl. split; discriminate.
  - simpl. split; reflexivity.
  - rewrite SFcompare_refl by discriminate. simpl. split; discriminate.
Qed.

(** Conversion of integers. *)
Lemma Zdigits2_le_63 : forall p, Zpos p < 2 ^ 63 -> Zdigits2 (Zpos p) <= 63.
Proof.
  intros p H. pose proof (Zdigits2_bounds p) as Hb.
  destruct (Z_le_gt_dec (Zdigits2 (Zpos p)) 63) as [Hle|Hgt]; [exact Hle|].
  assert (2 ^ 63 <= 2 ^ (Zdigits2 (Z.pos p) - 1)) by (apply Z.pow_le_mono_r; lia).
  lia.
Qed.

Lemma of_uint63_pos :
  forall n, 0 < n < 2 ^ 63 ->
    exists m e,
      Prim2SF (of_uint63 (Uint63.of_Z n)) = S754_finite false m e
      /\ normal_mantissa m /\ -52 <= e <= 11.
Proof.
  intros n Hn. rewrite of_uint63_spec, Uint63.of_Z_spec.
  rewrite Z.mod_small by (change wB with (2 ^ 63); lia).
  destruct n as [|p|p]; try lia. simpl binary_normalize.
  pose proof (Zdigits2_le_63 p ltac:(lia)) as Hd.
  assert (Hd0 : 0 < Zdigits2 (Zpos p)) by (simpl; lia).
  destruct (binary_round_normal false p 0) as (m3 & e3 & H1 & H2 & H3);
    [unfold prec; lia|].
  exists m3, e3. unfold prec, emax in *.
  replace (e3 <=? 1024 - 53) with true in H1 by (symmetry; apply Z.leb_le; lia).
  split; [exact H1|]. split; [exact H2|lia].
Qed.

Lemma Zdigits2_le :
  forall p k, 0 <= k -> Zpos p < 2 ^ k -> Zdigits2 (Zpos p) <= k.
Proof.
  intros p k Hk H. pose proof (Zdigits2_bounds p) as Hb.
  destruct (Z_le_gt_dec (Zdigits2 (Zpos p)) k) as [Hle|Hgt]; [exact Hle|].
  assert (2 ^ k <= 2 ^ (Zdigits2 (Z.pos p) - 1)) by (apply Z.pow_le_mono_r; lia).
  lia.
Qed.

Lemma Zdigits2_ge :
  forall p k, 0 < k -> 2 ^ (k - 1) <= Zpos p -> k <= Zdigits2 (Zpos p).
Proof.
  intros p k Hk H. pose proof (Zdigits2_bounds p) as Hb.
  destruct (Z_le_gt_dec k (Zdigits2 (Zpos p))) as [Hle|Hgt]; [exact Hle|].
  assert (0 < Zdigits2 (Zpos p)) by (simpl; lia).
  assert (2 ^ Zdigits2 (Zpos p) <= 2 ^ (k - 1)) by (apply Z.pow_le_mono_r; lia).
  lia.
Qed.

Lemma shl_align_fst :
  forall mx ex ez, ez <= ex ->
    Zpos (fst (shl_align mx ex ez)) = Zpos mx * 2 ^ (ex - ez).
Proof.
  intros mx ex ez H. unfold shl_align.
  destruct (ez - ex) as [|k|k] eqn:Hk; try lia; simpl fst.
  - replace (ex - ez) with 0 by lia. simpl. lia.
  - rewrite iter_xO_pow. f_equal. f_equal. lia.
Qed.

Lemma binary_normalize_finite :
  forall z e k,
    -1000 <= e -> 0 <= k -> Z.abs z < 2 ^ k -> k + e <= 1000 ->
    finiteSF (binary_normalize prec emax z e false).
Proof.
  intros z e k He Hk Hz Hke.
  assert (Hgen : forall s p, Zpos p < 2 ^ k -> finiteSF (binary_round prec emax s p e)).
  { intros s p Hp. pose proof (Zdigits2_le p k Hk Hp) as Hd.
    assert (Hd0 : 0 < Zdigits2 (Zpos p)) by (simpl; lia).
    destruct (binary_round_normal s p e) as (m3 & e3 & H1 & H2 & H3);
      [unfold prec; lia|].
    rewrite H1. unfold prec, emax in *.
    replace (e3 <=? 1024 - 53) with true by (symmetry; apply Z.leb_le; lia).
    exact I. }
  destruct z as [|p|p]; simpl.
  - exact I.
  - apply Hgen. simpl in Hz. lia.
  - apply Hgen. simpl in Hz. lia.
Qed.

Lemma SFadd_finite :
  forall x y,
    finite_in (-1000) 900 x -> finite_in (-1000) 900 y ->
    finiteSF (SFadd prec emax x y).
Proof.
  intros [sx|sx| |sx mx ex] [sy|sy| |sy my ey] Hx Hy; simpl in Hx, Hy; try contradiction.
  - simpl. destruct sx, sy; exact I.
  - exact I.
  - exact I.
  - destruct Hx as (Hmx & Hex). destruct Hy as (Hmy & Hey).
    unfold SFadd.
    set (ez := Z.min ex ey).
    assert (Hax : Zpos (fst (shl_align mx ex ez)) = Zpos mx * 2 ^ (ex - ez))
      by (apply shl_align_fst; unfold ez; lia).
    assert (Hay : Zpos (fst (shl_align my ey ez)) = Zpos my * 2 ^ (ey - ez))
      by (apply shl_align_fst; unfold ez; lia).
    set (M := Z.max ex ey).
    assert (Hpx : 2 ^ (ex - ez) <= 2 ^ (M - ez))
      by (apply Z.pow_le_mono_r; unfold M, ez; lia).
    assert (Hpy : 2 ^ (ey - ez) <= 2 ^ (M - ez))
      by (apply Z.pow_le_mono_r; unfold M, ez; lia).
    assert (HM : 0 < 2 ^ (M - ez)) by (apply Z.pow_pos_nonneg; unfold M, ez; lia).
    assert (Hx0 : 0 < 2 ^ (ex - ez)) by (apply Z.pow_pos_nonneg; unfold ez; lia).
    assert (Hy0 : 0 < 2 ^ (ey - ez)) by (apply Z.pow_pos_nonneg; unfold ez; lia).
    assert (Hk : 2 ^ (54 + (M - ez)) = 2 * 2 ^ 53 * 2 ^ (M - ez)).
    { rewrite (Z.pow_add_r 2 54 (M - ez)) by (unfold M, ez; lia).
      change (2 ^ 54) with (2 * 2 ^ 53). ring. }
    apply (binary_normalize_finite _ ez (54 + (M - ez))).
    + unfold ez. lia.
    + unfold M, ez. lia.
    + rewrite Hk, Hax, Hay.
      assert (Zpos mx * 2 ^ (ex - ez) < 2 ^ 53 * 2 ^ (M - ez)).
      { apply Z.le_lt_trans with (Zpos mx * 2 ^ (M - ez)).
        - apply Z.mul_le_mono_nonneg_l; lia.
        - apply Z.mul_lt_mono_pos_r; lia. }
      assert (Zpos my * 2 ^ (ey - ez) < 2 ^ 53 * 2 ^ (M - ez)).
      { apply Z.le_lt_trans with (Zpos my * 2 ^ (M - ez)).
        - apply Z.mul_le_mono_nonneg_l; lia.
        - apply Z.mul_lt_mono_pos_r; lia. }
      assert (0 < Zpos mx * 2 ^ (ex - ez)) by (apply Z.mul_pos_pos; lia).
      assert (0 < Zpos my * 2 ^ (ey - ez)) by (apply Z.mul_pos_pos; lia).
      replace (2 * 2 ^ 53 * 2 ^ (M - ez)) with (2 * (2 ^ 53 * 2 ^ (M - ez))) by ring.
      generalize dependent (2 ^ 53 * 2 ^ (M - ez)).
      generalize dependent (Zpos mx * 2 ^ (ex - ez)).
      generalize dependent (Zpos my * 2 ^ (ey - ez)).
      intros; destruct sx, sy; simpl cond_Zopp; lia.
    + unfold M, ez. lia.
Qed.

Lemma div_eucl_pair : forall a b, Z.div_eucl a b = (a / b, a mod b).
Proof. intros a b. unfold Z.div, Z.modulo. destruct (Z.div_eucl a b); reflexivity. Qed.

Lemma normal_digits : forall m, normal_mantissa m -> Zdigits2 (Zpos m) = 53.
Proof. intros m H. apply Zdigits2_unique; [lia|exact H]. Qed.

Lemma SFdiv_normal :
  forall sx mx ex sy my ey,
    normal_mantissa mx -> normal_mantissa my ->
    -900 <= ex - ey <= 900 ->
    exists m3 e3,
      SFdiv prec emax (S754_finite sx mx ex) (S754_finite sy my ey)
      = S754_finite (xorb sx sy) m3 e3
      /\ normal_mantissa m3 /\ ex - ey - 53 <= e3 <= ex - ey - 51.
Proof.
  intros sx mx ex sy my ey Hx Hy He.
  pose proof (normal_digits mx Hx) as Hdx. pose proof (normal_digits my Hy) as Hdy.
  unfold normal_mantissa in *.
  assert (Hcore : SFdiv_core_binary prec emax (Zpos mx) ex (Zpos my) ey
                  = (Zpos mx * 2 ^ 53 / Zpos my, ex - ey - 53,
                     new_location (Zpos my) ((Zpos mx * 2 ^ 53) mod Zpos my))).
  { unfold SFdiv_core_binary. rewrite Hdx, Hdy.
    assert (He' : Z.min (fexp prec emax (53 + ex - (53 + ey))) (ex - ey) = ex - ey - 53)
      by (unfold fexp, SpecFloat.emin, prec, emax; lia).
    rewrite He'.
    replace (ex - ey - (ex - ey - 53)) with 53 by lia.
    cbv zeta iota beta. rewrite Z.shiftl_mul_pow2 by lia.
    rewrite div_eucl_pair. reflexivity. }
  unfold SFdiv. rewrite Hcore.
  set (q := Zpos mx * 2 ^ 53 / Zpos my).
  assert (Hq : 2 ^ 52 <= q < 2 ^ 54).
  { unfold q. split.
    - apply Z.div_le_lower_bound; [lia|]. nia.
    - apply Z.div_lt_upper_bound; [lia|].
      change (2 ^ 54) with (2 ^ 53 * 2). nia. }
  assert (Hq0 : 0 < q) by lia.
  destruct q as [|pq|pq] eqn:Eq; try lia.
  assert (Hdq : 53 <= Zdigits2 (Zpos pq) <= 54).
  { split; [apply Zdigits2_ge; simpl Z.sub; lia|apply Zdigits2_le; lia]. }
  destruct (binary_round_aux_normal (xorb sx sy) (Zpos pq) (ex - ey - 53)
              (new_location (Zpos my) ((Zpos mx * 2 ^ 53) mod Zpos my)))
    as (m3 & e3 & H1 & H2 & H3); try (unfold prec; lia).
  exists m3, e3. rewrite H1. unfold prec, emax in *.
  replace (e3 <=? 1024 - 53) with true by (symmetry; apply Z.leb_le; lia).
  split; [reflexivity|]. split; [exact H2|lia].
Qed.

Lemma normal_in_finite_in :
  forall lo hi x, normal_in lo hi x -> finite_in lo hi x.
Proof.
  intros lo hi [s|s| |s m e] H; simpl in *; try exact H.
  destruct H as ((_ & H1) & H2). split; assumption.
Qed.

Lemma finite_in_weaken :
  forall lo hi lo' hi' x, lo' <= lo -> hi <= hi' -> finite_in lo hi x -> finite_in lo' hi' x.
Proof.
  intros lo hi lo' hi' [s|s| |s m e] Hlo Hhi H; simpl in *; try exact H.
  destruct H as (H1 & H2). split; [exact H1|lia].
Qed.

Lemma float64_of_int_normal :
  forall n, time.int64_range n -> normal_in (-52) 11 (Prim2SF (time.float64_of_int n)).
Proof.
  intros n Hn. unfold time.float64_of_int, time.int64_range in *.
  destruct (n =? - 2 ^ 63) eqn:E1.
  - vm_compute. repeat split; discriminate.
  - apply Z.eqb_neq in E1. destruct (n <? 0) eqn:E2.
    + apply Z.ltb_lt in E2. rewrite opp_spec.
      destruct (of_uint63_pos (- n)) as (m & e & H1 & H2 & H3); [lia|].
      rewrite H1. simpl. split; assumption.
    + apply Z.ltb_ge in E2. destruct (Z.eq_dec n 0) as [->|Hne].
      * vm_compute. exact I.
      * destruct (of_uint63_pos n) as (m & e & H1 & H2 & H3); [lia|].
        rewrite H1. simpl. split; assumption.
Qed.

Lemma Seconds_finite :
  forall d, time.int64_range d -> finiteSF (Prim2SF (time.Seconds d)).
Proof.
  intros d Hd. unfold time.Seconds.
  assert (Hq : time.int64_range (Z.quot d time.Second) /\ time.int64_range (Z.rem d time.Second)).
  { pose proof (Z.quot_rem' d time.Second) as Hqr.
    pose proof (Z.rem_bound_abs d time.Second ltac:(unfold time.Second; lia)) as Hr.
    unfold time.Second, time.int64_range in *. split; lia. }
  destruct Hq as (Hsec & Hnsec).
  pose proof (float64_of_int_normal _ Hsec) as HA.
  pose proof (float64_of_int_normal _ Hnsec) as HB.
  rewrite add_spec, div_spec. unfold SF64add, SF64div.
  apply SFadd_finite.
  - apply normal_in_finite_in in HA. eapply finite_in_weaken; [| |exact HA]; lia.
  - change (Prim2SF 1e9) with (S754_finite false 8388608000000000 (-23)).
    destruct (Prim2SF (time.float64_of_int (Z.rem d time.Second))) as [s|s| |s m e];
      simpl in HB; try contradiction.
    + exact I.
    + destruct HB as (Hm & He).
      destruct (SFdiv_normal s m e false 8388608000000000 (-23)) as (m3 & e3 & H1 & H2 & H3);
        [exact Hm|unfold normal_mantissa; lia|lia|].
      rewrite H1. simpl. unfold normal_mantissa in H2. split; lia.
Qed.

Lemma SFltb_zero_pos :
  forall y, SFltb (S754_zero false) y = true -> posSF y.
Proof.
  intros [s|s| |s m e]; unfold SFltb; simpl; try discriminate;
    destruct s; simpl; try discriminate; intros _; exact I.
Qed.

Lemma SFcompare_Some :
  forall x y, x <> S754_nan -> y <> S754_nan -> exists c, SFcompare x y = Some c.
Proof.
  intros [sx|sx| |sx mx ex] [sy|sy| |sy my ey] Hx Hy; simpl; try congruence;
    eexists; reflexivity.
Qed.

Lemma not_SFltb_SFleb :
  forall x y, x <> S754_nan -> y <> S754_nan ->
    SFltb x y = false -> SFleb y x = true.
Proof.
  intros x y Hx Hy H. unfold SFltb, SFleb in *.
  rewrite (SFcompare_antisym x y).
  destruct (SFcompare_Some x y Hx Hy) as (c & Hc). rewrite Hc in *. simpl.
  destruct c; simpl; try reflexivity. discriminate.
Qed.

(** The quotient of a finite value by a positive one is a number. *)
Lemma SFdiv_not_nan :
  forall x y, finiteSF x -> posSF y -> SFdiv prec emax x y <> S754_nan.
Proof.
  intros [sx|sx| |sx mx ex] [sy|sy| |sy my ey] Hx Hy; simpl in Hx, Hy;
    try contradiction; try (destruct sy; try contradiction); simpl; try discriminate.
  unfold SFdiv_core_binary. cbv zeta. rewrite div_eucl_pair.
  match goal with
  | |- binary_round_aux _ _ ?s (?a / ?b) ?e ?l <> _ =>
      assert (Hq : 0 <= a / b)
  end.
  { apply Z.div_pos; [|lia].
    match goal with
    | |- 0 <= match ?s with _ => _ end =>
        destruct s; [lia|apply Z.shiftl_nonneg; lia|lia]
    end. }
  match goal with
  | |- binary_round_aux _ _ ?s ?q ?e ?l <> _ =>
      pose proof (binary_round_aux_signed s q e l Hq) as Hs;
      destruct (binary_round_aux prec emax s q e l); simpl in Hs;
      [discriminate|discriminate|contradiction|discriminate]
  end.
Qed.

Lemma canonical_digits :
  forall m e, bounded prec emax m e = true ->
    Zdigits2 (Zpos m) <= 53 /\ -1074 <= e
    /\ (Zdigits2 (Zpos m) = 53 \/ e = -1074).
Proof.
  intros m e H. unfold bounded, canonical_mantissa in H.
  apply andb_true_iff in H. destruct H as (H & _). apply Z.eqb_eq in H.
  change (Zpos (digits2_pos m)) with (Zdigits2 (Zpos m)) in H.
  unfold fexp, SpecFloat.emin, prec, emax in H. lia.
Qed.

Lemma ge_one64 :
  forall m3 e3,
    2 ^ 52 <= Zpos m3 -> -52 <= e3 ->
    SFltb one64 (S754_finite false m3 e3) = true
    \/ S754_finite false m3 e3 = one64.
Proof.
  intros m3 e3 Hm He. unfold SFltb, one64, SFcompare.
  destruct (Z.compare_spec (-52) e3) as [E|E|E]; [|left; reflexivity|lia].
  subst e3. fold (Pos.compare 4503599627370496 m3).
  destruct (Pos.compare_spec 4503599627370496 m3) as [E|E|E].
  - right. subst. reflexivity.
  - left. reflexivity.
  - exfalso. apply Pos2Z.pos_lt_pos in E.
      change (2 ^ 52) with (Zpos 4503599627370496) in Hm.
      apply (Z.lt_irrefl (Zpos m3)). eapply Z.lt_le_trans; eassumption.
Qed.

Lemma SFdiv_gt_ge_one :
  forall X Y,
    valid_binary X = true -> valid_binary Y = true ->
    posSF Y -> SFltb Y X = true ->
    SFltb one64 (SFdiv prec emax X Y) = true \/ SFdiv prec emax X Y = one64.
Proof.
  intros X Y HvX HvY HY Hlt.
  destruct Y as [sy|sy| |sy my ey]; simpl in HY; try contradiction;
    destruct sy; try contradiction.
  - (* Y = +inf *)
    exfalso. unfold SFltb in Hlt. destruct X as [sx|sx| |sx mx ex]; simpl in Hlt;
      try discriminate. destruct sx; discriminate.
  - destruct X as [sx|sx| |sx mx ex]; unfold SFltb in Hlt; simpl in Hlt;
      try discriminate.
    + (* X = inf *)
      destruct sx; [discriminate|]. left. reflexivity.
    + destruct sx; [discriminate|].
      simpl in HvX, HvY.
      destruct (canonical_digits _ _ HvX) as (Hdx & Hex & Hnx).
      destruct (canonical_digits _ _ HvY) as (Hdy & Hey & Hny).
      pose proof (Zdigits2_bounds mx) as Hbx. pose proof (Zdigits2_bounds my) as Hby.
      set (dx := Zdigits2 (Zpos mx)) in *. set (dy := Zdigits2 (Zpos my)) in *.
      assert (Hdx0 : 0 < dx) by (unfold dx; simpl; lia).
      assert (Hdy0 : 0 < dy) by (unfold dy; simpl; lia).
      assert (Hord : ey < ex \/ (ey = ex /\ Zpos my < Zpos mx)).
      { destruct (Z.compare_spec ey ex) as [E|E|E]; try discriminate.
        - right. split; [exact E|].
          fold (Pos.compare my mx) in Hlt.
          destruct (Pos.compare_spec my mx); try discriminate. lia.
        - left. exact E. }
      assert (Hexy : ey <= ex) by lia.
      assert (HK : dy + ey <= dx + ex).
      { destruct Hord as [H|(H1 & H2)]; [lia|].
        destruct (Z_le_gt_dec dy dx) as [Hle|Hgt]; [lia|].
        assert (2 ^ dx <= 2 ^ (dy - 1)) by (apply Z.pow_le_mono_r; lia). lia. }
      assert (HV : Zpos my <= Zpos mx * 2 ^ (ex - ey)).
      { destruct Hord as [H|(H1 & H2)].
        - assert (dx = 53) by lia.
          assert (2 ^ 1 <= 2 ^ (ex - ey)) by (apply Z.pow_le_mono_r; lia).
          assert (2 ^ dy <= 2 ^ 53) by (apply Z.pow_le_mono_r; lia).
          assert (2 ^ 52 <= Zpos mx) by (replace 52 with (dx - 1) by lia; lia).
          change (2 ^ 1) with 2 in *. change (2 ^ 53) with (2 ^ 52 * 2) in *. nia.
        - replace (ex - ey) with 0 by lia. simpl. lia. }
      set (k := dx + ex - (dy + ey)).
      assert (Hk : 0 <= k) by (unfold k; lia).
      assert (Hcore : exists e' s,
                 e' = Z.min (k - 53) (ex - ey) /\ s = ex - ey - e' /\ 0 <= s
                 /\ SFdiv_core_binary prec emax (Zpos mx) ex (Zpos my) ey
                    = (Zpos mx * 2 ^ s / Zpos my, e',
                       new_location (Zpos my) ((Zpos mx * 2 ^ s) mod Zpos my))).
      { exists (Z.min (k - 53) (ex - ey)), (ex - ey - Z.min (k - 53) (ex - ey)).
        split; [reflexivity|]. split; [reflexivity|]. split; [lia|].
        unfold SFdiv_core_binary. fold dx dy. fold k.
        assert (Hf : fexp prec emax k = k - 53)
          by (unfold fexp, SpecFloat.emin, prec, emax; lia).
        rewrite Hf. cbv zeta.
        assert (Hm' : match ex - ey - Z.min (k - 53) (ex - ey) with
                      | 0 => Zpos mx
                      | Zpos _ => Z.shiftl (Zpos mx) (ex - ey - Z.min (k - 53) (ex - ey))
                      | Zneg _ => 0
                      end = Zpos mx * 2 ^ (ex - ey - Z.min (k - 53) (ex - ey))).
        { destruct (ex - ey - Z.min (k - 53) (ex - ey)) as [|p|p] eqn:Es;
            [rewrite Z.pow_0_r, Z.mul_1_r; reflexivity
            |rewrite Z.shiftl_mul_pow2 by lia; reflexivity
            |lia]. }
        rewrite Hm', div_eucl_pair. reflexivity. }
      destruct Hcore as (e' & s & He' & Hs & Hs0 & Hcore).
      unfold SFdiv. rewrite Hcore. simpl xorb.
      set (q := Zpos mx * 2 ^ s / Zpos my).
      assert (Hq52 : 2 ^ 52 <= q).
      { unfold q. apply Z.div_le_lower_bound; [lia|].
        assert (E : 2 ^ (dx - 1 + s) = 2 ^ (dx - 1) * 2 ^ s)
          by (apply Z.pow_add_r; lia).
        assert (2 ^ (52 + dy) <= 2 ^ (dx - 1 + s)) by (apply Z.pow_le_mono_r; lia).
        assert (E2 : 2 ^ (52 + dy) = 2 ^ 52 * 2 ^ dy) by (apply Z.pow_add_r; lia).
        assert (0 < 2 ^ s) by (apply Z.pow_pos_nonneg; lia).
        assert (2 ^ (dx - 1) * 2 ^ s <= Zpos mx * 2 ^ s)
          by (apply Z.mul_le_mono_nonneg_r; lia).
        assert (Zpos my * 2 ^ 52 <= 2 ^ dy * 2 ^ 52)
          by (apply Z.mul_le_mono_nonneg_r; lia).
        lia. }
      assert (Hq1 : e' <= 0 -> 2 ^ (- e') <= q).
      { intros Hle. unfold q. apply Z.div_le_lower_bound; [lia|].
        assert (E : 2 ^ s = 2 ^ (ex - ey) * 2 ^ (- e'))
          by (rewrite <- Z.pow_add_r by lia; f_equal; lia).
        rewrite E.
        assert (0 < 2 ^ (- e')) by (apply Z.pow_pos_nonneg; lia).
        rewrite Z.mul_assoc.
        apply Z.mul_le_mono_nonneg_r; lia. }
      destruct q as [|pq|pq] eqn:Eq; try lia.
      assert (Hdq : 53 <= Zdigits2 (Zpos pq))
        by (apply Zdigits2_ge; [lia|exact Hq52]).
      assert (Hdq1 : 1 <= Zdigits2 (Zpos pq) + e').
      { destruct (Z_le_gt_dec e' 0) as [Hle|Hgt]; [|lia].
        assert (- e' + 1 <= Zdigits2 (Zpos pq)).
        { apply Zdigits2_ge; [lia|].
          replace (- e' + 1 - 1) with (- e') by lia. apply Hq1. exact Hle. }
        lia. }
      destruct (binary_round_aux_normal false (Zpos pq) e'
                  (new_location (Zpos my) ((Zpos mx * 2 ^ s) mod Zpos my)))
        as (m3 & e3 & H1 & H2 & H3); try (unfold prec; lia).
      rewrite H1. unfold prec in *.
      destruct (e3 <=? emax - 53).
      * apply ge_one64; lia.
      * left. reflexivity.
Qed.

(* ----------------------------------------------------------------- *)
(** ** Progress *)

Lemma Prim2SF_0 : Prim2SF 0 = S754_zero false.
Proof. reflexivity. Qed.

Lemma Prim2SF_1 : Prim2SF 1 = one64.
Proof. reflexivity. Qed.

Lemma wrap64_range : forall z, time.int64_range (time.wrap64 z).
Proof.
  intros z. unfold time.int64_range, time.wrap64.
  pose proof (Z.mod_pos_bound (z + 2 ^ 63) (2 ^ 64) ltac:(lia)). lia.
Qed.

(** The position is always a finite number. *)
Lemma GetPosition_finite :
  forall now ap,
    time.int64_range (pausedTime ap) ->
    finiteSF (Prim2SF (GetPosition now ap)).
Proof.
  intros now ap Hwf. unfold GetPosition.
  destruct (negb (isPlaying ap) && negb (isPaused ap)).
  - rewrite Prim2SF_0. exact I.
  - destruct (isPaused ap).
    + apply Seconds_finite. exact Hwf.
    + apply Seconds_finite. apply wrap64_range.
Qed.

Lemma SFleb_nan_l : forall y, SFleb S754_nan y = false.
Proof. reflexivity. Qed.

Lemma SFleb_not_nan :
  forall x y, SFleb x y = true -> x <> S754_nan /\ y <> S754_nan.
Proof.
  intros x y H. split; intros ->; unfold SFleb in H; simpl in H.
  - discriminate.
  - destruct x; discriminate.
Qed.

Lemma pos_not_le_zero :
  forall d, posSF d -> SFleb d (S754_zero false) = false.
Proof.
  intros [s|s| |s m e] H; simpl in H; try contradiction; destruct s;
    try contradiction; reflexivity.
Qed.

Lemma gt_one_not_neg :
  forall q, SFltb one64 q = true -> SFltb q (S754_zero false) = false.
Proof.
  intros [s|s| |s m e]; unfold SFltb, one64, SFcompare; try discriminate;
    destruct s; try discriminate; reflexivity.
Qed.

(** The two tests of [GetProgress] on a quotient that is a number. *)
Lemma clamp_in_range :
  forall q : float,
    Prim2SF q <> S754_nan ->
    let r1 := if (1 <? q)%float then 1%float else q in
    let r := if (r1 <? 0)%float then 0%float else r1 in
    r = clamp01 q /\ (0 <=? r)%float = true /\ (r <=? 1)%float = true.
Proof.
  intros q Hq. cbv zeta. unfold clamp01.
  destruct (1 <? q)%float eqn:H1.
  - assert (Hn : (q <? 0)%float = false).
    { rewrite ltb_spec, Prim2SF_0. apply gt_one_not_neg.
      rewrite <- Prim2SF_1, <- ltb_spec. exact H1. }
    rewrite Hn. change (1 <? 0)%float with false. cbv iota.
    repeat split; reflexivity.
  - destruct (q <? 0)%float eqn:H0.
    + repeat split; reflexivity.
    + split; [reflexivity|]. split.
      * rewrite leb_spec, Prim2SF_0. apply not_SFltb_SFleb; [exact Hq|discriminate|].
        rewrite <- Prim2SF_0, <- ltb_spec. exact H0.
      * rewrite leb_spec, Prim2SF_1. apply not_SFltb_SFleb; [discriminate|exact Hq|].
        rewrite <- Prim2SF_1, <- ltb_spec. exact H1.
Qed.

Lemma GetProgress_unfold :
  forall now ap,
    GetProgress now ap
    = if (duration ap <=? 0)%float then 0%float
      else
        let q := (GetPosition now ap / duration ap)%float in
        let r1 := if (1 <? q)%float then 1%float else q in
        if (r1 <? 0)%float then 0%float else r1.
Proof. reflexivity. Qed.

Lemma positive_duration :
  forall d : float,
    (0 <? d)%float = true -> posSF (Prim2SF d) /\ (d <=? 0)%float = false.
Proof.
  intros d H. rewrite ltb_spec, Prim2SF_0 in H. apply SFltb_zero_pos in H.
  split; [exact H|]. rewrite leb_spec, Prim2SF_0. apply pos_not_le_zero. exact H.
Qed.

Lemma quotient_is_number :
  forall now ap,
    time.int64_range (pausedTime ap) ->
    (0 <? duration ap)%float = true ->
    Prim2SF (GetPosition now ap / duration ap) <> S754_nan.
Proof.
  intros now ap Hwf Hd. rewrite div_spec. apply SFdiv_not_nan.
  - apply GetPosition_finite. exact Hwf.
  - apply positive_duration. exact Hd.
Qed.

Lemma unit_interval_finite :
  forall x,
    SFleb (S754_zero false) x = true -> SFleb x one64 = true -> finiteSF x.
Proof.
  intros [s|s| |s m e] H0 H1; try exact I.
  - destruct s; [discriminate H0|discriminate H1].
  - discriminate H0.
Qed.

(** C3. The durations the program sets are numbers: 0 for a stream of
    unknown length, a length computed from the file and stored only when
    it is above 0, or a number read from the library file.  For every
    player state with such a duration: if the duration is at most 0 the
    progress is 0, whatever the position; otherwise it is the position
    over the duration clamped into [0, 1], and is exactly 1 when the
    position exceeds the duration.  In every case the progress lies
    between 0 and 1, so it is neither NaN nor an infinity. *)
Theorem GetProgress_clamped :
  forall (now : Z) (ap : AudioPlayer),
    time.int64_range (pausedTime ap) ->
    is_nan (GetDuration ap) = false ->
    ((GetDuration ap <=? 0)%float = true -> GetProgress now ap = 0%float)
    /\ ((GetDuration ap <=? 0)%float = false ->
        GetProgress now ap = clamp01 (GetPosition now ap / GetDuration ap))
    /\ ((GetDuration ap <=? 0)%float = false ->
        (GetDuration ap <? GetPosition now ap)%float = true ->
        GetProgress now ap = 1%float)
    /\ (0 <=? GetProgress now ap)%float = true
    /\ (GetProgress now ap <=? 1)%float = true
    /\ is_nan (GetProgress now ap) = false
    /\ finite64 (GetProgress now ap).
Proof.
  intros now ap Hwf Hn. unfold GetDuration in *.
  assert (Hle : (duration ap <=? 0)%float = true -> GetProgress now ap = 0%float).
  { intros H. rewrite GetProgress_unfold, H. reflexivity. }
  assert (Hpos : (0 <? duration ap)%float = true ->
                 GetProgress now ap = clamp01 (GetPosition now ap / duration ap)
                 /\ (0 <=? GetProgress now ap)%float = true
                 /\ (GetProgress now ap <=? 1)%float = true).
  { intros H. destruct (positive_duration _ H) as (_ & Hnle).
    rewrite GetProgress_unfold, Hnle. cbv zeta.
    apply clamp_in_range. apply quotient_is_number; assumption. }
  assert (Htot : (duration ap <=? 0)%float = true \/ (0 <? duration ap)%float = true).
  { rewrite leb_spec, ltb_spec, Prim2SF_0.
    assert (Hd : Prim2SF (duration ap) <> S754_nan).
    { intros E. apply is_nan_spec in E. congruence. }
    destruct (SFltb (S754_zero false) (Prim2SF (duration ap))) eqn:E.
    - right. reflexivity.
    - left. apply not_SFltb_SFleb; [discriminate|exact Hd|exact E]. }
  assert (Hgt0 : (duration ap <=? 0)%float = false -> (0 <? duration ap)%float = true).
  { intros Hnle. destruct Htot as [H|H]; [congruence|exact H]. }
  assert (Hin : (0 <=? GetProgress now ap)%float = true
                /\ (GetProgress now ap <=? 1)%float = true).
  { destruct Htot as [H|H].
    - rewrite (Hle H). split; reflexivity.
    - destruct (Hpos H) as (_ & H0 & H1). split; assumption. }
  destruct Hin as (H0 & H1).
  assert (Hfin : finite64 (GetProgress now ap)).
  { unfold finite64. apply unit_interval_finite.
    - rewrite leb_spec, Prim2SF_0 in H0. exact H0.
    - rewrite leb_spec, Prim2SF_1 in H1. exact H1. }
  split; [exact Hle|]. split; [intros Hnle; exact (proj1 (Hpos (Hgt0 Hnle)))|].
  split; [|split; [exact H0|split; [exact H1|split; [|exact Hfin]]]].
  - intros Hnle Hgt. pose proof (Hgt0 Hnle) as Hd.
    destruct (positive_duration _ Hd) as (Hp & _).
    rewrite GetProgress_unfold, Hnle. cbv zeta.
    assert (Hq : (1 <? GetPosition now ap / duration ap)%float = true
                 \/ (GetPosition now ap / duration ap)%float = 1%float).
    { rewrite ltb_spec in Hgt.
      destruct (SFdiv_gt_ge_one (Prim2SF (GetPosition now ap)) (Prim2SF (duration ap)))
        as [H|H]; try apply Prim2SF_valid; try assumption.
      - left. rewrite ltb_spec, Prim2SF_1, div_spec. exact H.
      - right. apply Prim2SF_inj. rewrite div_spec, Prim2SF_1. exact H. }
    destruct Hq as [H|H]; rewrite H; reflexivity.
  - destruct (is_nan (GetProgress now ap)) eqn:E; [|reflexivity].
    apply is_nan_spec in E. unfold finite64 in Hfin. rewrite E in Hfin. contradiction.
Qed.

Lemma GetProgress_clamped_witness :
  time.int64_range (pausedTime (SetDuration 2 exampleSession))
  /\ is_nan (GetDuration (SetDuration 2 exampleSession)) = false
  /\ GetProgress 3000000003 (SetDuration 2 exampleSession) = 1%float
  /\ GetProgress 1000000003 (SetDuration 2 exampleSession) = 0.5%float
  /\ GetProgress 1000000003 (SetDuration 0 exampleSession) = 0%float
  /\ finite64 (GetProgress 3000000003 (SetDuration 2 exampleSession)).
Proof.
  assert (Hwf : time.int64_range (pausedTime (SetDuration 2 exampleSession)))
    by (vm_compute; split; discriminate).
  assert (Hn : is_nan (GetDuration (SetDuration 2 exampleSession)) = false)
    by reflexivity.
  split; [exact Hwf|]. split; [exact Hn|].
  destruct (GetProgress_clamped 3000000003 (SetDuration 2 exampleSession) Hwf Hn)
    as (_ & _ & Hone & _ & _ & _ & Hfin).
  split; [apply Hone; reflexivity|].
  split; [reflexivity|]. split; [reflexivity|exact Hfin].
Defined.

(* ----------------------------------------------------------------- *)
(** ** Signs of sums, quotients and square roots *)

Lemma signed_false_nonneg : forall x, signed false x -> nonnegSF x.
Proof. intros [s|s| |s m e] H; simpl in *; subst; try exact I; contradiction. Qed.

Lemma signed_not_nan : forall s x, signed s x -> x <> S754_nan.
Proof. intros s x H ->. exact H. Qed.

Lemma binary_round_signed :
  forall s p e, signed s (binary_round prec emax s p e).
Proof.
  intros s p e. unfold binary_round.
  destruct (shl_align p e (fexp prec emax (Zpos (digits2_pos p) + e))) as [mz ez].
  apply binary_round_aux_signed. lia.
Qed.

Lemma binary_normalize_not_nan :
  forall z e, binary_normalize prec emax z e false <> S754_nan.
Proof.
  intros [|p|p] e; simpl; try discriminate;
    eapply signed_not_nan; apply binary_round_signed.
Qed.

Lemma SFmul_self_nonneg :
  forall x, x <> S754_nan -> nonnegSF (SFmul prec emax x x).
Proof.
  intros [s|s| |s m e] H; simpl; try congruence.
  - exact I.
  - destruct s; exact I.
  - apply signed_false_nonneg. rewrite xorb_nilpotent.
    apply binary_round_aux_signed. lia.
Qed.

Lemma SFadd_nonneg :
  forall x y, nonnegSF x -> nonnegSF y -> nonnegSF (SFadd prec emax x y).
Proof.
  intros [sx|sx| |sx mx ex] [sy|sy| |sy my ey] Hx Hy; simpl in Hx, Hy;
    try contradiction;
    try (destruct sx; try contradiction); try (destruct sy; try contradiction);
    try exact I.
  unfold SFadd. simpl cond_Zopp.
  apply signed_false_nonneg. simpl. apply binary_round_signed.
Qed.

Lemma SFdiv_nonneg :
  forall x my ey,
    nonnegSF x -> nonnegSF (SFdiv prec emax x (S754_finite false my ey)).
Proof.
  intros [sx|sx| |sx mx ex] my ey Hx; simpl in Hx; try contradiction;
    try (destruct sx; try contradiction); try exact I.
  unfold SFdiv, SFdiv_core_binary. cbv zeta. rewrite div_eucl_pair.
  apply signed_false_nonneg. apply binary_round_aux_signed.
  apply Z.div_pos; [|lia].
  match goal with
  | |- 0 <= match ?s with _ => _ end =>
      destruct s; [lia|apply Z.shiftl_nonneg; lia|lia]
  end.
Qed.

Lemma SFdiv_by_finite_not_nan :
  forall x sy my ey,
    x <> S754_nan -> SFdiv prec emax x (S754_finite sy my ey) <> S754_nan.
Proof.
  intros [sx|sx| |sx mx ex] sy my ey Hx; try congruence; simpl; try discriminate.
  unfold SFdiv_core_binary. cbv zeta. rewrite div_eucl_pair.
  eapply signed_not_nan. apply binary_round_aux_signed.
  apply Z.div_pos; [|lia].
  match goal with
  | |- 0 <= match ?s with _ => _ end =>
      destruct s; [lia|apply Z.shiftl_nonneg; lia|lia]
  end.
Qed.

Lemma SFadd_finite_not_nan :
  forall x y, finiteSF x -> finiteSF y -> SFadd prec emax x y <> S754_nan.
Proof.
  intros [sx|sx| |sx mx ex] [sy|sy| |sy my ey] Hx Hy; simpl in Hx, Hy;
    try contradiction; try discriminate.
  - simpl. destruct sx, sy; discriminate.
  - unfold SFadd. apply binary_normalize_not_nan.
Qed.

Lemma SFsqrt_signed :
  forall x, SFsqrt prec emax x = S754_nan \/ nonnegSF (SFsqrt prec emax x).
Proof.
  intros [s|s| |s m e]; simpl.
  - right. exact I.
  - destruct s; [left|right]; reflexivity || exact I.
  - left. reflexivity.
  - destruct s; [left; reflexivity|]. right.
    unfold SFsqrt_core_binary. cbv zeta.
    match goal with
    | |- context [Z.sqrtrem ?a] =>
        pose proof (Z.sqrtrem_sqrt a) as Hs; pose proof (Z.sqrt_nonneg a) as Hn;
        destruct (Z.sqrtrem a) as [q r]; simpl in Hs; subst q
    end.
    apply signed_false_nonneg. apply binary_round_aux_signed. exact Hn.
Qed.

Lemma SFsqrt_nonneg :
  forall x, nonnegSF x -> nonnegSF (SFsqrt prec emax x).
Proof.
  intros x Hx. destruct (SFsqrt_signed x) as [H|H]; [|exact H].
  destruct x as [s|s| |s m e]; simpl in Hx; try contradiction;
    try (destruct s; try contradiction); simpl in H; try discriminate.
  exfalso. revert H. unfold SFsqrt_core_binary. cbv zeta.
  match goal with
  | |- context [Z.sqrtrem ?a] =>
      pose proof (Z.sqrtrem_sqrt a) as Hs; pose proof (Z.sqrt_nonneg a) as Hn;
      destruct (Z.sqrtrem a) as [q r]; simpl in Hs; subst q
  end.
  eapply signed_not_nan. apply binary_round_aux_signed. exact Hn.
Qed.

Lemma nonneg_leb : forall x, nonnegSF x -> SFleb (S754_zero false) x = true.
Proof.
  intros [s|s| |s m e] H; simpl in H; try contradiction;
    try (destruct s; try contradiction); reflexivity.
Qed.

Lemma nonneg_not_ltb : forall x, nonnegSF x -> SFltb x (S754_zero false) = false.
Proof.
  intros [s|s| |s m e] H; simpl in H; try contradiction;
    try (destruct s; try contradiction); reflexivity.
Qed.

Lemma Prim2SF_2 : Prim2SF 2 = S754_finite false 4503599627370496 (-51).
Proof. reflexivity. Qed.

Lemma not_nan_is_nan : forall x, Prim2SF x <> S754_nan <-> is_nan x = false.
Proof.
  intros x. split.
  - intros H. destruct (is_nan x) eqn:E; [|reflexivity].
    apply is_nan_spec in E. contradiction.
  - intros H E. apply is_nan_spec in E. congruence.
Qed.

(** Mixing a finite frame to mono gives a number. *)
Lemma mix_not_nan :
  forall l r, finite64 l -> finite64 r -> is_nan ((l + r) / 2) = false.
Proof.
  intros l r Hl Hr. apply not_nan_is_nan.
  rewrite div_spec, add_spec, Prim2SF_2.
  apply SFdiv_by_finite_not_nan. apply SFadd_finite_not_nan; assumption.
Qed.

Lemma sumSquares_nonneg :
  forall l acc,
    nonnegSF (Prim2SF acc) ->
    Forall (fun x => is_nan x = false) l ->
    nonnegSF (Prim2SF (fold_left (fun sum x => (sum + x * x)%float) l acc)).
Proof.
  induction l as [|x l IH]; intros acc Hacc Hl; simpl.
  - exact Hacc.
  - inversion Hl; subst. apply IH; [|assumption].
    rewrite add_spec, mul_spec. apply SFadd_nonneg; [exact Hacc|].
    apply SFmul_self_nonneg. now apply not_nan_is_nan.
Qed.

Lemma float64_of_int_pos :
  forall n, 0 < n < 2 ^ 63 ->
    exists m e, Prim2SF (time.float64_of_int n) = S754_finite false m e.
Proof.
  intros n Hn. unfold time.float64_of_int.
  replace (n =? - 2 ^ 63) with false by (symmetry; apply Z.eqb_neq; lia).
  replace (n <? 0) with false by (symmetry; apply Z.ltb_ge; lia).
  destruct (of_uint63_pos n Hn) as (m & e & H & _). now exists m, e.
Qed.

Lemma Forall_firstn' :
  forall (A : Type) (P : A -> Prop) n l, Forall P l -> Forall P (firstn n l).
Proof.
  intros A P n. induction n as [|n IH]; intros l H; simpl; [constructor|].
  destruct l as [|x l]; [constructor|]. inversion H; subst.
  constructor; [assumption|apply IH; assumption].
Qed.

Lemma Forall_skipn' :
  forall (A : Type) (P : A -> Prop) n l, Forall P l -> Forall P (skipn n l).
Proof.
  intros A P n. induction n as [|n IH]; intros l H; simpl; [exact H|].
  destruct l as [|x l]; [constructor|]. inversion H; subst. apply IH; assumption.
Qed.

(** The RMS of a band is never negative. *)
Lemma bandRMS_not_negative :
  forall buf bandSize band, (bandRMS buf bandSize band <? 0)%float = false.
Proof.
  intros buf bandSize band. unfold bandRMS. rewrite ltb_spec, sqrt_spec, Prim2SF_0.
  match goal with |- SFltb (SF64sqrt ?x) _ = false => destruct (SFsqrt_signed x) as [H|H] end.
  - unfold SF64sqrt. rewrite H. reflexivity.
  - apply nonneg_not_ltb. exact H.
Qed.

(** The RMS of a band of numbers, over a positive count, is at least 0. *)
Lemma bandRMS_nonneg :
  forall buf bandSize band,
    Forall (fun x => is_nan x = false) buf ->
    (0 < Nat.min (band * bandSize + bandSize) (List.length buf) - band * bandSize)%nat ->
    Z.of_nat (List.length buf) < 2 ^ 63 ->
    (0 <=? bandRMS buf bandSize band)%float = true.
Proof.
  intros buf bandSize band Hbuf Hcount Hlen. unfold bandRMS.
  set (startIdx := (band * bandSize)%nat) in *.
  set (endIdx := Nat.min (startIdx + bandSize) (List.length buf)) in *.
  rewrite leb_spec, Prim2SF_0, sqrt_spec, div_spec.
  apply nonneg_leb. apply SFsqrt_nonneg.
  destruct (float64_of_int_pos (Z.of_nat (endIdx - startIdx))) as (m & e & Hc).
  { unfold endIdx in *. lia. }
  rewrite Hc. apply SFdiv_nonneg. apply sumSquares_nonneg.
  - rewrite Prim2SF_0. exact I.
  - apply Forall_firstn'. apply Forall_skipn'. exact Hbuf.
Qed.

(* ----------------------------------------------------------------- *)
(** ** The sample tap *)

(** Within the frames the source streamed, the capture loop never runs
    off the buffer. *)
Lemma mixFrames_Some :
  forall n samples,
    (n <= List.length samples)%nat ->
    exists mixed,
      mixFrames samples n = Some mixed /\ List.length mixed = n
      /\ forall (P : Sample -> Prop) (Q : float -> Prop),
           (forall l r, P (l, r) -> Q ((l + r) / 2)%float) ->
           Forall P (firstn n samples) -> Forall Q mixed.
Proof.
  induction n as [|n IH]; intros samples Hn.
  - exists []. split; [reflexivity|]. split; [reflexivity|]. intros; constructor.
  - destruct samples as [|[l r] rest]; simpl in Hn; [lia|].
    destruct (IH rest ltac:(lia)) as (mixed & Hm & Hl & HP).
    exists (((l + r) / 2)%float :: mixed). simpl. rewrite Hm. simpl.
    split; [reflexivity|]. split; [now rewrite Hl|].
    intros P Q HPQ HF. inversion HF; subst.
    constructor; [now apply HPQ|]. eapply HP; eassumption.
Qed.

Lemma Stream_contract :
  forall (S : Type) (inst : beep_Streamer S) (src : S) samples out n ok src',
    Stream src samples = (out, n, ok, src') ->
    List.length out = List.length samples /\ n <= Z.of_nat (List.length samples).
Proof.
  intros S inst src samples out n ok src' E.
  pose proof (Stream_in_place src samples) as H1.
  pose proof (Stream_at_most src samples) as H2.
  rewrite E in H1, H2. simpl in H1, H2. split; assumption.
Qed.

(** One pull through the tap, case by case. *)
Lemma Stream_cases :
  forall (S : Type) (inst : beep_Streamer S) (s : SampleCaptureStreamer S)
         (ap : option AudioPlayer) (h : Heap) (samples : list Sample)
         out n ok src',
    Stream (streamer s) samples = (out, n, ok, src') ->
    (ok && (0 <? n) = false
     /\ SampleCaptureStreamer_Stream s ap h samples
        = Some {| out_samples := out; out_n := n; out_ok := ok;
                  out_tap := {| streamer := src'; sampleBuffer := sampleBuffer s;
                                bufferSize := bufferSize s |};
                  out_player := ap; out_heap := h |})
    \/ (exists mixed,
           ok && (0 <? n) = true
           /\ mixFrames out (Z.to_nat n) = Some mixed
           /\ List.length mixed = Z.to_nat n
           /\ (forall (P : Sample -> Prop) (Q : float -> Prop),
                  (forall l r, P (l, r) -> Q ((l + r) / 2)%float) ->
                  Forall P (firstn (Z.to_nat n) out) -> Forall Q mixed)
           /\ SampleCaptureStreamer_Stream s ap h samples
              = Some (if bufferSize s <=? Z.of_nat (List.length (sampleBuffer s ++ mixed))
                      then
                        {| out_samples := out; out_n := n; out_ok := ok;
                           out_tap := {| streamer := src'; sampleBuffer := [];
                                         bufferSize := bufferSize s |};
                           out_player := fst (analyzeAndStore (sampleBuffer s ++ mixed) ap h);
                           out_heap := snd (analyzeAndStore (sampleBuffer s ++ mixed) ap h) |}
                      else
                        {| out_samples := out; out_n := n; out_ok := ok;
                           out_tap := {| streamer := src';
                                         sampleBuffer := sampleBuffer s ++ mixed;
                                         bufferSize := bufferSize s |};
                           out_player := ap; out_heap := h |})).
Proof.
  intros S inst s ap h samples out n ok src' E.
  destruct (Stream_contract _ _ _ _ _ _ _ _ E) as (Hlen & Hn).
  unfold SampleCaptureStreamer_Stream. rewrite E.
  destruct (ok && (0 <? n)) eqn:Hg.
  - right. destruct (mixFrames_Some (Z.to_nat n) out ltac:(lia)) as (mixed & Hm & Hl & HPQ).
    exists mixed. rewrite Hm. repeat split; try assumption.
    destruct (bufferSize s <=? Z.of_nat (List.length (sampleBuffer s ++ mixed))).
    + destruct (analyzeAndStore (sampleBuffer s ++ mixed) ap h); reflexivity.
    + reflexivity.
  - left. split; reflexivity.
Qed.

Lemma Stream_passes_through :
  forall (S : Type) (inst : beep_Streamer S) (s : SampleCaptureStreamer S)
         (ap : option AudioPlayer) (h : Heap) (samples : list Sample),
    exists p,
      SampleCaptureStreamer_Stream s ap h samples = Some p
      /\ (out_samples p, out_n p, out_ok p, streamer (out_tap p))
         = Stream (streamer s) samples.
Proof.
  intros S inst s ap h samples.
  destruct (Stream (streamer s) samples) as [[[out n] ok] src'] eqn:E.
  destruct (Stream_cases S inst s ap h samples out n ok src' E)
    as [(_ & H)|(mixed & _ & _ & _ & _ & H)]; rewrite H.
  - eexists. split; reflexivity.
  - eexists. split; [reflexivity|].
    destruct (bufferSize s <=? Z.of_nat (List.length (sampleBuffer s ++ mixed)));
      reflexivity.
Qed.

Lemma pullTap_pullSource :
  forall (S : Type) (inst : beep_Streamer S) (bufs : list (list Sample))
         (s : SampleCaptureStreamer S) (ap : option AudioPlayer) (h : Heap),
    pullTap s ap h bufs = Some (pullSource (streamer s) bufs).
Proof.
  intros S inst bufs. induction bufs as [|b rest IH]; intros s ap h; simpl.
  - reflexivity.
  - destruct (Stream_passes_through S inst s ap h b) as (p & Hp & Hout).
    rewrite Hp. destruct (Stream (streamer s) b) as [[[out n] ok] src'].
    inversion Hout; subst. rewrite IH. reflexivity.
Qed.

Lemma analyzeAndStore_publishes :
  forall buf pl h,
    (24 <= List.length buf)%nat ->
    analyzeAndStore buf (Some pl) h
    = (Some (set_audioSamples (Some (List.length h)) pl),
       h ++ [map (bandRMS buf (List.length buf / numBands)) (seq 0 numBands)]).
Proof.
  intros buf pl h Hlen. unfold analyzeAndStore.
  assert (Hb : (1 <= List.length buf / numBands)%nat).
  { unfold numBands. apply Nat.div_le_lower_bound; lia. }
  destruct (List.length buf / numBands =? 0)%nat eqn:E.
  - apply Nat.eqb_eq in E. lia.
  - reflexivity.
Qed.

(** C9. A pull through the tap never fails and returns exactly what the
    wrapped source returned for it: the same buffer contents, count and
    [ok] flag, the source advanced in the same way; so any run of pulls
    gives the same output with or without the tap.  [Err] is the error of
    the wrapped source.  When a successful pull fills the window of 1024
    samples, a snapshot of 24 amplitudes is published in a new slice and
    the window is emptied, the output of the pull being the same. *)
Theorem tap_is_transparent :
  forall (S : Type) (inst : beep_Streamer S) (s : SampleCaptureStreamer S)
         (ap : option AudioPlayer) (h : Heap) (samples : list Sample),
    exists p : Pulled S,
      SampleCaptureStreamer_Stream s ap h samples = Some p
      /\ (out_samples p, out_n p, out_ok p, streamer (out_tap p))
         = Stream (streamer s) samples
      /\ SampleCaptureStreamer_Err s = Err (streamer s)
      /\ (forall bufs, pullTap s ap h bufs = Some (pullSource (streamer s) bufs))
      /\ (forall pl,
             ap = Some pl -> bufferSize s = 1024 ->
             out_ok p = true -> 0 < out_n p ->
             1024 <= Z.of_nat (List.length (sampleBuffer s)) + out_n p ->
             exists amplitudes,
               out_player p = Some (set_audioSamples (Some (List.length h)) pl)
               /\ out_heap p = h ++ [amplitudes]
               /\ List.length amplitudes = 24%nat
               /\ sampleBuffer (out_tap p) = []).
Proof.
  intros S inst s ap h samples.
  destruct (Stream_passes_through S inst s ap h samples) as (p & Hp & Hout).
  exists p. split; [exact Hp|]. split; [exact Hout|]. split; [reflexivity|].
  split; [intros bufs; apply pullTap_pullSource|].
  intros pl Hap Hsize Hok Hn Hfull.
  destruct (Stream (streamer s) samples) as [[[out n] ok] src'] eqn:E.
  inversion Hout; subst out n ok src'.
  destruct (Stream_cases S inst s (Some pl) h samples _ _ _ _ E)
    as [(Hg & _)|(mixed & Hg & Hm & Hl & _ & H)].
  - rewrite Hok in Hg. simpl in Hg. apply Z.ltb_ge in Hg. lia.
  - rewrite Hap, H in Hp. clear H.
    assert (Hlen : 1024 <= Z.of_nat (List.length (sampleBuffer s ++ mixed))).
    { rewrite length_app, Hl. lia. }
    rewrite Hsize in Hp.
    replace (1024 <=? Z.of_nat (List.length (sampleBuffer s ++ mixed))) with true in Hp
      by (symmetry; apply Z.leb_le; exact Hlen).
    rewrite analyzeAndStore_publishes in Hp by lia.
    injection Hp as <-. simpl.
    eexists. split; [reflexivity|]. split; [reflexivity|].
    split; reflexivity.
Qed.

(** A source of fixed amplitude 0.5, pulled once for 1024 frames: the
    caller gets the frames of the source, and the snapshot published is
    24 times 0.5. *)
Example tap_fixed_amplitude :
  match SampleCaptureStreamer_Stream (NewSampleCaptureStreamer 0.5%float)
          (Some exampleSession) [] (repeat (0%float, 0%float) 1024) with
  | Some p =>
      out_samples p = repeat (0.5%float, 0.5%float) 1024
      /\ out_n p = 1024 /\ out_ok p = true
      /\ contents (GetAudioSamples (match out_player p with
                                    | Some pl => pl
                                    | None => NewAudioPlayer
                                    end) (out_heap p))
         = repeat 0.5%float 24
  | None => False
  end.
Proof. vm_compute. repeat split; reflexivity. Qed.

(** The tap at work on a source of amplitude 0.5, pulled for 1024 frames
    in a session: the frames of the source come through, and the pull
    publishes a snapshot in a new slice. *)
Lemma tap_is_transparent_witness :
  exists p : Pulled float,
    SampleCaptureStreamer_Stream (NewSampleCaptureStreamer 0.5%float)
      (Some exampleSession) [] (repeat (0%float, 0%float) 1024) = Some p
    /\ out_samples p = repeat (0.5%float, 0.5%float) 1024
    /\ out_n p = 1024 /\ out_ok p = true
    /\ exists amplitudes,
         out_player p = Some (set_audioSamples (Some 0%nat) exampleSession)
         /\ out_heap p = [amplitudes]
         /\ List.length amplitudes = 24%nat
         /\ sampleBuffer (out_tap p) = [].
Proof.
  destruct (tap_is_transparent float constantSource (NewSampleCaptureStreamer 0.5%float)
              (Some exampleSession) [] (repeat (0%float, 0%float) 1024))
    as (p & Hp & Hout & _ & _ & Hpub).
  assert (E : Stream (streamer (NewSampleCaptureStreamer 0.5%float))
                     (repeat (0%float, 0%float) 1024)
              = (repeat (0.5%float, 0.5%float) 1024, 1024, true, 0.5%float))
    by (vm_compute; reflexivity).
  rewrite E in Hout. injection Hout as Hs Hn Hok _.
  exists p. split; [exact Hp|]. split; [exact Hs|]. split; [exact Hn|].
  split; [exact Hok|].
  apply (Hpub exampleSession eq_refl eq_refl Hok).
  - rewrite Hn. reflexivity.
  - rewrite Hn. vm_compute. discriminate.
Defined.

(* ----------------------------------------------------------------- *)
(** ** The snapshot and its readers *)

Lemma deref_alloc_old :
  forall (h : Heap) v a, (a < List.length h)%nat -> deref (h ++ [v]) a = deref h a.
Proof. intros h v a H. unfold deref. apply app_nth1. exact H. Qed.

Lemma deref_alloc_new :
  forall (h : Heap) v, deref (h ++ [v]) (List.length h) = v.
Proof. intros h v. unfold deref. apply nth_middle. Qed.

Lemma length_setNth :
  forall (A : Type) (l : list A) i x, List.length (setNth l i x) = List.length l.
Proof.
  intros A l. induction l as [|y l IH]; intros i x; simpl; [reflexivity|].
  destruct i; simpl; [reflexivity|now rewrite IH].
Qed.

Lemma nth_setNth_other :
  forall (A : Type) (l : list A) i j x d,
    i <> j -> nth j (setNth l i x) d = nth j l d.
Proof.
  intros A l. induction l as [|y l IH]; intros i j x d Hij; simpl; [reflexivity|].
  destruct i, j; simpl; try reflexivity; try lia.
  apply IH. lia.
Qed.

Lemma deref_store_other :
  forall h a i x a0, a0 <> a -> deref (store h a i x) a0 = deref h a0.
Proof.
  intros h a i x a0 H. unfold store, deref at 1 3.
  apply nth_setNth_other. congruence.
Qed.

Lemma GetAudioSamples_alloc :
  forall ap h,
    GetAudioSamples ap h
    = (List.length h,
       h ++ [match audioSamples ap with
             | None => repeat 0%float 24
             | Some a => deref h a
             end]).
Proof. intros ap h. unfold GetAudioSamples, alloc. destruct (audioSamples ap); reflexivity. Qed.

Lemma playDirectly_audioSamples :
  forall env now u ap tr,
    audioSamples (snd (fst (playDirectly env now u ap tr))) = audioSamples ap.
Proof.
  intros env now u ap tr.
  destruct (playDirectly env now u ap tr) as [[[err|] ap'] tr'] eqn:E; simpl.
  - apply playDirectly_failed in E. now subst.
  - apply playDirectly_started in E. now subst.
Qed.

Lemma fallbackLoop_audioSamples :
  forall env now urls e ap tr,
    audioSamples (snd (fst (fallbackLoop env now urls e ap tr))) = audioSamples ap.
Proof.
  intros env now urls. induction urls as [|u rest IH]; intros e ap tr; simpl.
  - reflexivity.
  - pose proof (playDirectly_audioSamples env now u ap tr) as H.
    destruct (playDirectly env now u ap tr) as [[[err|] ap'] tr']; simpl in *.
    + rewrite IH. exact H.
    + exact H.
Qed.

Lemma Stop_audioSamples : forall ap, audioSamples (Stop ap) = audioSamples ap.
Proof. intros ap. unfold Stop. destruct (ctrl ap); reflexivity. Qed.

Lemma set_Paused_audioSamples :
  forall v ap, audioSamples (set_Paused v ap) = audioSamples ap.
Proof. intros v ap. unfold set_Paused. destruct (ctrl ap); reflexivity. Qed.

(** No call on the player touches the snapshot. *)
Lemma applyOp_audioSamples :
  forall op ap, audioSamples (applyOp op ap) = audioSamples ap.
Proof.
  intros op ap.
  destruct op as [env now path tr|env now station tr|now now'|now|now now'| |d| ]; simpl.
  - unfold Play.
    destruct (negb (isURL path) && negb (isFileSupported path)); [reflexivity|].
    destruct (isURL path).
    + unfold playWithFallback. rewrite fallbackLoop_audioSamples. apply Stop_audioSamples.
    + rewrite playDirectly_audioSamples. apply Stop_audioSamples.
  - unfold PlayRadioStation. destruct station; [|reflexivity].
    unfold playWithFallback. apply fallbackLoop_audioSamples.
  - unfold Pause. destruct (hasCtrl ap && isPlaying ap && negb (isPaused ap));
      [simpl; apply set_Paused_audioSamples|reflexivity].
  - unfold Resume. destruct (hasCtrl ap && isPlaying ap && isPaused ap);
      [simpl; apply set_Paused_audioSamples|reflexivity].
  - unfold TogglePause. destruct (hasCtrl ap && isPlaying ap); [|reflexivity].
    destruct (isPaused ap); simpl; apply set_Paused_audioSamples.
  - apply Stop_audioSamples.
  - reflexivity.
  - reflexivity.
Qed.

Section Invariant.

Context {S : Type} {inst : beep_Streamer S}.
Variables (frameOK : Sample -> Prop) (good bufOK : float -> Prop).

Hypothesis mix_ok : forall l r, frameOK (l, r) -> bufOK ((l + r) / 2)%float.

Hypothesis rms_ok :
  forall buf band,
    Forall bufOK buf -> (1024 <= List.length buf)%nat ->
    Z.of_nat (List.length buf) < 2 ^ 63 -> (band < 24)%nat ->
    good (bandRMS buf (List.length buf / numBands) band).

Lemma tapsOK_replace :
  forall (before after : list (SampleCaptureStreamer S)) t t' (P : SampleCaptureStreamer S -> Prop),
    Forall P (before ++ t :: after) -> P t' -> Forall P (before ++ t' :: after).
Proof.
  intros before after t t' P H Ht'.
  apply Forall_app in H. destruct H as (Hb & Ha). inversion Ha; subst.
  apply Forall_app. split; [exact Hb|]. constructor; assumption.
Qed.

Lemma step_invariant :
  forall sys sys' : System S,
    invariant good bufOK sys -> step frameOK sys sys' -> invariant good bufOK sys'.
Proof.
  intros sys sys' (Hsnap & Htaps & Hlent) Hstep.
  destruct Hstep as [sys op|sys src|sys before t after samples p ap' Ht Hlen Hp HF Hap|sys|sys a i x Hin].
  - (* a call on the player *)
    unfold invariant, snapshotOK, tapsOK, lentOK in *. simpl.
    rewrite applyOp_audioSamples. repeat split; assumption.
  - (* a new tap *)
    unfold invariant, snapshotOK, tapsOK, lentOK in *. simpl.
    repeat split; try assumption.
    constructor; [|exact Htaps]. simpl. repeat split; [constructor|lia].
  - (* a pull *)
    unfold tapsOK in Htaps. rewrite Ht in Htaps.
    assert (HPt : Forall bufOK (sampleBuffer t) /\ bufferSize t = 1024
                  /\ (List.length (sampleBuffer t) < 1024)%nat).
    { apply Forall_app in Htaps. destruct Htaps as (_ & Ha). now inversion Ha. }
    destruct HPt as (Hbuf & Hsize & Hshort).
    destruct (Stream (streamer t) samples) as [[[out n] ok] src'] eqn:E.
    destruct (Stream_contract _ _ _ _ _ _ _ _ E) as (Hout & Hn).
    destruct (Stream_cases S inst t (Some (player sys)) (heap sys) samples _ _ _ _ E)
      as [(_ & H)|(mixed & _ & _ & Hl & HPQ & H)]; rewrite H in Hp; clear H.
    + injection Hp as <-. simpl in *. injection Hap as <-.
      unfold invariant, snapshotOK, tapsOK, lentOK. simpl.
      repeat split; try assumption.
      eapply tapsOK_replace; [exact Htaps|]. simpl. repeat split; assumption.
    + rewrite Hsize in Hp.
      destruct (1024 <=? Z.of_nat (List.length (sampleBuffer t ++ mixed))) eqn:Hfull.
      * apply Z.leb_le in Hfull.
        rewrite analyzeAndStore_publishes in Hp by lia.
        injection Hp as <-. cbn [out_n out_samples out_player out_heap out_tap fst snd] in *.
        injection Hap as <-.
        assert (Hmixed : Forall bufOK mixed) by exact (HPQ frameOK bufOK mix_ok HF).
        assert (Hall : Forall bufOK (sampleBuffer t ++ mixed))
          by (apply Forall_app; split; assumption).
        assert (Hbig : Z.of_nat (List.length (sampleBuffer t ++ mixed)) < 2 ^ 63).
        { rewrite length_app, Hl. lia. }
        unfold invariant, snapshotOK, tapsOK, lentOK. simpl.
        rewrite deref_alloc_new, length_app. simpl.
        split; [|split].
        -- split; [lia|]. split.
           ++ intros Hin. unfold lentOK in Hlent.
              rewrite Forall_forall in Hlent. apply Hlent in Hin. lia.
           ++ split; [reflexivity|].
              change (Forall good (map (bandRMS (sampleBuffer t ++ mixed)
                                          (List.length (sampleBuffer t ++ mixed) / numBands))
                                       (seq 0 numBands))).
              apply Forall_map. apply Forall_forall. intros band Hb.
              apply in_seq in Hb. apply rms_ok; try assumption; try lia.
              unfold numBands in Hb. lia.
        -- eapply tapsOK_replace; [exact Htaps|]. simpl.
           repeat split; [constructor|lia].
        -- unfold lentOK in Hlent. eapply Forall_impl; [|exact Hlent].
           simpl. intros a Ha. lia.
      * apply Z.leb_gt in Hfull.
        injection Hp as <-. cbn [out_n out_samples out_player out_heap out_tap fst snd] in *.
        injection Hap as <-.
        assert (Hmixed : Forall bufOK mixed) by exact (HPQ frameOK bufOK mix_ok HF).
        assert (Hall : Forall bufOK (sampleBuffer t ++ mixed))
          by (apply Forall_app; split; assumption).
        unfold invariant, snapshotOK, tapsOK, lentOK. simpl.
        repeat split; try assumption.
        eapply tapsOK_replace; [exact Htaps|]. simpl.
        repeat split; [exact Hall|lia].
  - (* a read *)
    unfold invariant, snapshotOK, tapsOK, lentOK in *. simpl.
    rewrite GetAudioSamples_alloc. simpl. rewrite length_app. simpl.
    split; [|split; [exact Htaps|]].
    + destruct (audioSamples (player sys)) as [a|]; [|exact I].
      destruct Hsnap as (Ha & Hnin & Hl24 & Hgood).
      rewrite deref_alloc_old by exact Ha.
      split; [lia|]. split; [|split; assumption].
      intros [Heq|Hin]; [lia|contradiction].
    + constructor; [lia|]. eapply Forall_impl; [|exact Hlent].
      simpl. intros a Ha. lia.
  - (* a write by a caller *)
    unfold invariant, snapshotOK, tapsOK, lentOK in *. simpl.
    assert (Hlen' : List.length (store (heap sys) a i x) = List.length (heap sys))
      by (unfold store; apply length_setNth).
    rewrite Hlen'. split; [|split; assumption].
    destruct (audioSamples (player sys)) as [a0|]; [|exact I].
    destruct Hsnap as (Ha & Hnin & Hl24 & Hgood).
    assert (Hne : a0 <> a) by (intros ->; contradiction).
    rewrite deref_store_other by exact Hne.
    repeat split; assumption.
Qed.

Lemma reachable_invariant :
  forall sys : System S, reachable frameOK sys -> invariant good bufOK sys.
Proof.
  intros sys H. induction H as [|sys sys' _ IH Hstep].
  - unfold invariant, snapshotOK, tapsOK, lentOK. simpl.
    repeat split; constructor.
  - eapply step_invariant; eassumption.
Qed.

End Invariant.

Lemma contents_GetAudioSamples :
  forall ap h,
    contents (GetAudioSamples ap h)
    = match audioSamples ap with
      | None => repeat 0%float 24
      | Some a => deref h a
      end.
Proof.
  intros ap h. rewrite GetAudioSamples_alloc. unfold contents.
  cbn [fst snd]. apply deref_alloc_new.
Qed.

Lemma called_audioSamples : forall ops, audioSamples (called ops) = None.
Proof.
  intros ops. unfold called.
  assert (H : forall ap, audioSamples ap = None ->
                         audioSamples (fold_left (fun ap op => applyOp op ap) ops ap) = None).
  { induction ops as [|op ops IH]; intros ap Hap; simpl; [exact Hap|].
    apply IH. rewrite applyOp_audioSamples. exact Hap. }
  apply H. reflexivity.
Qed.

(** Whatever the sources deliver, the snapshot is a slice of 24 values
    none of which is negative. *)
Lemma invariant_any :
  forall (S : Type) (inst : beep_Streamer S) (sys : System S),
    reachable anyFrame sys ->
    invariant (fun x => (x <? 0)%float = false) (fun _ => True) sys.
Proof.
  intros S inst sys H.
  apply (@reachable_invariant S inst anyFrame); [| |exact H].
  - intros l r _. exact I.
  - intros buf band _ _ _ _. apply bandRMS_not_negative.
Qed.

(** When the sources deliver finite frames, its values are at least 0. *)
Lemma invariant_finite :
  forall (S : Type) (inst : beep_Streamer S) (sys : System S),
    reachable finiteFrame sys ->
    invariant (fun x => (0 <=? x)%float = true) (fun x => is_nan x = false) sys.
Proof.
  intros S inst sys H.
  apply (@reachable_invariant S inst finiteFrame); [| |exact H].
  - intros l r (Hl & Hr). apply mix_not_nan; assumption.
  - intros buf band Hbuf Hlen Hbig Hband.
    apply bandRMS_nonneg; [exact Hbuf| |exact Hbig].
    unfold numBands.
    pose proof (Nat.Div0.mul_div_le (List.length buf) 24) as Hle.
    assert (Hbs : (1 <= List.length buf / 24)%nat)
      by (apply Nat.div_le_lower_bound; lia).
    set (bs := (List.length buf / 24)%nat) in *.
    assert (Hin : (band * bs + bs <= List.length buf)%nat) by nia.
    rewrite Nat.min_l by exact Hin. lia.
Qed.

Lemma afterPull_reachable :
  forall (frameOK : Sample -> Prop) amp sys,
    frameOK (amp, amp) -> afterPull amp = Some sys -> reachable frameOK sys.
Proof.
  intros frameOK amp sys Hamp H. unfold afterPull in H.
  destruct (Stream_passes_through float constantSource (NewSampleCaptureStreamer amp)
              (Some exampleSession) [] (repeat (0%float, 0%float) 1024))
    as (p & Hp & Hout).
  rewrite Hp in H. destruct (out_player p) as [ap'|] eqn:Hap; [|discriminate].
  injection H as <-.
  set (played := {| player := exampleSession; heap := [];
                    taps := [NewSampleCaptureStreamer amp]; lent := [] |}).
  apply (reachable_step frameOK played).
  - apply (reachable_step frameOK
             {| player := exampleSession; heap := []; taps := []; lent := [] |}).
    + apply (reachable_step frameOK (initial float)); [apply reachable_initial|].
      exact (step_op frameOK (initial float) (OpPlay (worldWith []) 3 "/music/a.mp3" [])).
    + exact (step_tap frameOK
               {| player := exampleSession; heap := []; taps := []; lent := [] |} amp).
  - apply (step_pull frameOK played [] (NewSampleCaptureStreamer amp) []
             (repeat (0%float, 0%float) 1024) p ap').
    + reflexivity.
    + rewrite repeat_length. reflexivity.
    + exact Hp.
    + apply Forall_firstn'.
      assert (E : out_samples p
                  = map (fun _ : Sample => (amp, amp)) (repeat (0%float, 0%float) 1024)).
      { change (Stream (streamer (NewSampleCaptureStreamer amp))
                       (repeat (0%float, 0%float) 1024))
          with (map (fun _ : Sample => (amp, amp)) (repeat (0%float, 0%float) 1024),
                Z.of_nat (List.length (repeat (0%float, 0%float) 1024)), true, amp)
          in Hout.
        injection Hout as E _ _ _. exact E. }
      rewrite E. apply Forall_forall. intros f Hf. apply in_map_iff in Hf.
      destruct Hf as (x & <- & _). exact Hamp.
    + exact Hap.
Qed.

Lemma snapshot_not_lent :
  forall (S : Type) (sys : System S) (good bufOK : float -> Prop) a i x,
    invariant good bufOK sys -> In a (lent sys) ->
    contents (GetAudioSamples (player sys) (store (heap sys) a i x))
    = contents (GetAudioSamples (player sys) (heap sys)).
Proof.
  intros S sys good bufOK a i x (Hsnap & _ & _) Hin.
  rewrite !contents_GetAudioSamples. unfold snapshotOK in Hsnap.
  destruct (audioSamples (player sys)) as [a0|]; [|reflexivity].
  destruct Hsnap as (_ & Hnin & _).
  apply deref_store_other. intros ->. contradiction.
Qed.

(** C7, as stated, fails: a source that delivers NaN frames makes the
    tap publish 24 NaN amplitudes, and NaN is not at least 0. *)
Lemma GetAudioSamples_nonneg_counterexample :
  exists sys : System float,
    afterPull nan = Some sys
    /\ reachable anyFrame sys
    /\ List.length (contents (GetAudioSamples (player sys) (heap sys))) = 24%nat
    /\ Forall (fun x => (0 <=? x)%float = false)
              (contents (GetAudioSamples (player sys) (heap sys))).
Proof.
  eexists. split; [vm_compute; reflexivity|].
  split; [apply (afterPull_reachable anyFrame nan); [exact I|vm_compute; reflexivity]|].
  split; [reflexivity|].
  vm_compute. repeat constructor.
Qed.

(** C7, amended. In every state the player, its taps and the readers of
    the snapshot can reach, [GetAudioSamples] returns exactly 24 values,
    none of them negative, and each at least 0 when the sources of the
    taps deliver finite frames (a NaN frame gives NaN amplitudes); it
    returns 24 zeros when no snapshot has been published, as after any
    calls on a new player; and what it returns is a new slice, which is
    neither the snapshot nor a slice handed out before, so that writing
    into it, or into any slice handed out, changes no later read. *)
Theorem GetAudioSamples_shape :
  forall (S : Type) (inst : beep_Streamer S) (sys : System S),
    reachable anyFrame sys ->
    List.length (contents (GetAudioSamples (player sys) (heap sys))) = 24%nat
    /\ Forall (fun x => (x <? 0)%float = false)
              (contents (GetAudioSamples (player sys) (heap sys)))
    /\ (reachable finiteFrame sys ->
        Forall (fun x => (0 <=? x)%float = true)
               (contents (GetAudioSamples (player sys) (heap sys))))
    /\ (audioSamples (player sys) = None ->
        contents (GetAudioSamples (player sys) (heap sys)) = repeat 0%float 24)
    /\ (forall ops h, contents (GetAudioSamples (called ops) h) = repeat 0%float 24)
    /\ fst (GetAudioSamples (player sys) (heap sys)) = List.length (heap sys)
    /\ audioSamples (player sys) <> Some (fst (GetAudioSamples (player sys) (heap sys)))
    /\ ~ In (fst (GetAudioSamples (player sys) (heap sys))) (lent sys)
    /\ (forall i x,
           contents (GetAudioSamples (player sys)
                       (store (snd (GetAudioSamples (player sys) (heap sys)))
                              (fst (GetAudioSamples (player sys) (heap sys))) i x))
           = contents (GetAudioSamples (player sys) (heap sys)))
    /\ (forall a i x,
           In a (lent sys) ->
           contents (GetAudioSamples (player sys) (store (heap sys) a i x))
           = contents (GetAudioSamples (player sys) (heap sys))).
Proof.
  intros S inst sys Hreach.
  pose proof (invariant_any S inst sys Hreach) as Hinv.
  pose proof Hinv as (Hsnap & _ & Hlent).
  unfold snapshotOK in Hsnap. unfold lentOK in Hlent.
  assert (Hfst : fst (GetAudioSamples (player sys) (heap sys)) = List.length (heap sys))
    by (rewrite GetAudioSamples_alloc; reflexivity).
  rewrite Hfst.
  split; [|split; [|split; [|split; [|split; [|split; [|split; [|split; [|split]]]]]]]].
  - rewrite contents_GetAudioSamples.
    destruct (audioSamples (player sys)) as [a|]; [|reflexivity].
    destruct Hsnap as (_ & _ & H24 & _). exact H24.
  - rewrite contents_GetAudioSamples.
    destruct (audioSamples (player sys)) as [a|].
    + destruct Hsnap as (_ & _ & _ & Hgood). exact Hgood.
    + repeat constructor.
  - intros Hfin. destruct (invariant_finite S inst sys Hfin) as (Hsnap' & _ & _).
    unfold snapshotOK in Hsnap'. rewrite contents_GetAudioSamples.
    destruct (audioSamples (player sys)) as [a|].
    + destruct Hsnap' as (_ & _ & _ & Hgood). exact Hgood.
    + repeat constructor.
  - intros Hnone. rewrite contents_GetAudioSamples, Hnone. reflexivity.
  - intros ops h. rewrite contents_GetAudioSamples, called_audioSamples. reflexivity.
  - reflexivity.
  - destruct (audioSamples (player sys)) as [a|]; [|discriminate].
    destruct Hsnap as (Ha & _). intros E. injection E as ->. lia.
  - intros Hin. rewrite Forall_forall in Hlent. apply Hlent in Hin. lia.
  - intros i x. rewrite !contents_GetAudioSamples, GetAudioSamples_alloc. cbn [snd].
    destruct (audioSamples (player sys)) as [a|]; [|reflexivity].
    destruct Hsnap as (Ha & _).
    rewrite deref_store_other by lia. apply deref_alloc_old. exact Ha.
  - intros a i x Hin. exact (snapshot_not_lent S sys _ _ a i x Hinv Hin).
Qed.

Lemma GetAudioSamples_shape_witness :
  exists sys : System float,
    afterPull 0.5 = Some sys
    /\ reachable anyFrame sys
    /\ contents (GetAudioSamples (player sys) (heap sys)) = repeat 0.5%float 24
    /\ List.length (contents (GetAudioSamples (player sys) (heap sys))) = 24%nat
    /\ Forall (fun x => (0 <=? x)%float = true)
              (contents (GetAudioSamples (player sys) (heap sys)))
    /\ (forall i x,
           contents (GetAudioSamples (player sys)
                       (store (snd (GetAudioSamples (player sys) (heap sys)))
                              (fst (GetAudioSamples (player sys) (heap sys))) i x))
           = contents (GetAudioSamples (player sys) (heap sys))).
Proof.
  eexists. split; [vm_compute; reflexivity|].
  match goal with |- reachable _ ?s /\ _ =>
    assert (Hany : reachable anyFrame s)
      by (apply (afterPull_reachable anyFrame 0.5%float); [exact I|vm_compute; reflexivity]);
    assert (Hfin : reachable finiteFrame s)
      by (apply (afterPull_reachable finiteFrame 0.5%float);
          [split; exact I|vm_compute; reflexivity]);
    destruct (GetAudioSamples_shape float constantSource s Hany)
      as (H24 & _ & Hpos & _ & _ & _ & _ & _ & Hwrite & _)
  end.
  split; [exact Hany|]. split; [vm_compute; reflexivity|].
  split; [exact H24|]. split; [exact (Hpos Hfin)|exact Hwrite].
Defined.

(* ----------------------------------------------------------------- *)
(** ** The snapshot when no session is active *)

Lemma playbackFinished_idle : forall ap, IsPlaying (playbackFinished ap) = false.
Proof.
  intros [c m pl pa song sp st pt d smp]. unfold playbackFinished, IsPlaying. simpl.
  destruct c; reflexivity.
Qed.

Lemma Stop_idle : forall ap, IsPlaying (Stop ap) = false.
Proof.
  intros [c m pl pa song sp st pt d smp]. unfold Stop, IsPlaying. simpl.
  destruct c; reflexivity.
Qed.

(** C6, as stated, fails: a session whose source has amplitude 0.5
    publishes a snapshot of 24 times 0.5, and after [Stop], as after the
    natural end of the stream, [GetAudioSamples] still returns it. *)
Lemma snapshot_reset_counterexample :
  exists sys : System float,
    afterPull 0.5 = Some sys
    /\ reachable anyFrame sys
    /\ IsPlaying (Stop (player sys)) = false
    /\ contents (GetAudioSamples (Stop (player sys)) (heap sys)) = repeat 0.5%float 24
    /\ contents (GetAudioSamples (Stop (player sys)) (heap sys)) <> repeat 0%float 24
    /\ IsPlaying (playbackFinished (player sys)) = false
    /\ contents (GetAudioSamples (playbackFinished (player sys)) (heap sys))
       <> repeat 0%float 24.
Proof.
  assert (Hne : repeat 0.5%float 24 <> repeat 0%float 24).
  { intros E.
    apply (f_equal (fun l => match l with x :: _ => (0 <? x)%float | [] => false end)) in E.
    vm_compute in E. discriminate. }
  eexists. split; [vm_compute; reflexivity|].
  split; [apply (afterPull_reachable anyFrame 0.5%float); [exact I|vm_compute; reflexivity]|].
  split; [reflexivity|]. split; [vm_compute; reflexivity|].
  split; [exact Hne|]. split; [reflexivity|exact Hne].
Qed.

(** C6, amended. [Stop] and the natural end of the stream end the
    session and leave the snapshot as it is: while no session is active
    [GetAudioSamples] returns a copy, of 24 values, of the last snapshot
    published, whatever its values, the same as it returned before the
    session ended; when no snapshot has been published yet it returns
    24 zeros. *)
Theorem snapshot_kept_when_idle :
  forall (S : Type) (inst : beep_Streamer S) (sys : System S) (idle : AudioPlayer),
    reachable anyFrame sys ->
    idle = Stop (player sys) \/ idle = playbackFinished (player sys) ->
    IsPlaying idle = false
    /\ audioSamples idle = audioSamples (player sys)
    /\ contents (GetAudioSamples idle (heap sys))
       = contents (GetAudioSamples (player sys) (heap sys))
    /\ List.length (contents (GetAudioSamples idle (heap sys))) = 24%nat
    /\ (forall a, audioSamples (player sys) = Some a ->
                  contents (GetAudioSamples idle (heap sys)) = deref (heap sys) a)
    /\ (audioSamples (player sys) = None ->
        contents (GetAudioSamples idle (heap sys)) = repeat 0%float 24).
Proof.
  intros S inst sys idle Hreach Hidle.
  destruct (invariant_any S inst sys Hreach) as (Hsnap & _ & _).
  unfold snapshotOK in Hsnap.
  assert (Hsame : audioSamples idle = audioSamples (player sys)).
  { destruct Hidle as [-> | ->].
    - apply (applyOp_audioSamples OpStop).
    - apply (applyOp_audioSamples OpFinished). }
  assert (Hoff : IsPlaying idle = false).
  { destruct Hidle as [-> | ->]; [apply Stop_idle|apply playbackFinished_idle]. }
  rewrite !contents_GetAudioSamples, Hsame.
  split; [exact Hoff|]. split; [reflexivity|]. split; [reflexivity|].
  destruct (audioSamples (player sys)) as [a0|].
  - destruct Hsnap as (_ & _ & H24 & _).
    split; [exact H24|]. split; [|discriminate].
    intros a E. injection E as <-. reflexivity.
  - split; [reflexivity|]. split; [discriminate|reflexivity].
Qed.

Lemma snapshot_kept_when_idle_witness :
  exists sys : System float,
    afterPull 0.5 = Some sys
    /\ reachable anyFrame sys
    /\ IsPlaying (Stop (player sys)) = false
    /\ contents (GetAudioSamples (Stop (player sys)) (heap sys))
       = contents (GetAudioSamples (player sys) (heap sys))
    /\ contents (GetAudioSamples (player sys) (heap sys)) = repeat 0.5%float 24.
Proof.
  eexists. split; [vm_compute; reflexivity|].
  match goal with |- reachable _ ?s /\ _ =>
    assert (Hany : reachable anyFrame s)
      by (apply (afterPull_reachable anyFrame 0.5%float); [exact I|vm_compute; reflexivity]);
    destruct (snapshot_kept_when_idle float constantSource s (Stop (player s)) Hany
                (or_introl eq_refl))
      as (Hoff & _ & Hsame & _)
  end.
  split; [exact Hany|]. split; [exact Hoff|]. split; [exact Hsame|].
  vm_compute. reflexivity.
Defined.

(* ================================================================= *)
(** * Further properties of the radio library *)

Lemma findByName_first :
  forall name pre station post i,
    Forall (fun s => Name s <> name) pre -> Name station = name ->
    findByName name (pre ++ station :: post) i = Some (i + List.length pre)%nat.
Proof.
  intros name pre. induction pre as [|s pre IH]; intros station post i Hpre Hst; simpl.
  - rewrite (proj2 (String.eqb_eq _ _) Hst). f_equal. lia.
  - inversion Hpre as [|? ? Hs Hpre']; subst.
    rewrite (proj2 (String.eqb_neq _ _) Hs).
    rewrite (IH station post (S i) Hpre' eq_refl). f_equal. lia.
Qed.

Lemma findByName_none :
  forall name l i, Forall (fun s => Name s <> name) l -> findByName name l i = None.
Proof.
  intros name l. induction l as [|s l IH]; intros i H; simpl; [reflexivity|].
  inversion H as [|? ? Hs Hl]; subst.
  rewrite (proj2 (String.eqb_neq _ _) Hs). apply IH. exact Hl.
Qed.

Lemma findByName_split :
  forall name l i j,
    findByName name l i = Some j ->
    exists pre station post,
      l = pre ++ station :: post
      /\ Forall (fun s => Name s <> name) pre /\ Name station = name
      /\ j = (i + List.length pre)%nat.
Proof.
  intros name l. induction l as [|s l IH]; intros i j H; simpl in H; [discriminate|].
  destruct (String.eqb (Name s) name) eqn:E.
  - injection H as <-. apply String.eqb_eq in E.
    exists [], s, l. simpl. repeat split; [constructor|exact E|lia].
  - apply String.eqb_neq in E.
    destruct (IH _ _ H) as (pre & station & post & -> & Hpre & Hst & ->).
    exists (s :: pre), station, post. simpl.
    repeat split; [constructor; assumption|exact Hst|lia].
Qed.

Lemma findByName_none_inv :
  forall name l i, findByName name l i = None -> Forall (fun s => Name s <> name) l.
Proof.
  intros name l. induction l as [|s l IH]; intros i H; simpl in H; [constructor|].
  destruct (String.eqb (Name s) name) eqn:E; [discriminate|].
  constructor; [apply String.eqb_neq; exact E|exact (IH _ H)].
Qed.

Lemma findByName_cases :
  forall name l,
    (findByName name l 0 = None /\ Forall (fun s => Name s <> name) l)
    \/ (exists pre station post,
           l = pre ++ station :: post
           /\ Forall (fun s => Name s <> name) pre /\ Name station = name
           /\ findByName name l 0 = Some (List.length pre)).
Proof.
  intros name l. destruct (findByName name l 0) as [j|] eqn:E.
  - right. destruct (findByName_split _ _ _ _ E) as (pre & st & post & Hl & Hpre & Hst & ->).
    exists pre, st, post. repeat split; assumption.
  - left. split; [reflexivity|exact (findByName_none_inv _ _ _ E)].
Qed.

Lemma firstn_skipn_middle :
  forall (A : Type) (pre : list A) x post,
    firstn (List.length pre) (pre ++ x :: post)
    ++ skipn (S (List.length pre)) (pre ++ x :: post)
    = pre ++ post.
Proof.
  intros A pre x post. induction pre as [|y pre IH]; simpl; [reflexivity|].
  f_equal. exact IH.
Qed.

(** [RemoveStation] removes the first station that has the name and no
    other: the stations before and after it, later ones of the same name
    included, stay in their order, and the list so shortened is what is
    saved.  When no station has the name, the library is unchanged,
    nothing is saved and the error names the station. *)
Theorem RemoveStation_first_match :
  forall (net : Net) (rl : RadioLibrary) (name : string),
    (forall pre station post,
        stations rl = pre ++ station :: post ->
        Forall (fun s => Name s <> name) pre -> Name station = name ->
        RemoveStation net rl name
        = ({| stations := pre ++ post; filePath := filePath rl |},
           os_WriteFile net (filePath rl) (pre ++ post)))
    /\ (Forall (fun s => Name s <> name) (stations rl) ->
        RemoveStation net rl name
        = (rl, Some (errorString ("station not found: " ++ name))))
    /\ (forall rl' err,
           RemoveStation net rl name = (rl', err) ->
           stations rl' = stations rl
           \/ S (List.length (stations rl')) = List.length (stations rl)).
Proof.
  intros net rl name. split; [|split].
  - intros pre station post Hl Hpre Hst. unfold RemoveStation, Save.
    rewrite Hl, (findByName_first name pre station post 0 Hpre Hst). simpl.
    rewrite firstn_skipn_middle. reflexivity.
  - intros Hnone. unfold RemoveStation.
    rewrite (findByName_none name _ 0 Hnone). reflexivity.
  - intros rl' err H. unfold RemoveStation in H.
    destruct (findByName_cases name (stations rl))
      as [(E & _)|(pre & st & post & Hl & _ & _ & E)]; rewrite E in H.
    + injection H as <- _. left. reflexivity.
    + injection H as <- _. right. simpl. rewrite Hl, firstn_skipn_middle.
      rewrite !length_app. simpl. lia.
Qed.

Lemma resolveStation_fields :
  forall net now station st',
    resolveStation net now station = inr st' ->
    Name st' = Name station /\ URL st' = URL station
    /\ AddedAt st' = time.Mono now /\ LastPlayed st' = LastPlayed station.
Proof.
  intros net now station st' H. unfold resolveStation in H.
  destruct (isPlaylistURL (URL station)).
  - destruct (resolvePlaylistURL net (URL station)); [discriminate|].
    injection H as <-. repeat split.
  - injection H as <-. repeat split.
Qed.

(** [AddStation] either fails while resolving the playlist, with the
    library unchanged and nothing saved, or appends exactly one station
    at the end, dated now, with the name and URL given; the append holds
    in memory whatever the save answers.  Every lookup that found a
    station still finds the same one, so under a name already taken the
    older station is the one found; under a new name the station added
    is found, at the last index. *)
Theorem AddStation_appends :
  forall (net : Net) (now : Z) (rl : RadioLibrary) (station : RadioStation),
    match resolveStation net now station with
    | inl err => AddStation net now rl station = (rl, Some err)
    | inr st' =>
        AddStation net now rl station
        = ({| stations := stations rl ++ [st']; filePath := filePath rl |},
           os_WriteFile net (filePath rl) (stations rl ++ [st']))
        /\ Name st' = Name station /\ URL st' = URL station
        /\ AddedAt st' = time.Mono now
        /\ (forall name i,
               GetStationByName rl name = (Some i, true) ->
               GetStationByName (fst (AddStation net now rl station)) name
               = (Some i, true))
        /\ (Forall (fun s => Name s <> Name station) (stations rl) ->
            GetStationByName (fst (AddStation net now rl station)) (Name station)
            = (Some (List.length (stations rl)), true))
    end.
Proof.
  intros net now rl station.
  destruct (resolveStation net now station) as [err|st'] eqn:E.
  - unfold AddStation. rewrite E. reflexivity.
  - destruct (resolveStation_fields _ _ _ _ E) as (Hn & Hu & Ha & _).
    assert (HA : AddStation net now rl station
                 = ({| stations := stations rl ++ [st']; filePath := filePath rl |},
                    os_WriteFile net (filePath rl) (stations rl ++ [st'])))
      by (unfold AddStation; rewrite E; reflexivity).
    rewrite HA. cbn [fst]. repeat split; try assumption.
    + intros name i Hfound. unfold GetStationByName in *. cbn [stations] in *.
      destruct (findByName_cases name (stations rl))
        as [(En & _)|(pre & st & post & Hl & Hpre & Hst & En)];
        rewrite En in Hfound; [discriminate|].
      injection Hfound as <-.
      rewrite Hl, <- app_assoc. simpl.
      rewrite (findByName_first name pre st (post ++ [st']) 0 Hpre Hst). reflexivity.
    + intros Hfresh. unfold GetStationByName. cbn [stations].
      rewrite (findByName_first (Name station) (stations rl) st' [] 0 Hfresh Hn).
      reflexivity.
Qed.

(** Removing a station right after it was added under a name no other
    station has gives back the station list as it was; so does a failed
    add followed by the removal, which finds nothing. *)
Theorem RemoveStation_undoes_AddStation :
  forall (net : Net) (now : Z) (rl : RadioLibrary) (station : RadioStation),
    Forall (fun s => Name s <> Name station) (stations rl) ->
    stations (fst (RemoveStation net (fst (AddStation net now rl station)) (Name station)))
    = stations rl
    /\ filePath (fst (RemoveStation net (fst (AddStation net now rl station))
                        (Name station)))
       = filePath rl.
Proof.
  intros net now rl station Hfresh. unfold AddStation.
  destruct (resolveStation net now station) as [err|st'] eqn:E; cbn [fst].
  - unfold RemoveStation. rewrite (findByName_none _ _ 0 Hfresh). split; reflexivity.
  - destruct (resolveStation_fields _ _ _ _ E) as (Hn & _).
    unfold RemoveStation. cbn [stations filePath].
    rewrite (findByName_first (Name station) (stations rl) st' [] 0 Hfresh Hn).
    cbn [fst stations filePath Nat.add].
    rewrite firstn_skipn_middle, app_nil_r. split; reflexivity.
Qed.

Lemma RemoveStation_undoes_AddStation_witness :
  stations (fst (RemoveStation exampleNet
                   (fst (AddStation exampleNet 5 exampleLibrary
                           (blankStation "Live" "http://radio.example/live.pls")))
                   "Live"))
  = stations exampleLibrary.
Proof.
  refine (proj1 (RemoveStation_undoes_AddStation exampleNet 5 exampleLibrary
                   (blankStation "Live" "http://radio.example/live.pls") _)).
  repeat constructor. simpl. discriminate.
Defined.

Lemma setLastPlayed_middle :
  forall pre station post t,
    setLastPlayed (pre ++ station :: post) (List.length pre) t
    = pre ++ withLastPlayed station t :: post.
Proof.
  intros pre station post t. induction pre as [|s pre IH]; simpl; [reflexivity|].
  f_equal. exact IH.
Qed.

(** [UpdateLastPlayed] stamps the first station that has the name and
    changes nothing else: no other station, no other field of that
    station, and not the order; the list so changed is what is saved.
    When no station has the name, the library is unchanged, nothing is
    saved and the error names the station. *)
Theorem UpdateLastPlayed_first_match :
  forall (net : Net) (now : Z) (rl : RadioLibrary) (name : string),
    (forall pre station post,
        stations rl = pre ++ station :: post ->
        Forall (fun s => Name s <> name) pre -> Name station = name ->
        UpdateLastPlayed net now rl name
        = ({| stations := pre ++ withLastPlayed station (time.Mono now) :: post;
              filePath := filePath rl |},
           os_WriteFile net (filePath rl)
             (pre ++ withLastPlayed station (time.Mono now) :: post)))
    /\ (Forall (fun s => Name s <> name) (stations rl) ->
        UpdateLastPlayed net now rl name
        = (rl, Some (errorString ("station not found: " ++ name))))
    /\ map Name (stations (fst (UpdateLastPlayed net now rl name)))
       = map Name (stations rl)
    /\ map StreamURLs (stations (fst (UpdateLastPlayed net now rl name)))
       = map StreamURLs (stations rl).
Proof.
  intros net now rl name.
  assert (Hfound : forall pre station post,
             stations rl = pre ++ station :: post ->
             Forall (fun s => Name s <> name) pre -> Name station = name ->
             UpdateLastPlayed net now rl name
             = ({| stations := pre ++ withLastPlayed station (time.Mono now) :: post;
                   filePath := filePath rl |},
                os_WriteFile net (filePath rl)
                  (pre ++ withLastPlayed station (time.Mono now) :: post))).
  { intros pre station post Hl Hpre Hst. unfold UpdateLastPlayed, Save.
    rewrite Hl, (findByName_first name pre station post 0 Hpre Hst). simpl.
    rewrite setLastPlayed_middle. reflexivity. }
  assert (Hnone : Forall (fun s => Name s <> name) (stations rl) ->
                  UpdateLastPlayed net now rl name
                  = (rl, Some (errorString ("station not found: " ++ name)))).
  { intros H. unfold UpdateLastPlayed. rewrite (findByName_none name _ 0 H). reflexivity. }
  split; [exact Hfound|]. split; [exact Hnone|].
  destruct (findByName_cases name (stations rl))
    as [(_ & Hall)|(pre & st & post & Hl & Hpre & Hst & _)].
  - rewrite (Hnone Hall). split; reflexivity.
  - rewrite (Hfound pre st post Hl Hpre Hst). cbn [fst stations].
    rewrite Hl, !map_app. split; reflexivity.
Qed.

Lemma collect_plsURL_http :
  forall lines, Forall (fun u => strings.HasPrefix u "http" = true) (collect plsURL lines).
Proof.
  intros lines. induction lines as [|line lines IH]; simpl; [constructor|].
  destruct (plsURL line) as [value|] eqn:E; [|exact IH].
  constructor; [|exact IH].
  apply plsURL_fileEntry in E. destruct E as (key & _ & _ & Hv). exact Hv.
Qed.

Lemma parsePLS_urls :
  forall scanner urls,
    parsePLS scanner = inr urls ->
    urls <> [] /\ Forall (fun u => strings.HasPrefix u "http" = true) urls.
Proof.
  intros scanner urls H. unfold parsePLS in H.
  rewrite parsePLS_loop_collect in H. cbn [app] in H.
  pose proof (collect_plsURL_http (map strings.TrimSpace scanner)) as Hall.
  destruct (collect plsURL (map strings.TrimSpace scanner)) as [|u l]; simpl in H;
    [discriminate|].
  injection H as <-. split; [discriminate|exact Hall].
Qed.

Lemma parseM3U_urls :
  forall scanner urls,
    parseM3U scanner = inr urls ->
    urls <> [] /\ Forall (fun u => strings.HasPrefix u "http" = true) urls.
Proof.
  intros scanner urls H. unfold parseM3U in H.
  rewrite parseM3U_loop_filter in H. cbn [app] in H.
  assert (Hall : Forall (fun u => strings.HasPrefix u "http" = true)
                   (filter (fun line => strings.HasPrefix line "http")
                           (map strings.TrimSpace scanner))).
  { apply Forall_forall. intros u Hu. apply filter_In in Hu. exact (proj2 Hu). }
  destruct (filter _ (map strings.TrimSpace scanner)) as [|u l]; simpl in H;
    [discriminate|].
  injection H as <-. split; [discriminate|exact Hall].
Qed.

Lemma resolvePlaylistURL_urls :
  forall net url urls,
    resolvePlaylistURL net url = inr urls ->
    urls <> [] /\ Forall (fun u => strings.HasPrefix u "http" = true) urls.
Proof.
  intros net url urls H. unfold resolvePlaylistURL in H.
  destruct (http_Get net url) as [err|resp]; [discriminate|].
  destruct (negb (StatusCode resp =? 200)); [discriminate|].
  destruct (strings.Contains url ".pls"); [exact (parsePLS_urls _ _ H)|].
  destruct (strings.Contains url ".m3u"); [exact (parseM3U_urls _ _ H)|discriminate].
Qed.

(** When [resolvePlaylistURL] succeeds, the server answered 200, the
    list of stream URLs is not empty, so that [streamURLs[0]] in its
    callers is in range, and every URL in it starts with [http].  A URL
    that holds [.pls] is parsed as PLS even when it holds [.m3u] too. *)
Theorem resolvePlaylistURL_success :
  forall (net : Net) (playlistURL : string) (urls : list string),
    resolvePlaylistURL net playlistURL = inr urls ->
    urls <> []
    /\ In (hd "" urls) urls
    /\ Forall (fun u => strings.HasPrefix u "http" = true) urls
    /\ exists resp,
         http_Get net playlistURL = inr resp /\ StatusCode resp = 200
         /\ (strings.Contains playlistURL ".pls" = true ->
             parsePLS (Lines resp) = inr urls)
         /\ (strings.Contains playlistURL ".pls" = false ->
             strings.Contains playlistURL ".m3u" = true
             /\ parseM3U (Lines resp) = inr urls).
Proof.
  intros net url urls H.
  destruct (resolvePlaylistURL_urls _ _ _ H) as (Hne & Hall).
  split; [exact Hne|]. split; [destruct urls; [contradiction|left; reflexivity]|].
  split; [exact Hall|].
  unfold resolvePlaylistURL in H.
  destruct (http_Get net url) as [err|resp]; [discriminate|].
  exists resp. split; [reflexivity|].
  destruct (StatusCode resp =? 200) eqn:Es; simpl in H; [|discriminate].
  apply Z.eqb_eq in Es. split; [exact Es|].
  destruct (strings.Contains url ".pls").
  - split; [intros _; exact H|discriminate].
  - split; [discriminate|]. intros _.
    destruct (strings.Contains url ".m3u"); [split; [reflexivity|exact H]|discriminate].
Qed.

Lemma resolvePlaylistURL_success_witness :
  resolvePlaylistURL exampleNet "http://radio.example/live.pls"
  = inr ["http://a/stream"; "http://b/stream"]
  /\ Forall (fun u => strings.HasPrefix u "http" = true)
            ["http://a/stream"; "http://b/stream"].
Proof.
  assert (H : resolvePlaylistURL exampleNet "http://radio.example/live.pls"
              = inr ["http://a/stream"; "http://b/stream"]) by reflexivity.
  split; [exact H|].
  exact (proj1 (proj2 (proj2 (resolvePlaylistURL_success _ _ _ H)))).
Defined.

(** A station that [AddStation] stores always has a candidate list that
    is not empty and starts with its primary stream URL, so
    [PlayRadioStation] on it goes through the stored candidates in their
    order and never falls back to the station URL: the one URL given for
    a station that is no playlist, the URLs of the manifest, each
    starting with [http], for one that is. *)
Theorem stored_station_candidates :
  forall (net : Net) (now : Z) (station st' : RadioStation)
         (env : Env) (t : Z) (ap : AudioPlayer) (tr : list Event),
    resolveStation net now station = inr st' ->
    StreamURLs st' <> []
    /\ StreamURL st' = hd "" (StreamURLs st')
    /\ PlayRadioStation env t (Some st') ap tr
       = playWithFallback env t (StreamURLs st') ap tr
    /\ (isPlaylistURL (URL station) = false -> StreamURLs st' = [URL station])
    /\ (isPlaylistURL (URL station) = true ->
        resolvePlaylistURL net (URL station) = inr (StreamURLs st')
        /\ Forall (fun u => strings.HasPrefix u "http" = true) (StreamURLs st')).
Proof.
  intros net now station st' env t ap tr H. unfold resolveStation in H.
  assert (Hplay : StreamURLs st' <> [] ->
                  PlayRadioStation env t (Some st') ap tr
                  = playWithFallback env t (StreamURLs st') ap tr).
  { intros Hne. unfold PlayRadioStation.
    destruct (StreamURLs st') as [|u l]; [contradiction|reflexivity]. }
  destruct (isPlaylistURL (URL station)) eqn:Ep.
  - destruct (resolvePlaylistURL net (URL station)) as [err|urls] eqn:Er; [discriminate|].
    destruct (resolvePlaylistURL_urls _ _ _ Er) as (Hne & Hall).
    injection H as <-. cbn [StreamURLs StreamURL withStreams] in *.
    split; [exact Hne|]. split; [reflexivity|]. split; [exact (Hplay Hne)|].
    split; [discriminate|]. intros _. split; [reflexivity|exact Hall].
  - injection H as <-. cbn [StreamURLs StreamURL withStreams] in *.
    split; [discriminate|]. split; [reflexivity|].
    split; [apply Hplay; discriminate|]. split; [reflexivity|discriminate].
Qed.

Lemma stored_station_candidates_witness :
  exists st',
    resolveStation exampleNet 5 (blankStation "Live" "http://radio.example/live.pls")
    = inr st'
    /\ StreamURLs st' = ["http://a/stream"; "http://b/stream"]
    /\ PlayRadioStation (worldWith []) 9 (Some st') NewAudioPlayer []
       = playWithFallback (worldWith []) 9 (StreamURLs st') NewAudioPlayer [].
Proof.
  eexists. split; [reflexivity|]. split; [reflexivity|].
  refine (proj1 (proj2 (proj2 (stored_station_candidates exampleNet 5
            (blankStation "Live" "http://radio.example/live.pls") _
            (worldWith []) 9 NewAudioPlayer [] eq_refl)))).
Defined.

(** [PlayQuickStation] refuses an empty URL without asking the network.
    For any other URL it resolves the station exactly as [AddStation]
    would before storing it: the same error, or the same primary stream
    URL and candidate list; the station is named [Quick Station] when no
    name was typed, and is not dated. *)
Theorem PlayQuickStation_resolves_like_AddStation :
  forall (net : Net) (now : Z) (quickURL quickName : string),
    PlayQuickStation net "" quickName = inl (errorString "URL is required")
    /\ (quickURL <> ""%string ->
        match resolveStation net now (blankStation quickName quickURL),
              PlayQuickStation net quickURL quickName with
        | inl e1, inl e2 => e1 = e2
        | inr s1, inr s2 =>
            StreamURL s2 = StreamURL s1 /\ StreamURLs s2 = StreamURLs s1
            /\ URL s2 = quickURL
            /\ Name s2 = (if String.eqb quickName "" then "Quick Station" else quickName)
            /\ AddedAt s2 = time.Zero
        | _, _ => False
        end).
Proof.
  intros net now quickURL quickName. split; [reflexivity|].
  intros Hne. unfold PlayQuickStation, resolveStation, isPlaylistURL.
  rewrite (proj2 (String.eqb_neq _ _) Hne). cbn [URL blankStation].
  destruct (strings.Contains quickURL ".pls" || strings.Contains quickURL ".m3u").
  - destruct (resolvePlaylistURL net quickURL) as [err|urls]; [reflexivity|].
    repeat split.
  - repeat split.
Qed.

(* ================================================================= *)
(** * Further properties of the player *)

Lemma fallbackLoop_player :
  forall env now urls e ap tr,
    (exists err, fst (fst (fallbackLoop env now urls e ap tr)) = Some err
                 /\ snd (fst (fallbackLoop env now urls e ap tr)) = ap)
    \/ (exists u, In u urls
                  /\ fst (fst (fallbackLoop env now urls e ap tr)) = None
                  /\ snd (fst (fallbackLoop env now urls e ap tr)) = startSession now u ap).
Proof.
  intros env now urls. induction urls as [|u rest IH]; intros e ap tr; simpl.
  - left. eexists. split; reflexivity.
  - destruct (playDirectly env now u ap tr) as [[[err|] ap'] tr'] eqn:E.
    + apply playDirectly_failed in E. subst ap'.
      destruct (IH (Some err) ap tr') as [H|(u' & Hin & H)]; [left; exact H|].
      right. exists u'. split; [right; exact Hin|exact H].
    + apply playDirectly_started in E. subst ap'.
      right. exists u. simpl. split; [left; reflexivity|split; reflexivity].
Qed.

Lemma playDirectly_player :
  forall env now p ap tr,
    (exists err, fst (fst (playDirectly env now p ap tr)) = Some err
                 /\ snd (fst (playDirectly env now p ap tr)) = ap)
    \/ (fst (fst (playDirectly env now p ap tr)) = None
        /\ snd (fst (playDirectly env now p ap tr)) = startSession now p ap).
Proof.
  intros env now p ap tr.
  destruct (playDirectly env now p ap tr) as [[[err|] ap'] tr'] eqn:E; simpl.
  - left. exists err. split; [reflexivity|exact (playDirectly_failed _ _ _ _ _ _ _ _ E)].
  - right. split; [reflexivity|exact (playDirectly_started _ _ _ _ _ _ _ E)].
Qed.

(** What a start that fails leaves behind.  [Play] either refuses the
    path before touching anything, or has already stopped the session in
    progress when the source fails: then nothing plays and no song is
    current.  [PlayRadioStation] stops nothing: when every candidate
    fails the player is exactly as it was, the session in progress still
    playing, and when a candidate plays its sequence is added to the
    mixer beside the ones already there. *)
Theorem failed_start_aftermath :
  forall (env : Env) (now : Z) (ap : AudioPlayer) (tr : list Event),
    (forall filePath err ap' tr',
        Play env now filePath ap tr = (Some err, ap', tr') ->
        (ap' = ap /\ tr' = tr /\ isURL filePath = false
         /\ isFileSupported filePath = false)
        \/ (ap' = Stop ap /\ IsPlaying ap' = false /\ IsPaused ap' = false
            /\ CurrentSong ap' = ""%string))
    /\ (forall station err ap' tr',
           PlayRadioStation env now station ap tr = (Some err, ap', tr') -> ap' = ap)
    /\ (forall station ap' tr',
           PlayRadioStation env now (Some station) ap tr = (None, ap', tr') ->
           exists u, ap' = startSession now u ap
                     /\ mixer ap' = mixer ap ++ [u]
                     /\ CurrentSong ap' = u).
Proof.
  intros env now ap tr. split; [|split].
  - intros filePath err ap' tr' H. unfold Play in H.
    destruct (negb (isURL filePath) && negb (isFileSupported filePath)) eqn:Eg.
    + injection H as _ <- <-. left.
      apply andb_true_iff in Eg. destruct Eg as (Hu & Hs).
      apply negb_true_iff in Hu. apply negb_true_iff in Hs. repeat split; assumption.
    + right.
      assert (Hap : ap' = Stop ap).
      { destruct (isURL filePath).
        - unfold playWithFallback in H.
          destruct (fallbackLoop_player env now [filePath] None (Stop ap) tr)
            as [(e & _ & Hp)|(u & _ & Hr & _)]; rewrite H in *; simpl in *;
            [exact Hp|discriminate].
        - destruct (playDirectly_player env now filePath (Stop ap) tr)
            as [(e & _ & Hp)|(Hr & _)]; rewrite H in *; simpl in *;
            [exact Hp|discriminate]. }
      subst ap'. split; [reflexivity|].
      destruct ap as [c m pl pa song sp st pt d smp]. unfold Stop, IsPlaying, IsPaused.
      destruct c; repeat split.
  - intros station err ap' tr' H. unfold PlayRadioStation in H.
    destruct station as [st|]; [|injection H as _ <- _; reflexivity].
    unfold playWithFallback in H.
    match type of H with fallbackLoop _ _ ?urls _ _ _ = _ =>
      destruct (fallbackLoop_player env now urls None ap tr)
        as [(e & _ & Hp)|(u & _ & Hr & _)]; rewrite H in *; simpl in *;
        [exact Hp|discriminate]
    end.
  - intros station ap' tr' H. unfold PlayRadioStation, playWithFallback in H.
    match type of H with fallbackLoop _ _ ?urls _ _ _ = _ =>
      destruct (fallbackLoop_player env now urls None ap tr)
        as [(e & Hr & _)|(u & _ & _ & Hp)]; rewrite H in *; simpl in *;
        [discriminate|]
    end.
    exists u. subst ap'. repeat split.
Qed.

Lemma flagsAgree_startSession : forall now p ap, flagsAgree (startSession now p ap).
Proof.
  intros now p ap. unfold flagsAgree, startSession. simpl.
  split; [intros _; eexists; split; reflexivity|]. split; discriminate.
Qed.

Lemma flagsAgree_Stop : forall ap, flagsAgree (Stop ap).
Proof.
  intros [c m pl pa song sp st pt d smp]. unfold flagsAgree, Stop.
  destruct c; simpl; (split; [discriminate|]); split; intros _; try split; reflexivity.
Qed.

Lemma flagsAgree_applyOp :
  forall op ap, flagsAgree ap -> flagsAgree (applyOp op ap).
Proof.
  intros op ap Hok.
  destruct op as [env now path tr|env now station tr|now now'|now|now now'| |d| ];
    cbn [applyOp].
  - unfold Play.
    destruct (negb (isURL path) && negb (isFileSupported path)); [exact Hok|].
    destruct (isURL path).
    + unfold playWithFallback.
      destruct (fallbackLoop_player env now [path] None (Stop ap) tr)
        as [(e & _ & ->)|(u & _ & _ & ->)];
        [apply flagsAgree_Stop|apply flagsAgree_startSession].
    + destruct (playDirectly_player env now path (Stop ap) tr)
        as [(e & _ & ->)|(_ & ->)];
        [apply flagsAgree_Stop|apply flagsAgree_startSession].
  - unfold PlayRadioStation. destruct station as [st|]; [|exact Hok].
    unfold playWithFallback.
    match goal with |- flagsAgree (snd (fst (fallbackLoop _ _ ?urls _ _ _))) =>
      destruct (fallbackLoop_player env now urls None ap tr)
        as [(e & _ & ->)|(u & _ & _ & ->)];
        [exact Hok|apply flagsAgree_startSession]
    end.
  - unfold Pause. destruct (hasCtrl ap && isPlaying ap && negb (isPaused ap)) eqn:Eg;
      [|exact Hok].
    destruct ap as [[c|] m pl pa song sp st pt d smp]; simpl in Eg; [|discriminate].
    unfold flagsAgree, set_Paused. simpl.
    apply andb_true_iff in Eg. destruct Eg as (Hpl & _).
    split; [intros _; eexists; split; reflexivity|].
    split; [intros E; rewrite E in Hpl; discriminate|discriminate].
  - unfold Resume. destruct (hasCtrl ap && isPlaying ap && isPaused ap) eqn:Eg;
      [|exact Hok].
    destruct ap as [[c|] m pl pa song sp st pt d smp]; simpl in Eg; [|discriminate].
    unfold flagsAgree, set_Paused. simpl.
    split; [intros _; eexists; split; reflexivity|].
    split; [reflexivity|discriminate].
  - unfold TogglePause. destruct (hasCtrl ap && isPlaying ap) eqn:Eg; [|exact Hok].
    destruct ap as [[c|] m pl pa song sp st pt d smp]; simpl in Eg; [|discriminate].
    simpl in Eg. subst pl.
    destruct pa; unfold flagsAgree, set_Paused; simpl;
      (split; [intros _; eexists; split; reflexivity|]); split; discriminate.
  - apply flagsAgree_Stop.
  - exact Hok.
  - destruct Hok as (_ & _ & Hc). unfold flagsAgree, playbackFinished. simpl.
    split; [discriminate|]. split; [reflexivity|].
    intros Hn. split; [reflexivity|exact (proj2 (Hc Hn))].
Qed.

(** After any calls on a new player, whatever the outside world
    answered, the player's flags agree with the sink.  So [IsPlaying] is
    ``playing and not paused'' on the player's own flags; a paused player
    still has its session, reports paused and not playing; and a player
    without a control wrapper is stopped, with no current song and at
    position 0. *)
Theorem flags_agree_with_sink :
  forall ops : list Op,
    flagsAgree (called ops)
    /\ IsPlaying (called ops) = isPlaying (called ops) && negb (isPaused (called ops))
    /\ (isPaused (called ops) = true ->
        isPlaying (called ops) = true /\ IsPaused (called ops) = true
        /\ IsPlaying (called ops) = false)
    /\ (ctrl (called ops) = None ->
        IsPlaying (called ops) = false /\ IsPaused (called ops) = false
        /\ CurrentSong (called ops) = ""%string
        /\ forall now, GetPosition now (called ops) = 0%float).
Proof.
  intros ops.
  assert (Hok : flagsAgree (called ops)).
  { unfold called.
    assert (G : forall ap, flagsAgree ap ->
                           flagsAgree (fold_left (fun ap op => applyOp op ap) ops ap)).
    { induction ops as [|op ops IH]; intros ap Hap; simpl; [exact Hap|].
      apply IH. apply flagsAgree_applyOp. exact Hap. }
    apply G. unfold flagsAgree, NewAudioPlayer. simpl.
    split; [discriminate|]. split; intros _; try split; reflexivity. }
  split; [exact Hok|].
  destruct Hok as (Hpl & Hnp & Hnc).
  destruct (called ops) as [c m pl pa song sp st pt d smp].
  unfold IsPlaying, IsPaused, CurrentSong, GetPosition. simpl in *.
  split; [|split].
  - destruct pl.
    + destruct (Hpl eq_refl) as (c0 & -> & ->). reflexivity.
    + rewrite (Hnp eq_refl). destruct c; reflexivity.
  - intros ->. destruct pl; [|discriminate (Hnp eq_refl)].
    destruct (Hpl eq_refl) as (c0 & -> & ->). repeat split.
  - intros ->. destruct (Hnc eq_refl) as (-> & ->).
    rewrite (Hnp eq_refl). repeat split.
Qed.

(** The transport controls where they have nothing to do.  A second
    [Pause] and a second [Resume] change nothing; on a player that was
    stopped, or whose stream ended, [Pause], [Resume] and [TogglePause]
    change nothing; and [TogglePause] is [Resume] on a paused player and
    [Pause] on any other. *)
Theorem transport_noops :
  forall (ap : AudioPlayer) (now now' t t' : Z),
    Pause now now' (Pause t t' ap) = Pause t t' ap
    /\ Resume now (Resume t ap) = Resume t ap
    /\ (Pause now now' (Stop ap) = Stop ap
        /\ Resume now (Stop ap) = Stop ap
        /\ TogglePause now now' (Stop ap) = Stop ap)
    /\ (Pause now now' (playbackFinished ap) = playbackFinished ap
        /\ Resume now (playbackFinished ap) = playbackFinished ap
        /\ TogglePause now now' (playbackFinished ap) = playbackFinished ap)
    /\ TogglePause now now' ap
       = (if isPaused ap then Resume now ap else Pause now now' ap).
Proof.
  intros [c m pl pa song sp st pt d smp] now now' t t'.
  split; [|split; [|split; [|split]]].
  - unfold Pause, set_Paused, hasCtrl. simpl.
    destruct c as [c|]; simpl; [|reflexivity].
    destruct pl, pa; reflexivity.
  - unfold Resume, set_Paused, hasCtrl. simpl.
    destruct c as [c|]; simpl; [|reflexivity].
    destruct pl, pa; reflexivity.
  - unfold Pause, Resume, TogglePause, Stop, hasCtrl. simpl.
    destruct c; repeat split.
  - unfold Pause, Resume, TogglePause, playbackFinished, hasCtrl. simpl.
    destruct c; repeat split.
  - unfold Pause, Resume, TogglePause, hasCtrl. simpl.
    destruct c as [c|]; simpl; [|destruct pa; reflexivity].
    destruct pl, pa; reflexivity.
Qed.

(** The position does not jump.  When [Pause] takes effect, the position
    it freezes is the one read at the clock reading it took, and stays
    the same whatever the clock reads later; when [Resume] takes effect,
    the position read at its clock reading is the frozen one. *)
Theorem position_continuous :
  forall (ap : AudioPlayer) (t t' now : Z),
    (hasCtrl ap = true -> isPlaying ap = true -> isPaused ap = false ->
     IsPaused (Pause t t' ap) = true
     /\ GetPosition now (Pause t t' ap) = GetPosition t ap)
    /\ (hasCtrl ap = true -> isPlaying ap = true -> isPaused ap = true ->
        time.int64_range (pausedTime ap) ->
        IsPaused (Resume t ap) = false
        /\ GetPosition t (Resume t ap) = GetPosition now ap).
Proof.
  intros [c m pl pa song sp st pt d smp] t t' now. simpl. split.
  - intros Hc -> ->. destruct c as [c|]; [|discriminate].
    unfold Pause, GetPosition, IsPaused, set_Paused, hasCtrl. simpl.
    split; reflexivity.
  - intros Hc -> -> Hr. destruct c as [c|]; [|discriminate].
    unfold Resume, GetPosition, IsPaused, set_Paused, hasCtrl. simpl.
    split; [reflexivity|]. f_equal.
    unfold addDuration, time.subMono. rewrite Z.sub_diag.
    change (time.wrap64 0) with 0. rewrite Z.ltb_irrefl. simpl.
    rewrite Z.add_0_r. apply wrap64_small. exact Hr.
Qed.

Lemma SFdiv_zero_pos :
  forall y, posSF y -> SFdiv prec emax (S754_zero false) y = S754_zero false.
Proof.
  intros [s|s| |s m e] H; simpl in H; try contradiction;
    destruct s; try contradiction; reflexivity.
Qed.

(** A player that is neither playing nor paused reports progress 0,
    whatever the clock reads, for every duration that is a number; so
    does every player right after [Stop]. *)
Theorem GetProgress_stopped :
  forall (now : Z) (ap : AudioPlayer),
    is_nan (GetDuration ap) = false ->
    (isPlaying ap = false -> isPaused ap = false -> GetProgress now ap = 0%float)
    /\ GetProgress now (Stop ap) = 0%float.
Proof.
  assert (G : forall now ap,
             is_nan (duration ap) = false ->
             isPlaying ap = false -> isPaused ap = false ->
             GetProgress now ap = 0%float).
  { intros now ap Hn Hpl Hpa. rewrite GetProgress_unfold.
    destruct (duration ap <=? 0)%float eqn:Ele; [reflexivity|].
    assert (Hpos : posSF (Prim2SF (duration ap))).
    { apply SFltb_zero_pos.
      destruct (SFltb (S754_zero false) (Prim2SF (duration ap))) eqn:E; [reflexivity|].
      rewrite leb_spec, Prim2SF_0 in Ele.
      rewrite not_SFltb_SFleb in Ele; [discriminate|discriminate| |exact E].
      intros En. apply is_nan_spec in En. congruence. }
    assert (Hq : (GetPosition now ap / duration ap)%float = 0%float).
    { apply Prim2SF_inj. unfold GetPosition. rewrite Hpl, Hpa. simpl.
      rewrite div_spec, Prim2SF_0. apply SFdiv_zero_pos. exact Hpos. }
    cbv zeta. rewrite Hq. reflexivity. }
  intros now ap Hn. unfold GetDuration in Hn. split; [exact (G now ap Hn)|].
  apply G; destruct ap as [c m pl pa song sp st pt d smp]; unfold Stop; simpl in *;
    destruct c; try reflexivity; exact Hn.
Qed.

Lemma GetProgress_stopped_witness :
  is_nan (GetDuration (SetDuration 180 exampleSession)) = false
  /\ GetProgress 7000000000 (Stop (SetDuration 180 exampleSession)) = 0%float.
Proof.
  split; [reflexivity|].
  exact (proj2 (GetProgress_stopped 7000000000 (SetDuration 180 exampleSession) eq_refl)).
Defined.

(* ----------------------------------------------------------------- *)
(** ** File names and formats *)

Lemma list_ascii_of_string_app :
  forall s1 s2,
    list_ascii_of_string (s1 ++ s2) = list_ascii_of_string s1 ++ list_ascii_of_string s2.
Proof.
  intros s1 s2. induction s1 as [|c s1 IH]; simpl; [reflexivity|]. f_equal. exact IH.
Qed.

Lemma string_of_list_ascii_app :
  forall l1 l2,
    (string_of_list_ascii (l1 ++ l2)
     = string_of_list_ascii l1 ++ string_of_list_ascii l2)%string.
Proof.
  intros l1 l2. induction l1 as [|c l1 IH]; simpl; [reflexivity|]. f_equal. exact IH.
Qed.

(** The scan stops at the first dot when no separator comes before it. *)
Lemma extScan_dot :
  forall rbody rest acc,
    Forall (fun c => c <> "/"%char /\ c <> "."%char) rbody ->
    filepath.extScan (rbody ++ "."%char :: rest) acc = "."%char :: rev rbody ++ acc.
Proof.
  intros rbody. induction rbody as [|c r IH]; intros rest acc H; simpl.
  - reflexivity.
  - inversion H as [|? ? (Hs & Hd) Hr]; subst.
    rewrite (proj2 (Ascii.eqb_neq _ _) Hs), (proj2 (Ascii.eqb_neq _ _) Hd).
    rewrite (IH rest (c :: acc) Hr), <- app_assoc. reflexivity.
Qed.

(** What the scan returns is empty or the end of the path. *)
Lemma extScan_suffix :
  forall rpath acc,
    filepath.extScan rpath acc = []
    \/ exists rbody rest,
         rpath = rbody ++ "."%char :: rest
         /\ filepath.extScan rpath acc = "."%char :: rev rbody ++ acc.
Proof.
  intros rpath. induction rpath as [|c r IH]; intros acc; simpl; [left; reflexivity|].
  destruct (Ascii.eqb c "/") eqn:Es; [left; reflexivity|].
  destruct (Ascii.eqb c ".") eqn:Ed.
  - apply Ascii.eqb_eq in Ed. subst c. right. exists [], r. split; reflexivity.
  - destruct (IH (c :: acc)) as [H|(rbody & rest & -> & H)]; [left; exact H|].
    right. exists (c :: rbody), rest. split; [reflexivity|].
    rewrite H. simpl. rewrite <- app_assoc. reflexivity.
Qed.

Lemma Ext_is_suffix :
  forall path, exists stem, path = (stem ++ filepath.Ext path)%string.
Proof.
  intros path. unfold filepath.Ext.
  destruct (extScan_suffix (rev (list_ascii_of_string path)) [])
    as [H|(rbody & rest & Hr & H)]; rewrite H.
  - exists path. simpl. symmetry. apply sapp_nil_r.
  - exists (string_of_list_ascii (rev rest)).
    rewrite <- string_of_list_ascii_app, app_nil_r.
    apply (f_equal (@rev ascii)) in Hr. rewrite rev_involutive, rev_app_distr in Hr.
    simpl in Hr. rewrite <- app_assoc in Hr. simpl in Hr.
    rewrite <- Hr. symmetry. apply string_of_list_ascii_of_string.
Qed.

Lemma lowerByte_dot : forall c, strings.lowerByte c = "."%char -> c = "."%char.
Proof.
  intros c.
  destruct c as [[|] [|] [|] [|] [|] [|] [|] [|]]; vm_compute; intros H;
    solve [reflexivity | discriminate H].
Qed.

Lemma lowerByte_plain :
  forall c, strings.lowerByte c <> "/"%char -> strings.lowerByte c <> "."%char ->
            c <> "/"%char /\ c <> "."%char.
Proof.
  intros c Hs Hd. split; intros ->; [apply Hs|apply Hd]; reflexivity.
Qed.

Lemma ToLower_map :
  forall s, list_ascii_of_string (strings.ToLower s)
            = map strings.lowerByte (list_ascii_of_string s).
Proof.
  intros s. induction s as [|c s IH]; simpl; [reflexivity|]. f_equal. exact IH.
Qed.

Lemma lowered_plain :
  forall body target,
    target = map strings.lowerByte body ->
    Forall (fun c => c <> "/"%char /\ c <> "."%char) target ->
    Forall (fun c => c <> "/"%char /\ c <> "."%char) body.
Proof.
  intros body target -> H. apply Forall_forall. intros c Hc.
  rewrite Forall_forall in H.
  destruct (H (strings.lowerByte c) (in_map _ _ _ Hc)) as (Hs & Hd).
  apply lowerByte_plain; assumption.
Qed.

Lemma Ext_of_extension :
  forall stem ext,
    In (strings.ToLower ext) supportedExts -> filepath.Ext (stem ++ ext) = ext.
Proof.
  intros stem ext Hin.
  assert (Hshape : exists body,
             list_ascii_of_string ext = "."%char :: body
             /\ Forall (fun c => c <> "/"%char /\ c <> "."%char) body).
  { assert (Hl : In (map strings.lowerByte (list_ascii_of_string ext))
                    (map list_ascii_of_string supportedExts)).
    { rewrite <- ToLower_map. apply in_map. exact Hin. }
    destruct (list_ascii_of_string ext) as [|c0 body]; simpl in Hl.
    - repeat (destruct Hl as [Hl|Hl]; [discriminate|]). contradiction.
    - exists body.
      assert (H0 : "."%char = strings.lowerByte c0
                   /\ exists target,
                        target = map strings.lowerByte body
                        /\ Forall (fun c => c <> "/"%char /\ c <> "."%char) target).
      { destruct Hl as [Hl|[Hl|[Hl|[Hl|[]]]]]; injection Hl as H0 Hl;
          (split; [exact H0|]); eexists; (split; [exact Hl|]);
          repeat constructor; discriminate. }
      destruct H0 as (H0 & target & Ht & Hok).
      symmetry in H0. apply lowerByte_dot in H0. subst c0.
      split; [reflexivity|exact (lowered_plain body target Ht Hok)]. }
  destruct Hshape as (body & He & Hb).
  unfold filepath.Ext. rewrite list_ascii_of_string_app, He, rev_app_distr. simpl.
  rewrite <- app_assoc. simpl.
  rewrite extScan_dot by (apply Forall_rev; exact Hb).
  rewrite rev_involutive, app_nil_r, <- He. apply string_of_list_ascii_of_string.
Qed.

(** A local path is supported exactly when it ends with .mp3, .wav,
    .flac or .ogg, in any mix of upper and lower case: what comes
    before the extension, directories and dots included, does not
    matter, and a bare extension such as [.mp3] is itself a supported
    name. *)
Theorem isFileSupported_by_extension :
  forall filePath : string,
    isFileSupported filePath = true
    <-> exists stem ext,
          filePath = (stem ++ ext)%string
          /\ In (strings.ToLower ext) supportedExts.
Proof.
  intros filePath. rewrite isFileSupported_In. split.
  - intros Hin. destruct (Ext_is_suffix filePath) as (stem & Hp).
    exists stem, (filepath.Ext filePath). split; [exact Hp|exact Hin].
  - intros (stem & ext & -> & Hin). rewrite (Ext_of_extension stem ext Hin). exact Hin.
Qed.

(* ----------------------------------------------------------------- *)
(** ** What the player does with its sources *)

Lemma decodeAndStart_events :
  forall env now p d ap tr,
    exists new,
      snd (decodeAndStart env now p d ap tr) = tr ++ new
      /\ Forall (fun e => sourceOf e = p) new
      /\ Forall (fun e => isNetworkEvent e = false /\ isFileEvent e = false) new
      /\ match fst (fst (decodeAndStart env now p d ap tr)) with
         | Some _ => last new (EvOpen "") = EvClose p
         | None => existsb isClose new = false
                   /\ last new (EvOpen "") = EvDecode d p
         end.
Proof.
  intros env now p d ap tr. unfold decodeAndStart.
  destruct (Decode env tr d p); simpl; eexists; (split; [reflexivity|]);
    repeat split; repeat constructor.
Qed.

Lemma playDirectly_events :
  forall env now p ap tr,
    exists new,
      snd (playDirectly env now p ap tr) = tr ++ new
      /\ Forall (fun e => sourceOf e = p) new
      /\ (isURL p = true -> Forall (fun e => isFileEvent e = false) new)
      /\ (isURL p = false -> Forall (fun e => isNetworkEvent e = false) new)
      /\ (opens env tr p = false ->
          fst (fst (playDirectly env now p ap tr)) <> None
          /\ existsb isClose new = false)
      /\ (opens env tr p = true ->
          match fst (fst (playDirectly env now p ap tr)) with
          | Some _ => last new (EvOpen "") = EvClose p
          | None => existsb isClose new = false
          end).
Proof.
  intros env now p ap tr. unfold playDirectly, opens.
  destruct (isURL p) eqn:Eu.
  - destruct (http_NewRequest env p) as [e|].
    + simpl. exists [EvNewRequest p]. split; [reflexivity|].
      repeat split; try discriminate; repeat constructor.
    + destruct (client_Do env (tr ++ [EvNewRequest p]) p) as [e|resp].
      * simpl. exists [EvNewRequest p; EvConnect p].
        split; [rewrite <- app_assoc; reflexivity|].
        repeat split; try discriminate; repeat constructor.
      * destruct (negb (StatusCode resp =? 200)).
        -- simpl. exists [EvNewRequest p; EvConnect p; EvClose p].
           split; [rewrite <- !app_assoc; reflexivity|].
           repeat split; try discriminate; repeat constructor.
        -- match goal with |- context [decodeAndStart env now p ?d ap ?tr2] =>
             destruct (decodeAndStart_events env now p d ap tr2)
               as (new & Hs & Hsrc & Hkind & Hend)
           end.
           exists ([EvNewRequest p; EvConnect p] ++ new).
           split; [rewrite Hs, <- !app_assoc; reflexivity|].
           split; [repeat constructor; exact Hsrc|].
           split; [intros _; repeat constructor;
                   eapply Forall_impl; [|exact Hkind]; intros e He; exact (proj2 He)|].
           split; [discriminate|]. split; [discriminate|]. intros _.
           match type of Hend with match ?r with _ => _ end =>
             destruct r; simpl;
               [destruct new; [discriminate Hend|exact Hend]|exact (proj1 Hend)]
           end.
  - destruct (os_Open env tr p) as [e|].
    + simpl. exists [EvOpen p]. split; [reflexivity|].
      repeat split; try discriminate; repeat constructor.
    + assert (G : forall d,
                 exists new,
                   snd (decodeAndStart env now p d ap (tr ++ [EvOpen p])) = tr ++ new
                   /\ Forall (fun e => sourceOf e = p) new
                   /\ (false = true -> Forall (fun e => isFileEvent e = false) new)
                   /\ (false = false -> Forall (fun e => isNetworkEvent e = false) new)
                   /\ (true = false ->
                       fst (fst (decodeAndStart env now p d ap (tr ++ [EvOpen p]))) <> None
                       /\ existsb isClose new = false)
                   /\ (true = true ->
                       match fst (fst (decodeAndStart env now p d ap (tr ++ [EvOpen p]))) with
                       | Some _ => last new (EvOpen "") = EvClose p
                       | None => existsb isClose new = false
                       end)).
      { intros d.
        destruct (decodeAndStart_events env now p d ap (tr ++ [EvOpen p]))
          as (new & Hs & Hsrc & Hkind & Hend).
        exists (EvOpen p :: new).
        split; [rewrite Hs, <- app_assoc; reflexivity|].
        split; [constructor; [reflexivity|exact Hsrc]|].
        split; [discriminate|].
        split; [intros _; constructor; [reflexivity|];
                eapply Forall_impl; [|exact Hkind]; intros e He; exact (proj1 He)|].
        split; [discriminate|]. intros _.
        match type of Hend with match ?r with _ => _ end =>
          destruct r; simpl;
            [destruct new; [discriminate Hend|exact Hend]|exact (proj1 Hend)]
        end. }
      destruct (String.eqb (strings.ToLower (filepath.Ext p)) ".mp3"); [apply G|].
      destruct (String.eqb (strings.ToLower (filepath.Ext p)) ".wav"); [apply G|].
      destruct (String.eqb (strings.ToLower (filepath.Ext p)) ".flac"); [apply G|].
      destruct (String.eqb (strings.ToLower (filepath.Ext p)) ".ogg"); [apply G|].
      simpl. exists [EvOpen p; EvClose p].
      split; [rewrite <- app_assoc; reflexivity|].
      repeat split; try discriminate; repeat constructor.
Qed.

(** [playDirectly] never leaves a reader behind on a failure: when it
    got a reader on its source and then fails, on a bad status, an
    unknown format or a decoding error, the last thing it does is close
    that reader; it closes nothing when it got no reader, and nothing
    when playback starts, the reader then feeding the stream.  All it
    does, it does on the source it was given, after what was done
    before. *)
Theorem playDirectly_closes_reader :
  forall (env : Env) (now : Z) (filePath : string) (ap : AudioPlayer) (tr : list Event),
    exists new,
      snd (playDirectly env now filePath ap tr) = tr ++ new
      /\ Forall (fun e => sourceOf e = filePath) new
      /\ (opens env tr filePath = false ->
          fst (fst (playDirectly env now filePath ap tr)) <> None
          /\ existsb isClose new = false)
      /\ (opens env tr filePath = true ->
          match fst (fst (playDirectly env now filePath ap tr)) with
          | Some _ => last new (EvOpen "") = EvClose filePath
          | None => existsb isClose new = false
          end).
Proof.
  intros env now filePath ap tr.
  destruct (playDirectly_events env now filePath ap tr)
    as (new & Hs & Hsrc & _ & _ & Hno & Hyes).
  exists new. repeat split; try assumption; apply Hno; assumption.
Qed.

Lemma fallbackLoop_events :
  forall env now urls e ap tr,
    exists new,
      snd (fallbackLoop env now urls e ap tr) = tr ++ new
      /\ Forall (fun ev => In (sourceOf ev) urls) new
      /\ (Forall (fun u => isURL u = true) urls ->
          Forall (fun ev => isFileEvent ev = false) new).
Proof.
  intros env now urls. induction urls as [|u rest IH]; intros e ap tr; simpl.
  - exists []. rewrite app_nil_r. repeat split; constructor.
  - destruct (playDirectly_events env now u ap tr)
      as (new1 & Hs1 & Hsrc1 & Hurl1 & _).
    destruct (playDirectly env now u ap tr) as [[[err|] ap'] tr'] eqn:E; simpl in Hs1.
    + destruct (IH (Some err) ap' tr') as (new2 & Hs2 & Hsrc2 & Hurl2).
      exists (new1 ++ new2). rewrite Hs2, Hs1, app_assoc.
      split; [reflexivity|]. split.
      * apply Forall_app. split.
        -- eapply Forall_impl; [|exact Hsrc1]. intros ev ->. left. reflexivity.
        -- eapply Forall_impl; [|exact Hsrc2]. intros ev Hin. right. exact Hin.
      * intros Hall. inversion Hall; subst. apply Forall_app. split; auto.
    + exists new1. simpl. split; [exact Hs1|]. split.
      * eapply Forall_impl; [|exact Hsrc1]. intros ev ->. left. reflexivity.
      * intros Hall. inversion Hall; subst. auto.
Qed.

(** [Play] keeps the network and the file system apart: on a URL it
    opens no file, on a local path it makes no request, and in both
    cases everything it does is done on the source it was given.
    [PlayRadioStation] touches nothing but the station's candidates.
    Both only add to what was done before. *)
Theorem Play_routing :
  forall (env : Env) (now : Z) (ap : AudioPlayer) (tr : list Event),
    (forall filePath,
        exists new,
          snd (Play env now filePath ap tr) = tr ++ new
          /\ Forall (fun e => sourceOf e = filePath) new
          /\ (isURL filePath = true -> Forall (fun e => isFileEvent e = false) new)
          /\ (isURL filePath = false -> Forall (fun e => isNetworkEvent e = false) new))
    /\ (forall station,
           exists new,
             snd (PlayRadioStation env now station ap tr) = tr ++ new
             /\ forall st, station = Some st ->
                  Forall (fun e => In (sourceOf e)
                                      (URL st :: StreamURL st :: StreamURLs st)) new).
Proof.
  intros env now ap tr. split.
  - intros filePath. unfold Play.
    destruct (negb (isURL filePath) && negb (isFileSupported filePath)).
    + exists []. simpl. rewrite app_nil_r. repeat split; constructor.
    + destruct (isURL filePath) eqn:Eu.
      * destruct (fallbackLoop_events env now [filePath] None (Stop ap) tr)
          as (new & Hs & Hsrc & Hurl).
        exists new. unfold playWithFallback. split; [exact Hs|]. split.
        -- eapply Forall_impl; [|exact Hsrc]. intros e [H|[]]. symmetry. exact H.
        -- split; [|discriminate]. intros _. apply Hurl. repeat constructor. exact Eu.
      * destruct (playDirectly_events env now filePath (Stop ap) tr)
          as (new & Hs & Hsrc & _ & Hfile & _).
        exists new. split; [exact Hs|]. split; [exact Hsrc|].
        split; [discriminate|intros _; exact (Hfile Eu)].
  - intros [st|]; unfold PlayRadioStation.
    + match goal with |- context [playWithFallback env now ?urls ap tr] =>
        destruct (fallbackLoop_events env now urls None ap tr) as (new & Hs & Hsrc & _);
        assert (Hsub : forall u, In u urls -> In u (URL st :: StreamURL st :: StreamURLs st))
      end.
      { intros u Hu. destruct (0 <? List.length (StreamURLs st))%nat.
        - right. right. exact Hu.
        - destruct (negb (String.eqb (StreamURL st) "")); destruct Hu as [<-|[]].
          + right. left. reflexivity.
          + left. reflexivity. }
      exists new. unfold playWithFallback. split; [exact Hs|].
      intros st0 E. injection E as <-.
      eapply Forall_impl; [|exact Hsrc]. intros e He. apply Hsub. exact He.
    + exists []. simpl. rewrite app_nil_r. split; [reflexivity|discriminate].
Qed.

(* ----------------------------------------------------------------- *)
(** ** The tap on silence, and its window *)

Lemma silent_zero : forall x, silent x <-> exists s, Prim2SF x = S754_zero s.
Proof.
  intros x. unfold silent. rewrite eqb_spec, Prim2SF_0. split.
  - destruct (Prim2SF x) as [s|s| |s m e]; simpl; try discriminate.
    + intros _. exists s. reflexivity.
    + destruct s; discriminate.
    + destruct s; discriminate.
  - intros (s & ->). destruct s; reflexivity.
Qed.

Lemma mix_silent : forall l r, silent l -> silent r -> silent ((l + r) / 2)%float.
Proof.
  intros l r Hl Hr. apply silent_zero in Hl, Hr. apply silent_zero.
  destruct Hl as (sl & Hl), Hr as (sr & Hr).
  rewrite div_spec, add_spec, Hl, Hr, Prim2SF_2.
  destruct sl, sr; eexists; reflexivity.
Qed.

Lemma sumSquares_silent :
  forall l, Forall silent l ->
            fold_left (fun sum x => (sum + x * x)%float) l 0%float = 0%float.
Proof.
  intros l. induction l as [|x l IH]; intros H; simpl; [reflexivity|].
  inversion H as [|? ? Hx Hl]; subst.
  assert (E : (0 + x * x)%float = 0%float).
  { apply Prim2SF_inj. apply silent_zero in Hx. destruct Hx as (s & Hx).
    rewrite add_spec, mul_spec, Hx, Prim2SF_0. destruct s; reflexivity. }
  rewrite E. exact (IH Hl).
Qed.

Lemma bandRMS_silent :
  forall buf bandSize band,
    Forall silent buf ->
    (0 < Nat.min (band * bandSize + bandSize) (List.length buf) - band * bandSize)%nat ->
    Z.of_nat (List.length buf) < 2 ^ 63 ->
    bandRMS buf bandSize band = 0%float.
Proof.
  intros buf bandSize band Hbuf Hcount Hlen. unfold bandRMS.
  set (startIdx := (band * bandSize)%nat) in *.
  set (endIdx := Nat.min (startIdx + bandSize) (List.length buf)) in *.
  rewrite sumSquares_silent
    by (apply Forall_firstn', Forall_skipn'; exact Hbuf).
  apply Prim2SF_inj. rewrite sqrt_spec, div_spec, Prim2SF_0.
  destruct (float64_of_int_pos (Z.of_nat (endIdx - startIdx))) as (m & e & E).
  { pose proof (Nat.le_min_r (startIdx + bandSize) (List.length buf)). lia. }
  rewrite E. reflexivity.
Qed.

Lemma band_count :
  forall len band,
    (24 <= len)%nat -> (band < 24)%nat ->
    (0 < Nat.min (band * (len / 24) + len / 24) len - band * (len / 24))%nat.
Proof.
  intros len band Hlen Hband.
  pose proof (Nat.Div0.mul_div_le len 24) as Hle.
  assert (Hbs : (1 <= len / 24)%nat) by (apply Nat.div_le_lower_bound; lia).
  set (bs := (len / 24)%nat) in *.
  assert (Hin : (band * bs + bs <= len)%nat) by nia.
  rewrite Nat.min_l by exact Hin. lia.
Qed.

(** Silence in, silence out.  Mixing a silent frame gives a silent
    sample; a window of silent samples is published as 24 zeros; and in
    every state the player and its taps reach while the sources deliver
    only silent frames, [GetAudioSamples] returns 24 zeros. *)
Theorem silence_gives_zeros :
  forall (S : Type) (inst : beep_Streamer S),
    (forall f, silentFrame f -> silent (mixFrame f))
    /\ (forall buf pl h,
           (24 <= List.length buf)%nat -> Z.of_nat (List.length buf) < 2 ^ 63 ->
           Forall silent buf ->
           analyzeAndStore buf (Some pl) h
           = (Some (set_audioSamples (Some (List.length h)) pl),
              h ++ [repeat 0%float 24]))
    /\ (forall sys : System S,
           reachable silentFrame sys ->
           contents (GetAudioSamples (player sys) (heap sys)) = repeat 0%float 24).
Proof.
  intros S inst. split; [|split].
  - intros (l & r) (Hl & Hr). exact (mix_silent l r Hl Hr).
  - intros buf pl h H24 Hbig Hbuf. rewrite analyzeAndStore_publishes by exact H24.
    f_equal. f_equal. f_equal.
    change (repeat 0%float 24) with (map (fun _ : nat => 0%float) (seq 0 numBands)).
    apply map_ext_in. intros band Hb. apply in_seq in Hb.
    apply bandRMS_silent; [exact Hbuf| |exact Hbig].
    apply band_count; [exact H24|unfold numBands in Hb; lia].
  - intros sys Hreach.
    assert (Hinv : invariant (fun x => x = 0%float) silent sys).
    { apply (@reachable_invariant S inst silentFrame); [| |exact Hreach].
      - intros l r (Hl & Hr). exact (mix_silent l r Hl Hr).
      - intros buf band Hbuf Hlen Hbig Hband.
        apply bandRMS_silent; [exact Hbuf| |exact Hbig].
        apply band_count; [lia|exact Hband]. }
    destruct Hinv as (Hsnap & _ & _). unfold snapshotOK in Hsnap.
    rewrite contents_GetAudioSamples.
    destruct (audioSamples (player sys)) as [a|]; [|reflexivity].
    destruct Hsnap as (_ & _ & H24 & Hz).
    assert (Hz' : Forall (eq 0%float) (deref (heap sys) a))
      by (eapply Forall_impl; [|exact Hz]; intros x Hx; symmetry; exact Hx).
    apply Forall_eq_repeat in Hz'. rewrite H24 in Hz'. exact Hz'.
Qed.

Lemma mixFrames_map :
  forall n samples,
    (n <= List.length samples)%nat ->
    mixFrames samples n = Some (map mixFrame (firstn n samples)).
Proof.
  intros n. induction n as [|n IH]; intros samples H; simpl; [reflexivity|].
  destruct samples as [|(l, r) rest]; simpl in H; [lia|].
  rewrite (IH rest) by lia. reflexivity.
Qed.

(** The window of the tap.  A pull that fails or streams nothing leaves
    the window, the player and the heap alone.  Any other pull appends
    the mono mix of the frames streamed, in order, to the window; while
    the window stays short of its size nothing is published; once it
    reaches the size the whole window, the samples beyond the size
    included, is analysed and the window is emptied.  The size itself
    never changes. *)
Theorem window_accumulates :
  forall (S : Type) (inst : beep_Streamer S) (s : SampleCaptureStreamer S)
         (ap : option AudioPlayer) (h : Heap) (samples : list Sample),
    exists p : Pulled S,
      SampleCaptureStreamer_Stream s ap h samples = Some p
      /\ bufferSize (out_tap p) = bufferSize s
      /\ (out_ok p = false \/ out_n p <= 0 ->
          sampleBuffer (out_tap p) = sampleBuffer s
          /\ out_player p = ap /\ out_heap p = h)
      /\ (out_ok p = true -> 0 < out_n p ->
          Z.of_nat (List.length (sampleBuffer s)) + out_n p < bufferSize s ->
          sampleBuffer (out_tap p)
          = sampleBuffer s ++ map mixFrame (firstn (Z.to_nat (out_n p)) (out_samples p))
          /\ out_player p = ap /\ out_heap p = h)
      /\ (out_ok p = true -> 0 < out_n p ->
          bufferSize s <= Z.of_nat (List.length (sampleBuffer s)) + out_n p ->
          sampleBuffer (out_tap p) = []
          /\ (out_player p, out_heap p)
             = analyzeAndStore
                 (sampleBuffer s
                  ++ map mixFrame (firstn (Z.to_nat (out_n p)) (out_samples p)))
                 ap h).
Proof.
  intros S inst s ap h samples.
  destruct (Stream (streamer s) samples) as [[[out n] ok] src'] eqn:E.
  destruct (Stream_contract _ _ _ _ _ _ _ _ E) as (Hlen & Hn).
  destruct (Stream_cases S inst s ap h samples _ _ _ _ E)
    as [(Hg & H)|(mixed & Hg & Hm & Hl & _ & H)]; rewrite H;
    eexists; (split; [reflexivity|]).
  - cbn [out_ok out_n out_tap out_player out_heap out_samples bufferSize sampleBuffer].
    split; [reflexivity|]. split; [intros _; repeat split|].
    split; intros Hok Hpos; rewrite Hok in Hg; simpl in Hg;
      apply Z.ltb_ge in Hg; lia.
  - apply andb_true_iff in Hg. destruct Hg as (Hok & Hpos). apply Z.ltb_lt in Hpos.
    rewrite mixFrames_map in Hm by lia. injection Hm as <-.
    assert (Hlen' : Z.of_nat (List.length
                      (sampleBuffer s ++ map mixFrame (firstn (Z.to_nat n) out)))
                    = Z.of_nat (List.length (sampleBuffer s)) + n).
    { rewrite length_app, Hl. lia. }
    destruct (bufferSize s <=? Z.of_nat (List.length
                (sampleBuffer s ++ map mixFrame (firstn (Z.to_nat n) out)))) eqn:Ef;
      cbn [out_ok out_n out_tap out_player out_heap out_samples bufferSize sampleBuffer].
    + apply Z.leb_le in Ef. split; [reflexivity|].
      split; [intros [Hk|Hk]; [congruence|lia]|].
      split; [intros _ _ Hshort; lia|]. intros _ _ _. split; [reflexivity|].
      destruct (analyzeAndStore _ ap h); reflexivity.
    + apply Z.leb_gt in Ef. split; [reflexivity|].
      split; [intros [Hk|Hk]; [congruence|lia]|].
      split; [intros _ _ _; repeat split|]. intros _ _ Hfull. lia.
Qed.

(* ================================================================= *)
(** * Further properties of the playlist *)




Lemma Seconds_0 : time.Seconds 0 = 0%float.
Proof. reflexivity. Qed.

(** When [playCurrentTrack] returns true, the index is inside the
    playlist and the song there is the one playing: it is the model's
    playing song and title, the player holds its path as current song
    and its duration, plays, is not paused, and stands at position 0 at
    the clock reading of the start.  It returns false without touching
    anything when the index is outside the playlist. *)
Theorem playCurrentTrack_success :
  forall (env : Env) (now : Z) (m : model) (tr : list Event),
    (fst (fst (playCurrentTrack env now m tr)) = true ->
     exists song,
       0 <= currentTrackIndex m < Z.of_nat (List.length (currentPlaylist m))
       /\ nth_error (currentPlaylist m) (Z.to_nat (currentTrackIndex m)) = Some song
       /\ playingSong (snd (fst (playCurrentTrack env now m tr))) = Some song
       /\ playing (snd (fst (playCurrentTrack env now m tr))) = Song.Title song
       /\ CurrentSong (audioPlayer (snd (fst (playCurrentTrack env now m tr))))
          = Song.FilePath song
       /\ GetDuration (audioPlayer (snd (fst (playCurrentTrack env now m tr))))
          = Song.DurationSecs song
       /\ IsPlaying (audioPlayer (snd (fst (playCurrentTrack env now m tr)))) = true
       /\ IsPaused (audioPlayer (snd (fst (playCurrentTrack env now m tr)))) = false
       /\ GetPosition now (audioPlayer (snd (fst (playCurrentTrack env now m tr))))
          = 0%float)
    /\ (currentTrackIndex m < 0
        \/ Z.of_nat (List.length (currentPlaylist m)) <= currentTrackIndex m ->
        playCurrentTrack env now m tr = (false, m, tr)).
Proof.
  intros env now m tr. unfold playCurrentTrack. split.
  - destruct (0 <=? currentTrackIndex m) eqn:E0; [|discriminate].
    destruct (currentTrackIndex m <? Z.of_nat (List.length (currentPlaylist m))) eqn:E1;
      [|discriminate].
    apply Z.leb_le in E0. apply Z.ltb_lt in E1. cbn [andb].
    destruct (nth_error (currentPlaylist m) (Z.to_nat (currentTrackIndex m)))
      as [song|]; [|discriminate].
    destruct (Play env now (Song.FilePath song) (audioPlayer m) tr)
      as [[[err|] ap'] tr'] eqn:EP; [discriminate|].
    intros _. apply Play_started in EP. subst ap'.
    exists song. cbn [fst snd audioPlayer playing playingSong].
    split; [lia|]. repeat split.
    unfold GetPosition, SetDuration, startSession. simpl.
    unfold addDuration, time.subMono. rewrite Z.sub_diag.
    change (time.wrap64 0) with 0. rewrite Z.ltb_irrefl. simpl. reflexivity.
  - intros [H|H].
    + assert (E : (0 <=? currentTrackIndex m) = false) by (apply Z.leb_gt; lia).
      rewrite E. reflexivity.
    + assert (E : (currentTrackIndex m <? Z.of_nat (List.length (currentPlaylist m)))
                  = false) by (apply Z.ltb_ge; lia).
      rewrite E, andb_false_r. reflexivity.
Qed.

(** When the track counts as finished.  Never while the model has no
    playing song.  With one: as soon as the player is neither playing
    nor paused, so after [Stop] and after the natural end of a stream
    that was not paused; and while the duration is unknown (0, negative
    or not a number) in that case only, whatever the position. *)
Theorem isTrackFinished_cases :
  forall (now : Z) (m : model),
    (playingSong m = None -> isTrackFinished now m = false)
    /\ (playingSong m <> None ->
        (IsPlaying (audioPlayer m) = false -> IsPaused (audioPlayer m) = false ->
         isTrackFinished now m = true)
        /\ isTrackFinished now (set_audioPlayer (Stop (audioPlayer m)) m) = true
        /\ (IsPaused (audioPlayer m) = false ->
            isTrackFinished now (set_audioPlayer (playbackFinished (audioPlayer m)) m)
            = true)
        /\ ((0 <? GetDuration (audioPlayer m))%float = false ->
            isTrackFinished now m
            = negb (IsPlaying (audioPlayer m)) && negb (IsPaused (audioPlayer m)))).
Proof.
  intros now m. unfold isTrackFinished. split.
  - intros ->. reflexivity.
  - intros Hsong. destruct (playingSong m) as [song|] eqn:Es; [|contradiction].
    cbn [playingSong set_audioPlayer audioPlayer]. rewrite Es.
    split; [intros -> ->; reflexivity|].
    split; [|split].
    + destruct (audioPlayer m) as [c mx pl pa sg sp st pt d smp].
      unfold Stop, IsPlaying, IsPaused. destruct c; reflexivity.
    + destruct (audioPlayer m) as [c mx pl pa sg sp st pt d smp].
      unfold playbackFinished, IsPlaying, IsPaused. simpl.
      destruct c as [c|]; [|reflexivity]. intros ->. reflexivity.
    + intros Hd. rewrite Hd.
      destruct (negb (IsPlaying (audioPlayer m)) && negb (IsPaused (audioPlayer m)));
        reflexivity.
Qed.

(* ================================================================= *)
(** * The position is a time *)

Lemma float64_of_int_nonneg :
  forall n, 0 <= n < 2 ^ 63 -> nonnegSF (Prim2SF (time.float64_of_int n)).
Proof.
  intros n Hn. destruct (Z.eq_dec n 0) as [->|Hne]; [exact I|].
  destruct (float64_of_int_pos n) as (m & e & E); [lia|]. rewrite E. exact I.
Qed.

Lemma Seconds_nonneg :
  forall d, 0 <= d <= time.maxDuration -> nonnegSF (Prim2SF (time.Seconds d)).
Proof.
  intros d Hd. unfold time.Seconds. rewrite add_spec, div_spec.
  assert (Hmax : time.maxDuration = 2 ^ 63 - 1) by reflexivity.
  assert (Hs : time.Second = 1000000000) by reflexivity.
  assert (Hq : 0 <= Z.quot d time.Second <= d).
  { rewrite Hs. split; [apply Z.quot_pos; lia|].
    apply Z.quot_le_upper_bound; lia. }
  assert (Hr : 0 <= Z.rem d time.Second < time.Second).
  { apply Z.rem_bound_pos; rewrite ?Hs; lia. }
  apply SFadd_nonneg.
  - apply float64_of_int_nonneg. lia.
  - change (Prim2SF 1e9) with (S754_finite false 8388608000000000 (-23)).
    apply SFdiv_nonneg. apply float64_of_int_nonneg.
    assert (Hb : time.Second < 2 ^ 63) by (rewrite Hs; lia). lia.
Qed.

(** During a session started by [Play], with a clock that does not go
    back, the position is a finite number and never negative, whatever
    pause, resume and toggle commands were issued. *)
Theorem GetPosition_never_negative :
  forall (env : Env) (t0 : Z) (path : string) (ap : AudioPlayer) (tr : list Event)
         (ap1 : AudioPlayer) (tr1 : list Event) (cmds : list Command) (now : Z),
    Play env t0 path ap tr = (None, ap1, tr1) ->
    inOrder t0 cmds now -> now - t0 <= time.maxDuration ->
    (0 <=? GetPosition now (run cmds ap1))%float = true
    /\ (GetPosition now (run cmds ap1) <? 0)%float = false
    /\ finite64 (GetPosition now (run cmds ap1)).
Proof.
  intros env t0 path ap tr ap1 tr1 cmds now HPlay Hord Hend.
  apply Play_started in HPlay. subst ap1.
  pose proof (tracks_startSession t0 path (Stop ap)) as Hstart.
  destruct (tracks_run t0 now cmds t0 _ _ Hend Hstart Hord) as (t' & Ht' & Htr).
  destruct (GetPosition_tracks _ _ _ _ _ Htr Ht' Hend) as (Hpos & _).
  assert (Hmax : time.maxDuration = 2 ^ 63 - 1) by reflexivity.
  assert (Hel : 0 <= timer_elapsed now (timer_run cmds (timer_start t0))
                <= time.maxDuration
                /\ time.int64_range (pausedTime (run cmds (startSession t0 path (Stop ap))))).
  { destruct Htr as (_ & _ & Hpt & Hacc & Hrun). unfold timer_elapsed, time.int64_range.
    rewrite Hpt.
    destruct (runningSince (timer_run cmds (timer_start t0))) as [ts|].
    - destruct Hrun as (_ & _ & Hts & Hle). lia.
    - destruct Hrun as (_ & Hle). lia. }
  destruct Hel as (Hel & Hrange).
  pose proof (Seconds_nonneg _ Hel) as Hnn. rewrite <- Hpos in Hnn.
  split; [|split].
  - rewrite leb_spec, Prim2SF_0. apply nonneg_leb. exact Hnn.
  - rewrite ltb_spec, Prim2SF_0. apply nonneg_not_ltb. exact Hnn.
  - apply GetPosition_finite. exact Hrange.
Qed.

Lemma GetPosition_never_negative_witness :
  Play (worldWith []) 3 "/music/a.mp3" NewAudioPlayer []
  = (None, exampleSession, [EvOpen "/music/a.mp3"; EvDecode MP3 "/music/a.mp3"])
  /\ (0 <=? GetPosition 9000000003
              (run [CmdPause 2000000003 2000000004; CmdResume 5000000003]
                   exampleSession))%float = true.
Proof.
  assert (H : Play (worldWith []) 3 "/music/a.mp3" NewAudioPlayer []
              = (None, exampleSession,
                 [EvOpen "/music/a.mp3"; EvDecode MP3 "/music/a.mp3"]))
    by reflexivity.
  split; [exact H|].
  refine (proj1 (GetPosition_never_negative _ 3 _ _ _ _ _
                   [CmdPause 2000000003 2000000004; CmdResume 5000000003]
                   9000000003 H _ _)).
  - simpl. lia.
  - vm_compute. discriminate.
Defined.

(* ================================================================= *)
(** * The genres of the library *)

Lemma genreKeys_spec :
  forall l keys,
    NoDup keys ->
    NoDup (genreKeys l keys)
    /\ forall g, In g (genreKeys l keys)
                 <-> In g keys
                     \/ (g <> ""%string /\ exists st, In st l /\ Genre st = g).
Proof.
  intros l. induction l as [|station l IH]; intros keys Hnd; simpl.
  - split; [exact Hnd|]. intros g. split; [intros H; left; exact H|].
    intros [H|(_ & st & [] & _)]. exact H.
  - destruct (String.eqb (Genre station) "") eqn:Ee; simpl.
    + apply String.eqb_eq in Ee. destruct (IH keys Hnd) as (Hn & Hin).
      split; [exact Hn|]. intros g. rewrite Hin. split.
      * intros [H|(Hg & st & Hst & E)]; [left; exact H|].
        right. split; [exact Hg|]. exists st. split; [right; exact Hst|exact E].
      * intros [H|(Hg & st & [<-|Hst] & E)]; [left; exact H|congruence|].
        right. split; [exact Hg|]. exists st. split; assumption.
    + apply String.eqb_neq in Ee.
      destruct (existsb (String.eqb (Genre station)) keys) eqn:Ex.
      * apply existsb_exists in Ex. destruct Ex as (k & Hk & Ek).
        apply String.eqb_eq in Ek. subst k.
        destruct (IH keys Hnd) as (Hn & Hin).
        split; [exact Hn|]. intros g. rewrite Hin. split.
        -- intros [H|(Hg & st & Hst & E)]; [left; exact H|].
           right. split; [exact Hg|]. exists st. split; [right; exact Hst|exact E].
        -- intros [H|(Hg & st & [<-|Hst] & E)]; [left; exact H|left; rewrite <- E; exact Hk|].
           right. split; [exact Hg|]. exists st. split; assumption.
      * assert (Hfresh : ~ In (Genre station) keys).
        { intros Hk. assert (Ht : existsb (String.eqb (Genre station)) keys = true).
          { apply existsb_exists. exists (Genre station).
            split; [exact Hk|apply String.eqb_refl]. }
          congruence. }
        assert (Hnd' : NoDup (keys ++ [Genre station])).
        { apply NoDup_app; [exact Hnd|repeat constructor; intros []|].
          intros x Hx [<-|[]]. contradiction. }
        destruct (IH _ Hnd') as (Hn & Hin).
        split; [exact Hn|]. intros g. rewrite Hin, in_app_iff. simpl. split.
        -- intros [[H|[<-|[]]]|(Hg & st & Hst & E)].
           ++ left. exact H.
           ++ right. split; [exact Ee|]. exists station. split; [left|]; reflexivity.
           ++ right. split; [exact Hg|]. exists st. split; [right; exact Hst|exact E].
        -- intros [H|(Hg & st & [<-|Hst] & E)].
           ++ left. left. exact H.
           ++ left. right. left. exact E.
           ++ right. split; [exact Hg|]. exists st. split; assumption.
Qed.

Lemma insertString_perm : forall s l, Permutation (insertString s l) (s :: l).
Proof.
  intros s l. induction l as [|x l IH]; simpl; [reflexivity|].
  destruct (String.leb s x); [reflexivity|].
  rewrite IH. apply perm_swap.
Qed.

Lemma sort_Strings_perm : forall l, Permutation (sort_Strings l) l.
Proof.
  intros l. induction l as [|s l IH]; simpl; [reflexivity|].
  rewrite insertString_perm. constructor. exact IH.
Qed.

Lemma insertString_sorted :
  forall s l,
    Sorted (fun a b => String.leb a b = true) l ->
    Sorted (fun a b => String.leb a b = true) (insertString s l).
Proof.
  intros s l. induction l as [|x l IH]; intros H; simpl.
  - repeat constructor.
  - destruct (String.leb s x) eqn:E.
    + constructor; [exact H|constructor; exact E].
    + inversion H as [|? ? Hl Hhd]; subst.
      constructor; [exact (IH Hl)|].
      assert (Hxs : String.leb x s = true)
        by (destruct (String.leb_total s x) as [H1|H1]; [congruence|exact H1]).
      destruct l as [|y l]; simpl.
      * constructor. exact Hxs.
      * destruct (String.leb s y); constructor; [exact Hxs|].
        inversion Hhd; subst. assumption.
Qed.

Lemma sort_Strings_sorted :
  forall l, Sorted (fun a b => String.leb a b = true) (sort_Strings l).
Proof.
  intros l. induction l as [|s l IH]; simpl; [constructor|].
  apply insertString_sorted. exact IH.
Qed.

Lemma leb_neq_ltb :
  forall a b, String.leb a b = true -> a <> b -> String.ltb a b = true.
Proof.
  intros a b Hle Hne. unfold String.leb, String.ltb in *.
  destruct (String.compare a b) eqn:E; [|reflexivity|discriminate].
  apply String.compare_eq_iff in E. contradiction.
Qed.

Lemma sorted_strict :
  forall l,
    Sorted (fun a b => String.leb a b = true) l -> NoDup l ->
    Sorted (fun a b => String.ltb a b = true) l.
Proof.
  intros l Hs. induction Hs as [|a l Hl IH Hhd]; intros Hnd; [constructor|].
  inversion Hnd as [|? ? Hnin Hnd']; subst.
  constructor; [exact (IH Hnd')|].
  destruct Hhd as [|b l Hab]; constructor.
  apply leb_neq_ltb; [exact Hab|]. intros ->. apply Hnin. left. reflexivity.
Qed.

(** [GetGenres] returns the genres of the stations that are not empty,
    each exactly once, in strictly ascending byte order, whatever order
    the runtime ranges over the map in. *)
Theorem GetGenres_sorted_unique :
  forall (rangeOrder : list string -> list string) (rl : RadioLibrary),
    (forall keys, Permutation (rangeOrder keys) keys) ->
    Sorted (fun a b => String.ltb a b = true) (GetGenres rangeOrder rl)
    /\ NoDup (GetGenres rangeOrder rl)
    /\ (forall g,
           In g (GetGenres rangeOrder rl)
           <-> g <> ""%string /\ exists st, In st (stations rl) /\ Genre st = g).
Proof.
  intros rangeOrder rl Hperm. unfold GetGenres.
  destruct (genreKeys_spec (stations rl) [] (NoDup_nil _)) as (Hnd & Hin).
  assert (HP : Permutation (sort_Strings (rangeOrder (genreKeys (stations rl) [])))
                           (genreKeys (stations rl) [])).
  { rewrite sort_Strings_perm. apply Hperm. }
  assert (Hnd' : NoDup (sort_Strings (rangeOrder (genreKeys (stations rl) []))))
    by (eapply Permutation_NoDup; [symmetry; exact HP|exact Hnd]).
  split; [apply sorted_strict; [apply sort_Strings_sorted|exact Hnd']|].
  split; [exact Hnd'|].
  intros g. split.
  - intros H. apply (Permutation_in _ HP) in H. apply Hin in H.
    destruct H as [[]|H]. exact H.
  - intros H. apply (Permutation_in _ (Permutation_sym HP)). apply Hin. right. exact H.
Qed.

Lemma GetGenres_sorted_unique_witness :
  (forall keys : list string, Permutation (rev keys) keys)
  /\ GetGenres (@rev string) genreLibrary = ["Ambient"; "Jazz"]
  /\ NoDup (GetGenres (@rev string) genreLibrary).
Proof.
  assert (Hperm : forall keys : list string, Permutation (rev keys) keys)
    by (intros keys; symmetry; apply Permutation_rev).
  split; [exact Hperm|]. split; [reflexivity|].
  exact (proj1 (proj2 (GetGenres_sorted_unique (@rev string) genreLibrary Hperm))).
Defined.
